(** * mqv: constant-time fixed-width integers, key blinding and the MQV primitive

    A shallow embedding of the Go package [mqv] (files subtle.go, blind.go and
    mqv.go) together with the properties stated about it.

    Conventions.
    - A Go [uint] is a [Z] in [0, 2^UintSize); every arithmetic result is
      reduced with [wrap].  A [byte] is a [Z] in [0, 256).
    - A [SubtleInt] is the list of its words, least significant word first,
      exactly as the Go slice [[]uint].
    - A method with receiver [z] that overwrites [z] takes the old contents of
      [z] and returns the new contents.
    - A Go [panic] and a returned [error] are the two failure constructors of
      [result]. *)

From Stdlib Require Import ZArith List Lia Bool String.
From stdpp Require Import base option list gmap.
Import ListNotations.
Local Open Scope Z_scope.

(** ** Platform word size *)

(** [bits.UintSize]: the Go specification fixes it at 32 or 64. *)
Class Platform := {
  UintSize : Z;
  UintSize_cases : UintSize = 32 \/ UintSize = 64
}.

(** ** Outcomes of a call *)

(** Go errors as they are built in the package. *)
Inductive error : Type :=
| EOF                                   (* io.EOF *)
| ErrUnexpectedEOF                      (* io.ErrUnexpectedEOF *)
| New (msg : string)                    (* errors.New, fmt.Errorf *)
| Wrap (e : error) (msg : string).      (* errors.Wrap *)

Inductive result (A : Type) : Type :=
| Ok (a : A)
| Err (e : error)
| Panic (msg : string).
Arguments Ok {A} a.
Arguments Err {A} e.
Arguments Panic {A} msg.

#[global] Instance result_ret : MRet result := fun A a => Ok a.
#[global] Instance result_bind : MBind result := fun A B k m =>
  match m with
  | Ok a => k a
  | Err e => Err e
  | Panic s => Panic s
  end.

(** The cause of a wrapped error ([errors.Cause]). *)
Fixpoint Cause (e : error) : error :=
  match e with
  | Wrap e' _ => Cause e'
  | _ => e
  end.

(** ** Word-level helpers (subtle.go) *)

Section Words.
Context `{Platform}.

(** Reduction of an arithmetic result to a [uint]. *)
Definition wrap (x : Z) : Z := x mod 2 ^ UintSize.

(** [^x] on a [uint]. *)
Definition wnot (x : Z) : Z := wrap (Z.lnot x).

(** [selectW] returns [a] if [v] is 1 and [b] if [v] is 0:
    [^(v-1)&a | (v-1)&b]. *)
Definition selectW (v a b : Z) : Z :=
  Z.lor (Z.land (wnot (wrap (v - 1))) a) (Z.land (wrap (v - 1)) b).

(** [lessEqW] returns 1 if [a <= b] and 0 if [a > b]. *)
Definition lessEqW (a b : Z) : Z :=
  let msbA := Z.land (Z.shiftr a (UintSize - 1)) 1 in
  let msbB := Z.land (Z.shiftr b (UintSize - 1)) 1 in
  let remA := Z.ldiff a (Z.shiftl 1 (UintSize - 1)) in
  let remB := Z.ldiff b (Z.shiftl 1 (UintSize - 1)) in
  let less := Z.land (Z.shiftr (wrap (wrap (remA - remB) - 1)) (UintSize - 1)) 1 in
  selectW (Z.land (Z.lxor msbA msbB) 1) msbB less.

(** [lessW] returns 1 if [a < b] and 0 if [a >= b]. *)
Definition lessW (a b : Z) : Z := Z.lxor (lessEqW b a) 1.

(** [addW]: [z1<<_W + z0 = a+b+c], with [c] 0 or 1. *)
Definition addW (a b c : Z) : Z * Z :=
  let bc := wrap (b + c) in
  let z0 := wrap (a + bc) in
  let z1 := Z.lor (lessW z0 a) (lessW bc b) in
  (z0, z1).

(** [subW]: [z1<<_W + z0 = a-b-c], with [c] 0 or 1. *)
Definition subW (a b c : Z) : Z * Z :=
  let bc := wrap (b + c) in
  let z0 := wrap (a - bc) in
  let z1 := Z.lor (lessW a z0) (lessW bc b) in
  (z0, z1).

End Words.

(** ** Slices *)

(** [len(l)] as a Go [int]. *)
Definition len {A} (l : list A) : Z := Z.of_nat (length l).

(** [make([]T, n)] for a numeric element type: [n] zeros. *)
Definition make (n : Z) : list Z := repeat 0 (Z.to_nat n).

(** [l[i]] as a value; out of range is a run-time panic. *)
Definition index (l : list Z) (i : Z) : result Z :=
  if (0 <=? i) && (i <? len l)
  then match l !! Z.to_nat i with
       | Some a => Ok a
       | None => Panic "index out of range"
       end
  else Panic "index out of range".

(** [l[i] = a]; out of range is a run-time panic. *)
Definition assign (l : list Z) (i : Z) (a : Z) : result (list Z) :=
  if (0 <=? i) && (i <? len l)
  then Ok (<[Z.to_nat i := a]> l)
  else Panic "index out of range".

(** [l[:n]]; the slices cut here have capacity equal to their length. *)
Definition slice_to (l : list Z) (n : Z) : result (list Z) :=
  if (0 <=? n) && (n <=? len l)
  then Ok (take (Z.to_nat n) l)
  else Panic "slice bounds out of range".

(** A [for ... range] loop whose body may panic, threading its state. *)
Fixpoint for_range {A S} (l : list A) (body : S -> A -> result S) (s : S) : result S :=
  match l with
  | [] => Ok s
  | a :: l' => s' ← body s a; for_range l' body s'
  end.

(** ** SubtleInt (subtle.go) *)

Definition SubtleInt : Type := list Z.

Section Subtle.
Context `{Platform}.

(** [SubtleIntSize] returns the size of a SubtleInt that can store at least
    [numBits] of information. *)
Definition SubtleIntSize (numBits : Z) : Z :=
  let wordSize := UintSize ÷ 8 in
  let numBytes := Z.shiftr (numBits + 7) 3 in
  let numWords := (numBytes + wordSize - 1) ÷ wordSize in
  numWords.

(** The loop of [Add]: [z[i], c = addW(x[i], y[i], c)] for [i] in range.
    Iteration [i] reads [x[i]] and [y[i]] before it writes [z[i]] and no later
    iteration reads an index written earlier, so the words produced are the
    same when [z] is the same slice as [x] or [y] ([Add_elementwise] below). *)
Fixpoint Add_loop (x y : SubtleInt) (c : Z) : SubtleInt * Z :=
  match x, y with
  | xi :: x', yi :: y' =>
      let '(zi, c1) := addW xi yi c in
      let '(z', c2) := Add_loop x' y' c1 in
      (zi :: z', c2)
  | _, _ => ([], c)
  end.

(** [Add] sets [z] to the sum [x+y] and returns the carry. *)
Definition Add (z x y : SubtleInt) : result (SubtleInt * Z) :=
  if negb (len x =? len y) || negb (len x =? len z)
  then Panic "size mismatch"
  else Ok (Add_loop x y 0).

Fixpoint Sub_loop (x y : SubtleInt) (c : Z) : SubtleInt * Z :=
  match x, y with
  | xi :: x', yi :: y' =>
      let '(zi, c1) := subW xi yi c in
      let '(z', c2) := Sub_loop x' y' c1 in
      (zi :: z', c2)
  | _, _ => ([], c)
  end.

(** [Sub] sets [z] to the difference [x-y] and returns the borrow. *)
Definition Sub (z x y : SubtleInt) : result (SubtleInt * Z) :=
  if negb (len x =? len y) || negb (len x =? len z)
  then Panic "size mismatch"
  else Ok (Sub_loop x y 0).

Fixpoint Select_loop (p : Z) (x y : SubtleInt) : SubtleInt :=
  match x, y with
  | xi :: x', yi :: y' => selectW p xi yi :: Select_loop p x' y'
  | _, _ => []
  end.

(** [Select] sets [z] to [x] if [p = 1] and [y] if [p = 0]. *)
Definition Select (z : SubtleInt) (p : Z) (x y : SubtleInt) : result SubtleInt :=
  if negb (len x =? len y) || negb (len x =? len z)
  then Panic "size mismatch"
  else Ok (Select_loop p x y).

(** [AddMod] sets [z] to [x+y mod n].  Both parameters [x] and [y] must be
    less than [n].  The panic guards [c1 &^ c2 == 1].  The modulus is a value
    of its own here: this is the call in which the receiver is not the slice
    [n] (it may be [x] or [y], as in [BlindKey]).  [Mem.AddMod] below is the
    method on references, where [z.Add(x, y)] writes the receiver before
    [tmp.Sub(z, n)] reads [n]. *)
Definition AddMod (z x y n : SubtleInt) : result SubtleInt :=
  let tmp := make (len x) in
  '(z, c1) ← Add z x y;
  '(tmp, c2) ← Sub tmp z n;
  if Z.ldiff c1 c2 =? 1
  then Panic "can not happen"
  else Select z (Z.lxor c1 c2) z tmp.

(** The loop of [Less], for [i] from [n - 1] down to 0. *)
Fixpoint Less_loop (n : nat) (z y : SubtleInt) (undecided isLess : Z) : Z :=
  match n with
  | O => isLess
  | S i =>
      let zi := nth i z 0 in
      let yi := nth i y 0 in
      let less1 := lessW zi yi in
      let less2 := lessW yi zi in
      let notequal := Z.lor less1 less2 in
      let isLess := selectW (Z.land undecided notequal) less1 isLess in
      let undecided := Z.land undecided (wnot notequal) in
      Less_loop i z y undecided isLess
  end.

(** [Less] returns 1 if [z < y] and 0 otherwise. *)
Definition Less (z y : SubtleInt) : result Z :=
  if negb (len z =? len y)
  then Panic "size mismatch"
  else Ok (Less_loop (length z) z y 1 0).

(** [SetZero] sets [z] to zero. *)
Definition SetZero (z : SubtleInt) : SubtleInt := map (fun _ => 0) z.

(** The loop of [SetBytes] over the bytes of [buf], with the running word
    index [i] and shift [s]. *)
Fixpoint SetBytes_loop (buf : list Z) (z : SubtleInt) (i s : Z) : result SubtleInt :=
  match buf with
  | [] => Ok z
  | x :: buf' =>
      let s := wrap (s - 8) in
      zi ← index z i;
      z ← assign z i (Z.lor zi (wrap (Z.shiftl x s)));
      if s =? 0
      then SetBytes_loop buf' z (i - 1) UintSize
      else SetBytes_loop buf' z i s
  end.

(** [SetBytes] interprets [buf] as a big-endian byte slice and sets [z] to
    this value. *)
Definition SetBytes (z : SubtleInt) (buf : list Z) : result SubtleInt :=
  let z := SetZero z in
  SetBytes_loop buf z (len z - 1) UintSize.

(** The shift amounts visited by [for s := uint(0); s < bits.UintSize; s += 8]. *)
Definition byte_shifts : list Z :=
  map (fun k => 8 * Z.of_nat k) (seq 0 (Z.to_nat (UintSize ÷ 8))).

(** [uint8(x)]. *)
Definition uint8 (x : Z) : Z := x mod 256.

(** [Bytes] returns the value of [z] as a big-endian byte slice. *)
Definition Bytes (z : SubtleInt) : result (list Z) :=
  let sizeBytes := UintSize ÷ 8 in
  let r := make (len z * sizeBytes) in
  let i := len r - 1 in
  '(r, _) ← for_range z (fun '(r, i) x =>
      for_range byte_shifts (fun '(r, i) s =>
        r ← assign r i (uint8 (Z.shiftr x s));
        Ok (r, i - 1)) (r, i)) (r, i);
  Ok r.

End Subtle.

(** ** Collaborators from the Go standard library *)

(** [math/big]: a [big.Int] is its integer value. *)
Module big.

(** [x.BitLen()]: the length of the absolute value of [x] in bits. *)
Definition BitLen (x : Z) : Z :=
  if x =? 0 then 0 else Z.log2 (Z.abs x) + 1.

(** [new(big.Int).SetBytes(buf)]: [buf] read as a big-endian unsigned integer. *)
Definition SetBytes (buf : list Z) : Z :=
  fold_left (fun acc b => acc * 256 + b) buf 0.

(** The [n] low bytes of [x], most significant first. *)
Definition be_bytes (n : nat) (x : Z) : list Z :=
  map (fun k => Z.shiftr x (8 * Z.of_nat k) mod 256) (rev (seq 0 n)).

(** [x.Bytes()]: the absolute value of [x] as a big-endian byte slice without
    leading zero bytes. *)
Definition Bytes (x : Z) : list Z :=
  be_bytes (Z.to_nat ((BitLen x + 7) / 8)) (Z.abs x).

(** [z.Mod(x, y)]: the Euclidean modulus; a zero [y] is a division-by-zero
    run-time panic. *)
Definition Mod (x y : Z) : result Z :=
  if y =? 0 then Panic "division by zero" else Ok (x mod Z.abs y).

(** [x.Sign()]. *)
Definition Sign (x : Z) : Z := Z.sgn x.

End big.

(** [io]: a reader that delivers the bytes of a list and then reports the end
    of the stream (such as a [bytes.Reader]). *)
Module io.

Definition Reader : Type := list Z.

(** [io.ReadFull(r, buf)] with [len(buf) = n]: exactly [n] bytes, or [EOF] if
    none could be read, or [ErrUnexpectedEOF] after a short read. *)
Definition ReadFull (r : Reader) (n : Z) : result (list Z * Reader) :=
  if n <=? len r
  then Ok (take (Z.to_nat n) r, drop (Z.to_nat n) r)
  else match r with
       | [] => Err EOF
       | _ => Err ErrUnexpectedEOF
       end.

End io.

(** [crypto/elliptic]: the curve adapter.  A curve value carries the identity
    that Go's interface comparison [curve == elliptic.P256()] inspects, its
    parameters, and its two group operations on affine coordinates. *)
Module elliptic.

Inductive Ident : Type := P224 | P256 | P384 | P521 | Other.

Record CurveParams : Type := {
  N : Z;            (* the order of the base point *)
  Name : string     (* the canonical name of the curve *)
}.

Record Curve : Type := {
  ident : Ident;
  Params : CurveParams;
  Add : Z -> Z -> Z -> Z -> Z * Z;
  ScalarMult : Z -> Z -> list Z -> Z * Z
}.

End elliptic.

(** ** Key generation and blinding (blind.go) *)

Definition genMask : list Z := [0xff; 0x1; 0x3; 0x7; 0xf; 0x1f; 0x3f; 0x7f].

Section Blind.
Context `{Platform}.

(** One pass of the body of the [for] loop of [GenerateKey] after a successful
    read: the masked candidate and whether it is accepted. *)
Definition GenerateKey_body (numBits : Z) (constN tmp : SubtleInt) (priv : list Z)
  : result (list Z * bool) :=
  p0 ← index priv 0;
  m ← index genMask (numBits `mod` 8);
  priv ← assign priv 0 (Z.land p0 m);
  p1 ← index priv 1;
  priv ← assign priv 1 (Z.lxor p1 0x42);
  tmp ← SetBytes tmp priv;
  l ← Less tmp constN;
  Ok (priv, l =? 1).

(** The [for] loop of [GenerateKey].  Every pass that does not leave the loop
    consumes [numBytes >= 2] bytes of the reader, so [fuel] greater than the
    length of the reader is never exhausted. *)
Fixpoint GenerateKey_loop (fuel : nat) (numBits numBytes : Z)
    (constN tmp : SubtleInt) (rand : io.Reader) : result (list Z * io.Reader) :=
  match fuel with
  | O => Panic "unreachable"
  | S fuel' =>
      match io.ReadFull rand numBytes with
      | Ok (priv, rand') =>
          '(priv, accepted) ← GenerateKey_body numBits constN tmp priv;
          if accepted : bool
          then Ok (priv, rand')
          else GenerateKey_loop fuel' numBits numBytes constN tmp rand'
      | Err err => Err (Wrap err "failed to generate random data")
      | Panic msg => Panic msg
      end
  end.

(** [GenerateKey] returns a private key generated using the given reader. *)
Definition GenerateKey (params : elliptic.CurveParams) (rand : io.Reader)
  : result (list Z * io.Reader) :=
  let numBits := big.BitLen (elliptic.N params) in
  let numBytes := Z.shiftr (numBits + 7) 3 in
  let constN := make (SubtleIntSize numBits) in
  constN ← SetBytes constN (big.Bytes (elliptic.N params));
  let tmp := make (len constN) in
  GenerateKey_loop (S (length rand)) numBits numBytes constN tmp rand.

(** [BlindKey] blinds the original private key (p) with a random blind key (b)
    and returns (p+b, -b) mod n. *)
Definition BlindKey (priv : list Z) (params : elliptic.CurveParams) (rand : io.Reader)
  : result (list Z * list Z * io.Reader) :=
  let numBytes := Z.shiftr (big.BitLen (elliptic.N params) + 7) 3 in
  let n := make (SubtleIntSize (8 * numBytes)) in
  n ← SetBytes n (big.Bytes (elliptic.N params));
  if len priv >? numBytes
  then Err (New "invalid private key")
  else
    let privConst := make (len n) in
    privConst ← SetBytes privConst priv;
    match GenerateKey params rand with
    | Err err => Err (Wrap err "failed to generate blind key")
    | Panic msg => Panic msg
    | Ok (blindBytes, rand') =>
        let blind := make (len n) in
        blind ← SetBytes blind blindBytes;
        let privNew := make (len n) in
        privNew ← SetBytes privNew priv;
        privNew ← AddMod privNew privNew blind n;
        '(blind, _) ← Sub blind n blind;
        privNewBytes ← Bytes privNew;
        r1 ← slice_to privNewBytes numBytes;
        blindBytes' ← Bytes blind;
        r2 ← slice_to blindBytes' numBytes;
        Ok (r1, r2, rand')
    end.

(** [ScalarMultBlind] does two scalar multiplications with the blinded keys
    and adds them afterwards. *)
Definition ScalarMultBlind (x y : Z) (priv : list Z) (curve : elliptic.Curve)
    (rand : io.Reader) : result (Z * Z * io.Reader) :=
  match BlindKey priv (elliptic.Params curve) rand with
  | Err err => Err (Wrap err "failed to blind key")
  | Panic msg => Panic msg
  | Ok (privBlind, privBlindInv, rand') =>
      let '(x1, y1) := elliptic.ScalarMult curve x y privBlind in
      let '(x2, y2) := elliptic.ScalarMult curve x y privBlindInv in
      let '(x3, y3) := elliptic.Add curve x1 y1 x2 y2 in
      Ok (x3, y3, rand')
  end.

End Blind.

(** ** The MQV primitive (mqv.go) *)

Definition one : Z := 1.

(** [fmt]'s [%q] of a name without special characters. *)
Definition quoted (s : string) : string :=
  String (Ascii.ascii_of_nat 34) (s ++ String (Ascii.ascii_of_nat 34) EmptyString).

(** [cofactor] returns the cofactor of the elliptic curve. *)
Definition cofactor (curve : elliptic.Curve) : result Z :=
  match elliptic.ident curve with
  | elliptic.P224 => Ok one
  | elliptic.P256 => Ok one
  | elliptic.P384 => Ok one
  | elliptic.P521 => Ok one
  | elliptic.Other =>
      Err (New ("failed to determine cofactor of curve "
                ++ quoted (elliptic.Name (elliptic.Params curve))))
  end.

(** [avf] is the associative value function of SP 800-56A Rev. 3, 5.7.2.2. *)
Definition avf (x : Z) (params : elliptic.CurveParams) : Z :=
  let f := big.BitLen (elliptic.N params) in
  let b := Z.shiftl one ((f + 1) ÷ 2) in
  let v := b - one in
  let v := Z.land v x in
  let v := v + b in
  v.

(** [mqvSig] calculates
    [h * (ownEphemeralPriv + avf(ownEphemeralPublic) * ownStaticPriv) mod n]. *)
Definition mqvSig (ownStaticPriv ownEphemeralPriv : list Z) (ownEphemeralX : Z)
    (curve : elliptic.Curve) (h : Z) : result (list Z) :=
  let params := elliptic.Params curve in
  let ownStaticPrivInt := big.SetBytes ownStaticPriv in
  let ownEphemeralPrivInt := big.SetBytes ownEphemeralPriv in
  let implSig := avf ownEphemeralX params in
  let implSig := implSig * ownStaticPrivInt in
  let implSig := implSig + ownEphemeralPrivInt in
  implSig ← big.Mod implSig (elliptic.N params);
  let implSig := implSig * h in
  Ok (big.Bytes implSig).

(** [mqvBase] calculates
    [otherEphemeralPublic + avf(otherEphemeralPublic) * otherStaticPublic]. *)
Definition mqvBase (otherStaticX otherStaticY otherEphemeralX otherEphemeralY : Z)
    (curve : elliptic.Curve) : Z * Z :=
  let avfOther := avf otherEphemeralX (elliptic.Params curve) in
  let avfOtherBytes := big.Bytes avfOther in
  let '(ax, ay) := elliptic.ScalarMult curve otherStaticX otherStaticY avfOtherBytes in
  let '(bx, by_) := elliptic.Add curve otherEphemeralX otherEphemeralY ax ay in
  (bx, by_).

(** [MQV] implements the ECC MQV primitive. *)
Definition MQV (ownStaticPriv ownEphemeralPriv : list Z)
    (ownEphemeralX otherStaticX otherStaticY otherEphemeralX otherEphemeralY : Z)
    (curve : elliptic.Curve) : result (Z * Z) :=
  match cofactor curve with
  | Err err => Err (Wrap err "failed to get cofactor")
  | Panic msg => Panic msg
  | Ok h =>
      s ← mqvSig ownStaticPriv ownEphemeralPriv ownEphemeralX curve h;
      let '(bx, by_) :=
        mqvBase otherStaticX otherStaticY otherEphemeralX otherEphemeralY curve in
      let '(x, y) := elliptic.ScalarMult curve bx by_ s in
      if big.Sign x =? 0
      then Err (New "failed to generate shared secret")
      else Ok (x, y)
  end.

Section BlindMQV.
Context `{Platform}.

(** [BlindMQV] implements the ECC MQV primitive with additional blinding. *)
Definition BlindMQV (ownStaticPriv ownEphemeralPriv : list Z)
    (ownEphemeralX otherStaticX otherStaticY otherEphemeralX otherEphemeralY : Z)
    (curve : elliptic.Curve) (rand : io.Reader) : result (Z * Z * io.Reader) :=
  let params := elliptic.Params curve in
  match cofactor curve with
  | Err err => Err (Wrap err "failed to get cofactor")
  | Panic msg => Panic msg
  | Ok h =>
  match BlindKey ownStaticPriv params rand with
  | Err err => Err (Wrap err "failed to blind static key")
  | Panic msg => Panic msg
  | Ok (ownStaticPrivNew, ownStaticPrivRev, rand) =>
  match BlindKey ownEphemeralPriv params rand with
  | Err err => Err (Wrap err "failed to blind ephemeral key")
  | Panic msg => Panic msg
  | Ok (ownEphemeralPrivNew, ownEphemeralPrivRev, rand) =>
      let '(bx, by_) :=
        mqvBase otherStaticX otherStaticY otherEphemeralX otherEphemeralY curve in
      s1 ← mqvSig ownStaticPrivNew ownEphemeralPrivNew ownEphemeralX curve h;
      let '(x1, y1) := elliptic.ScalarMult curve bx by_ s1 in
      s2 ← mqvSig ownStaticPrivRev ownEphemeralPrivRev ownEphemeralX curve h;
      let '(x2, y2) := elliptic.ScalarMult curve bx by_ s2 in
      let '(x, y) := elliptic.Add curve x1 y1 x2 y2 in
      Ok (x, y, rand)
  end end end.

End BlindMQV.

(** ** The platform and curve parameters used in the examples *)

(** The 64-bit platform, on which the package's tests are written. *)
#[global] Instance amd64 : Platform :=
  {| UintSize := 64; UintSize_cases := or_intror eq_refl |}.

(** The parameters of NIST P-256 (FIPS 186-3, D.1.2.3). *)
Definition P256Params : elliptic.CurveParams :=
  {| elliptic.N := 0xffffffff00000000ffffffffffffffffbce6faada7179e84f3b9cac2fc632551;
     elliptic.Name := "P-256" |}.

(** The parameters of NIST P-224 (FIPS 186-3, D.1.2.2). *)
Definition P224Params : elliptic.CurveParams :=
  {| elliptic.N := 0xffffffffffffffffffffffffffff16a2e0b8f03e13dd29455c5c2a3d;
     elliptic.Name := "P-224" |}.

(** ** Mathematical reading of the data *)

(** A Go [uint] value. *)
Definition is_uint `{Platform} (x : Z) : Prop := 0 <= x < 2 ^ UintSize.

(** A carry, borrow or selector: 0 or 1. *)
Definition is_bit (c : Z) : Prop := c = 0 \/ c = 1.

(** A Go [byte] value. *)
Definition is_byte (b : Z) : Prop := 0 <= b < 256.

(** A well-formed SubtleInt: every word is a [uint]. *)
Definition wf `{Platform} (z : SubtleInt) : Prop := Forall is_uint z.

(** A well-formed byte slice. *)
Definition bytes_ok (b : list Z) : Prop := Forall is_byte b.

(** The integer represented by a SubtleInt (least significant word first). *)
Fixpoint value `{Platform} (z : SubtleInt) : Z :=
  match z with
  | [] => 0
  | w :: z' => w + 2 ^ UintSize * value z'
  end.

(** The number of values of a SubtleInt of [n] words. *)
Definition modulus `{Platform} (n : nat) : Z := 2 ^ (UintSize * Z.of_nat n).

(** The width of a SubtleInt in bytes. *)
Definition width `{Platform} (z : SubtleInt) : Z := len z * (UintSize / 8).

(** [Big] converts the integer [z] to a [big.Int] (subtle.go). *)
Definition Big `{Platform} (z : SubtleInt) : result Z :=
  b ← Bytes z; Ok (big.SetBytes b).

(** The bytes of one word, least significant first, as [Bytes] visits them. *)
Definition word_bytes `{Platform} (x : Z) : list Z :=
  map (fun s => uint8 (Z.shiftr x s)) byte_shifts.

(** ** The curve as a group *)

(** A point, as the pair of affine coordinates the adapter works on. *)
Definition point : Type := (Z * Z)%type.

(** [curve.Add] and [curve.ScalarMult] on points. *)
Definition curve_add (curve : elliptic.Curve) (P Q : point) : point :=
  elliptic.Add curve (fst P) (snd P) (fst Q) (snd Q).

Definition curve_mult (curve : elliptic.Curve) (P : point) (k : list Z) : point :=
  elliptic.ScalarMult curve (fst P) (snd P) k.

(** The adapter's operations are those of a group of order [n]: on the points
    singled out by [valid], [mul a P] is the multiple [a.P], [ScalarMult]
    multiplies by the scalar its bytes encode big-endian, [Add] adds, and
    multiples depend on the scalar modulo [n] only. *)
Record GroupLaws (curve : elliptic.Curve) (valid : point -> Prop)
    (mul : Z -> point -> point) : Prop := {
  order_pos : 0 < elliptic.N (elliptic.Params curve);
  mul_valid : forall a P, valid P -> valid (mul a P);
  add_valid : forall P Q, valid P -> valid Q -> valid (curve_add curve P Q);
  ScalarMult_mul : forall P k, valid P -> bytes_ok k ->
    curve_mult curve P k = mul (big.SetBytes k) P;
  Add_mul : forall a b P, valid P ->
    curve_add curve (mul a P) (mul b P) = mul (a + b) P;
  mul_mul : forall a b P, valid P -> mul a (mul b P) = mul (a * b) P;
  mul_order : forall a b P, valid P ->
    a mod elliptic.N (elliptic.Params curve) = b mod elliptic.N (elliptic.Params curve) ->
    mul a P = mul b P
}.

(** The cyclic group of order [N] behind the curve interface: the multiple
    [k.G] of a generator is written [(k mod N, 0)], so that the neutral element
    is the one point with x-coordinate 0. *)
Definition cyclic_curve (id : elliptic.Ident) (params : elliptic.CurveParams)
  : elliptic.Curve :=
  {| elliptic.ident := id;
     elliptic.Params := params;
     elliptic.Add := fun x1 _ x2 _ => ((x1 + x2) mod elliptic.N params, 0);
     elliptic.ScalarMult := fun x _ k => ((big.SetBytes k * x) mod elliptic.N params, 0) |}.

Definition cyclic_valid (params : elliptic.CurveParams) (P : point) : Prop :=
  0 <= fst P < elliptic.N params /\ snd P = 0.

Definition cyclic_mul (params : elliptic.CurveParams) (a : Z) (P : point) : point :=
  ((a * fst P) mod elliptic.N params, 0).

(** The signature scalar [(dE + avf(xE) * dS) mod n] of [mqvSig] for cofactor 1. *)
Definition mqv_scalar (curve : elliptic.Curve) (dS dE : list Z) (xE : Z) : Z :=
  (avf xE (elliptic.Params curve) * big.SetBytes dS + big.SetBytes dE)
    mod elliptic.N (elliptic.Params curve).

(** The byte length [(bits(n) + 7) / 8] of the order of a curve. *)
Definition numBytes (params : elliptic.CurveParams) : Z :=
  (big.BitLen (elliptic.N params) + 7) / 8.

(** ** Inputs of the examples *)

(** P-256 with its group presented as the cyclic group of its order. *)
Definition P256_cyclic : elliptic.Curve := cyclic_curve elliptic.P256 P256Params.

(** The generator [(1, 0)] of the cyclic presentation. *)
Definition G_cyclic : point := (1, 0).

Definition aliceStaticPriv : list Z := repeat 0x11 32.
Definition aliceEphemeralPriv : list Z := repeat 0x22 32.
Definition bobStaticPriv : list Z := repeat 0x33 32.
Definition bobEphemeralPriv : list Z := repeat 0x44 32.

Definition aliceStatic : point := curve_mult P256_cyclic G_cyclic aliceStaticPriv.
Definition aliceEphemeral : point := curve_mult P256_cyclic G_cyclic aliceEphemeralPriv.
Definition bobStatic : point := curve_mult P256_cyclic G_cyclic bobStaticPriv.
Definition bobEphemeral : point := curve_mult P256_cyclic G_cyclic bobEphemeralPriv.

(** The all-zero reader of the tests, long enough for two blindings. *)
Definition zero_reader : io.Reader := repeat 0 64.

(** A reader that delivers 0x42 at index 1 and zeros elsewhere. *)
Definition zero_key_reader : io.Reader := [0; 0x42] ++ repeat 0 30.

(** The point both peers compute in the cyclic presentation. *)
Definition sharedPoint : point :=
  (75863791370159569230822767285602536139901416664202281853548119610203671070777, 0).

(** ** The loops of [Add], [Sub] and [Select], index by index

    The package calls these methods with the receiver passed again as an
    operand: [privNew.AddMod(privNew, blind, n)] runs [z.Add(z, y)] and
    [z.Select(p, z, tmp)], and [blind.Sub(n, blind)] runs [z.Sub(x, z)].  The
    loop below performs the reads and the write of every iteration on the
    slices as they are at that moment, with the operand that is the receiver
    read from the receiver. *)

(** Which operand, if any, is the same slice as the receiver. *)
Inductive alias : Type := NoAlias | AliasX | AliasY.

(** [n] iterations from index [i] of [z[i], c = step(x[i], y[i], c)]. *)
Fixpoint elementwise {C : Type} (step : Z -> Z -> C -> Z * C) (a : alias)
    (n : nat) (i : Z) (z x y : SubtleInt) (c : C) : result (SubtleInt * C) :=
  match n with
  | O => Ok (z, c)
  | S n' =>
      xi ← index (match a with AliasX => z | _ => x end) i;
      yi ← index (match a with AliasY => z | _ => y end) i;
      let '(zi, c') := step xi yi c in
      z ← assign z i zi;
      elementwise step a n' (i + 1) z x y c'
  end.

Section ZipLoop.
Context {C : Type} (step : Z -> Z -> C -> Z * C).

(** The loop on values, as [Add_loop], [Sub_loop] and [Select_loop] run it. *)
Fixpoint zip_loop (x y : SubtleInt) (c : C) : SubtleInt * C :=
  match x, y with
  | xi :: x', yi :: y' =>
      let '(zi, c1) := step xi yi c in
      let '(z', c2) := zip_loop x' y' c1 in
      (zi :: z', c2)
  | _, _ => ([], c)
  end.

End ZipLoop.

(** * The package on a store

    The functions above compute with values.  Here the exported functions are
    written once more over a store of objects, statement by statement, with
    byte slices, [*big.Int]s and SubtleInts passed by reference, so that
    writes, aliasing and deferred wipes are visible.  SubtleInt methods load
    the slices they are given, run the loops defined above and store the
    receiver. *)

Module Mem.

Abbreviation loc := nat.

(** What a reference points to: the array of a [[]byte], the value of a
    [big.Int], or the array of a SubtleInt. *)
Inductive object : Type :=
| OBytes (b : list Z)
| OInt (v : Z)
| OWords (w : SubtleInt).

Abbreviation heap := (list object).

(** A store and the calls deferred by the running function, most recent
    first. *)
Record state : Type := {
  objects : heap;
  deferred : list (heap -> heap)
}.

Definition M (A : Type) : Type := state -> result A * state.

#[global] Instance M_ret : MRet M := fun A a s => (Ok a, s).
#[global] Instance M_bind : MBind M := fun A B k m s =>
  match m s with
  | (Ok a, s') => k a s'
  | (Err e, s') => (Err e, s')
  | (Panic msg, s') => (Panic msg, s')
  end.

(** A computation on values, run inside the store monad. *)
Definition lift {A} (r : result A) : M A := fun s => (r, s).

(** Allocation returns a reference no object of the store has. *)
Definition alloc (o : object) : M loc := fun s =>
  (Ok (length (objects s)),
   {| objects := objects s ++ [o]; deferred := deferred s |}).

Definition load (l : loc) : M object := fun s =>
  match objects s !! l with
  | Some o => (Ok o, s)
  | None => (Panic "invalid memory address", s)
  end.

Definition store (l : loc) (o : object) : M unit := fun s =>
  match objects s !! l with
  | Some _ => (Ok tt, {| objects := <[l := o]> (objects s); deferred := deferred s |})
  | None => (Panic "invalid memory address", s)
  end.

Definition load_bytes (l : loc) : M (list Z) :=
  o ← load l;
  match o with OBytes b => mret b | _ => lift (Panic "invalid memory address") end.

Definition load_int (l : loc) : M Z :=
  o ← load l;
  match o with OInt v => mret v | _ => lift (Panic "invalid memory address") end.

Definition load_words (l : loc) : M SubtleInt :=
  o ← load l;
  match o with OWords w => mret w | _ => lift (Panic "invalid memory address") end.

(** [defer f]. *)
Definition defer (f : heap -> heap) : M unit := fun s =>
  (Ok tt, {| objects := objects s; deferred := f :: deferred s |}).

(** A function call: the body runs with its own list of deferred calls, which
    are run, last deferred first, when the body returns, fails or panics. *)
Definition call {A} (body : M A) : M A := fun s =>
  let '(r, s') := body {| objects := objects s; deferred := [] |} in
  (r, {| objects := fold_left (fun h f => f h) (deferred s') (objects s');
         deferred := deferred s |}).

(** [errors.Wrap] around the error of a callee. *)
Definition wrap_error {A} (m : M A) (msg : string) : M A := fun s =>
  match m s with
  | (Err err, s') => (Err (Wrap err msg), s')
  | other => other
  end.

(** [WipeInt] overrides the internal array of a [big.Int] with zeros. *)
Definition WipeInt (x : loc) (h : heap) : heap :=
  match h !! x with
  | Some (OInt _) => <[x := OInt 0]> h
  | _ => h
  end.

(** [WipeBytes] overrides the internal byte array with zeros. *)
Definition WipeBytes (b : loc) (h : heap) : heap :=
  match h !! b with
  | Some (OBytes bs) => <[b := OBytes (map (fun _ => 0) bs)]> h
  | _ => h
  end.

(** [math/big] *)

(** [new(big.Int).SetBytes(buf)]. *)
Definition big_SetBytes (buf : loc) : M loc :=
  b ← load_bytes buf; alloc (OInt (big.SetBytes b)).

(** [x.Bytes()]: a new byte slice. *)
Definition big_Bytes (x : loc) : M loc :=
  v ← load_int x; alloc (OBytes (big.Bytes v)).

(** [z.op(x, y)] for a binary operation: reads [x] and [y], sets [z]. *)
Definition big_op (op : Z -> Z -> result Z) (z x y : loc) : M loc :=
  xv ← load_int x; yv ← load_int y;
  r ← lift (op xv yv);
  _ ← load_int z;
  _ ← store z (OInt r);
  mret z.

(** [z.Mod(x, n)] for an order [n] held by the curve parameters. *)
Definition big_Mod (z x : loc) (n : Z) : M loc :=
  xv ← load_int x;
  r ← lift (big.Mod xv n);
  _ ← load_int z;
  _ ← store z (OInt r);
  mret z.

Section Store.
Context `{Platform}.

Local Abbreviation Add_words := Add.
Local Abbreviation Sub_words := Sub.
Local Abbreviation Select_words := Select.
Local Abbreviation Less_words := Less.
Local Abbreviation SetZero_words := SetZero.
Local Abbreviation SetBytes_words := SetBytes.
Local Abbreviation Bytes_words := Bytes.

(** SubtleInt methods *)

Definition Add (z x y : loc) : M Z :=
  zv ← load_words z; xv ← load_words x; yv ← load_words y;
  '(r, c) ← lift (Add_words zv xv yv);
  _ ← store z (OWords r);
  mret c.

Definition Sub (z x y : loc) : M Z :=
  zv ← load_words z; xv ← load_words x; yv ← load_words y;
  '(r, c) ← lift (Sub_words zv xv yv);
  _ ← store z (OWords r);
  mret c.

Definition Select (z : loc) (p : Z) (x y : loc) : M unit :=
  zv ← load_words z; xv ← load_words x; yv ← load_words y;
  r ← lift (Select_words zv p xv yv);
  store z (OWords r).

Definition AddMod (z x y n : loc) : M unit :=
  xv ← load_words x;
  tmp ← alloc (OWords (make (len xv)));
  c1 ← Add z x y;
  c2 ← Sub tmp z n;
  if Z.ldiff c1 c2 =? 1
  then lift (Panic "can not happen")
  else Select z (Z.lxor c1 c2) z tmp.

Definition Less (z y : loc) : M Z :=
  zv ← load_words z; yv ← load_words y;
  lift (Less_words zv yv).

Definition SetZero (z : loc) (h : heap) : heap :=
  match h !! z with
  | Some (OWords w) => <[z := OWords (SetZero_words w)]> h
  | _ => h
  end.

Definition SetBytes (z buf : loc) : M unit :=
  zv ← load_words z; b ← load_bytes buf;
  r ← lift (SetBytes_words zv b);
  store z (OWords r).

Definition Bytes (z : loc) : M loc :=
  zv ← load_words z;
  r ← lift (Bytes_words zv);
  alloc (OBytes r).

(** [b[:n]] of a slice no one else refers to. *)
Definition reslice (b : loc) (n : Z) : M loc :=
  bs ← load_bytes b;
  r ← lift (slice_to bs n);
  _ ← store b (OBytes r);
  mret b.

(** [len(z)] *)
Definition len_words (z : loc) : M Z := zv ← load_words z; mret (len zv).
Definition len_bytes (b : loc) : M Z := bs ← load_bytes b; mret (len bs).

(** blind.go *)

Fixpoint GenerateKey_loop (fuel : nat) (numBits numBytes : Z)
    (constN tmp priv : loc) (rand : io.Reader) : M (loc * io.Reader) :=
  match fuel with
  | O => lift (Panic "unreachable")
  | S fuel' =>
      match io.ReadFull rand numBytes with
      | Ok (read, rand') =>
          _ ← load_bytes priv;
          _ ← store priv (OBytes read);
          p ← load_bytes priv;
          p0 ← lift (index p 0);
          m ← lift (index genMask (numBits `mod` 8));
          p ← lift (assign p 0 (Z.land p0 m));
          _ ← store priv (OBytes p);
          p ← load_bytes priv;
          p1 ← lift (index p 1);
          p ← lift (assign p 1 (Z.lxor p1 0x42));
          _ ← store priv (OBytes p);
          _ ← SetBytes tmp priv;
          l ← Less tmp constN;
          if l =? 1
          then mret (priv, rand')
          else GenerateKey_loop fuel' numBits numBytes constN tmp priv rand'
      | Err err => lift (Err (Wrap err "failed to generate random data"))
      | Panic msg => lift (Panic msg)
      end
  end.

Definition GenerateKey (params : elliptic.CurveParams) (rand : io.Reader)
  : M (loc * io.Reader) :=
  call (
    let numBits := big.BitLen (elliptic.N params) in
    let numBytes := Z.shiftr (numBits + 7) 3 in
    constN ← alloc (OWords (make (SubtleIntSize numBits)));
    nBytes ← alloc (OBytes (big.Bytes (elliptic.N params)));
    _ ← SetBytes constN nBytes;
    priv ← alloc (OBytes (make numBytes));
    lenN ← len_words constN;
    tmp ← alloc (OWords (make lenN));
    _ ← defer (SetZero tmp);
    GenerateKey_loop (S (length rand)) numBits numBytes constN tmp priv rand).

Definition BlindKey (priv : loc) (params : elliptic.CurveParams) (rand : io.Reader)
  : M (loc * loc * io.Reader) :=
  call (
    let numBytes := Z.shiftr (big.BitLen (elliptic.N params) + 7) 3 in
    n ← alloc (OWords (make (SubtleIntSize (8 * numBytes))));
    nBytes ← alloc (OBytes (big.Bytes (elliptic.N params)));
    _ ← SetBytes n nBytes;
    lenPriv ← len_bytes priv;
    if lenPriv >? numBytes
    then lift (Err (New "invalid private key"))
    else
      lenN ← len_words n;
      privConst ← alloc (OWords (make lenN));
      _ ← SetBytes privConst priv;
      '(blindBytes, rand') ← wrap_error (GenerateKey params rand)
                               "failed to generate blind key";
      _ ← defer (WipeBytes blindBytes);
      blind ← alloc (OWords (make lenN));
      _ ← defer (SetZero blind);
      _ ← SetBytes blind blindBytes;
      privNew ← alloc (OWords (make lenN));
      _ ← defer (SetZero privNew);
      _ ← SetBytes privNew priv;
      _ ← AddMod privNew privNew blind n;
      _ ← Sub blind n blind;
      b1 ← Bytes privNew;
      r1 ← reslice b1 numBytes;
      b2 ← Bytes blind;
      r2 ← reslice b2 numBytes;
      mret (r1, r2, rand')).

End Store.

(** [crypto/elliptic] on the store: the adapter reads its arguments and
    returns its result in two newly allocated [big.Int]s. *)
Definition curve_ScalarMult (curve : elliptic.Curve) (x y k : loc) : M (loc * loc) :=
  xv ← load_int x; yv ← load_int y; kv ← load_bytes k;
  let '(rx, ry) := elliptic.ScalarMult curve xv yv kv in
  lx ← alloc (OInt rx); ly ← alloc (OInt ry);
  mret (lx, ly).

Definition curve_Add (curve : elliptic.Curve) (x1 y1 x2 y2 : loc) : M (loc * loc) :=
  x1v ← load_int x1; y1v ← load_int y1; x2v ← load_int x2; y2v ← load_int y2;
  let '(rx, ry) := elliptic.Add curve x1v y1v x2v y2v in
  lx ← alloc (OInt rx); ly ← alloc (OInt ry);
  mret (lx, ly).

(** mqv.go; [one] is the reference held by the package variable [one]. *)
Section MQV.
Variable one : loc.

Local Abbreviation cofactor_values := cofactor.

Definition cofactor (curve : elliptic.Curve) : M loc :=
  h ← lift (cofactor_values curve);
  mret one.

Definition avf (x : loc) (params : elliptic.CurveParams) : M loc :=
  call (
    let f := big.BitLen (elliptic.N params) in
    onev ← load_int one;
    b ← alloc (OInt (Z.shiftl onev ((f + 1) ÷ 2)));
    _ ← defer (WipeInt b);
    v ← alloc (OInt 0);
    v ← big_op (fun a b => Ok (a - b)) v b one;
    v ← big_op (fun a b => Ok (Z.land a b)) v v x;
    v ← big_op (fun a b => Ok (a + b)) v v b;
    mret v).

Definition mqvSig (ownStaticPriv ownEphemeralPriv ownEphemeralX : loc)
    (curve : elliptic.Curve) (h : loc) : M loc :=
  call (
    let params := elliptic.Params curve in
    ownStaticPrivInt ← big_SetBytes ownStaticPriv;
    _ ← defer (WipeInt ownStaticPrivInt);
    ownEphemeralPrivInt ← big_SetBytes ownEphemeralPriv;
    _ ← defer (WipeInt ownEphemeralPrivInt);
    implSig ← avf ownEphemeralX params;
    _ ← defer (WipeInt implSig);
    implSig ← big_op (fun a b => Ok (a * b)) implSig implSig ownStaticPrivInt;
    implSig ← big_op (fun a b => Ok (a + b)) implSig implSig ownEphemeralPrivInt;
    implSig ← big_Mod implSig implSig (elliptic.N params);
    implSig ← big_op (fun a b => Ok (a * b)) implSig implSig h;
    big_Bytes implSig).

Definition mqvBase (otherStaticX otherStaticY otherEphemeralX otherEphemeralY : loc)
    (curve : elliptic.Curve) : M (loc * loc) :=
  call (
    avfOther ← avf otherEphemeralX (elliptic.Params curve);
    _ ← defer (WipeInt avfOther);
    avfOtherBytes ← big_Bytes avfOther;
    _ ← defer (WipeBytes avfOtherBytes);
    '(ax, ay) ← curve_ScalarMult curve otherStaticX otherStaticY avfOtherBytes;
    _ ← defer (WipeInt ax);
    _ ← defer (WipeInt ay);
    curve_Add curve otherEphemeralX otherEphemeralY ax ay).

Definition MQV (ownStaticPriv ownEphemeralPriv : loc)
    (ownEphemeralX otherStaticX otherStaticY otherEphemeralX otherEphemeralY : loc)
    (curve : elliptic.Curve) : M (loc * loc) :=
  call (
    h ← wrap_error (cofactor curve) "failed to get cofactor";
    s ← mqvSig ownStaticPriv ownEphemeralPriv ownEphemeralX curve h;
    _ ← defer (WipeBytes s);
    '(bx, by_) ← mqvBase otherStaticX otherStaticY otherEphemeralX otherEphemeralY curve;
    _ ← defer (WipeInt bx);
    _ ← defer (WipeInt by_);
    '(x, y) ← curve_ScalarMult curve bx by_ s;
    xv ← load_int x;
    if big.Sign xv =? 0
    then lift (Err (New "failed to generate shared secret"))
    else mret (x, y)).

Context `{Platform}.

Definition BlindMQV (ownStaticPriv ownEphemeralPriv : loc)
    (ownEphemeralX otherStaticX otherStaticY otherEphemeralX otherEphemeralY : loc)
    (curve : elliptic.Curve) (rand : io.Reader) : M (loc * loc * io.Reader) :=
  call (
    let params := elliptic.Params curve in
    h ← wrap_error (cofactor curve) "failed to get cofactor";
    '(ownStaticPrivNew, ownStaticPrivRev, rand) ←
      wrap_error (BlindKey ownStaticPriv params rand) "failed to blind static key";
    _ ← defer (WipeBytes ownStaticPrivNew);
    _ ← defer (WipeBytes ownStaticPrivRev);
    '(ownEphemeralPrivNew, ownEphemeralPrivRev, rand) ←
      wrap_error (BlindKey ownEphemeralPriv params rand) "failed to blind ephemeral key";
    _ ← defer (WipeBytes ownEphemeralPrivNew);
    _ ← defer (WipeBytes ownEphemeralPrivRev);
    '(bx, by_) ← mqvBase otherStaticX otherStaticY otherEphemeralX otherEphemeralY curve;
    _ ← defer (WipeInt bx);
    _ ← defer (WipeInt by_);
    s1 ← mqvSig ownStaticPrivNew ownEphemeralPrivNew ownEphemeralX curve h;
    _ ← defer (WipeBytes s1);
    '(x1, y1) ← curve_ScalarMult curve bx by_ s1;
    _ ← defer (WipeInt x1);
    _ ← defer (WipeInt y1);
    s2 ← mqvSig ownStaticPrivRev ownEphemeralPrivRev ownEphemeralX curve h;
    _ ← defer (WipeBytes s2);
    '(x2, y2) ← curve_ScalarMult curve bx by_ s2;
    _ ← defer (WipeInt x2);
    _ ← defer (WipeInt y2);
    '(x, y) ← curve_Add curve x1 y1 x2 y2;
    mret (x, y, rand)).

End MQV.

(** Running a call on a store. *)
Definition run {A} (m : M A) (h : heap) : result A * heap :=
  let '(r, s) := m {| objects := h; deferred := [] |} in (r, objects s).

(** A deferred call that leaves the objects below [b] as they are. *)
Definition preserves (b : nat) (f : heap -> heap) : Prop :=
  forall h, take b (f h) = take b h /\ length (f h) = length h.

(** A computation that, started on a store of at least [b] objects, leaves
    the objects below [b] as they are, only defers calls that do the same, and
    returns a value satisfying [Q]. *)
Definition safe {A} (b : nat) (m : M A) (Q : A -> Prop) : Prop :=
  forall s, (b <= length (objects s))%nat -> Forall (preserves b) (deferred s) ->
    take b (objects (snd (m s))) = take b (objects s)
    /\ (length (objects s) <= length (objects (snd (m s))))%nat
    /\ Forall (preserves b) (deferred (snd (m s)))
    /\ forall a, fst (m s) = Ok a -> Q a.

(** [m], started in state [s], returns [r] and leaves state [s']. *)
Definition runs {A} (m : M A) (s : state) (r : result A) (s' : state) : Prop :=
  m s = (r, s').

End Mem.

(** A store holding the package variable [one] and Alice's arguments, in the
    order of the parameters of [MQV]. *)
Definition alice_store : Mem.heap :=
  [Mem.OInt 1;
   Mem.OBytes aliceStaticPriv; Mem.OBytes aliceEphemeralPriv;
   Mem.OInt (fst aliceEphemeral);
   Mem.OInt (fst bobStatic); Mem.OInt (snd bobStatic);
   Mem.OInt (fst bobEphemeral); Mem.OInt (snd bobEphemeral)].

(** * Properties *)

(** ** Words *)


Section WordFacts.
Context `{Platform}.

Lemma UintSize_ge8 : 8 <= UintSize.
Proof. destruct UintSize_cases as [-> | ->]; lia. Qed.

Lemma UintSize_mod8 : UintSize mod 8 = 0.
Proof. destruct UintSize_cases as [-> | ->]; reflexivity. Qed.

Lemma pow_UintSize_pos : 0 < 2 ^ UintSize.
Proof. apply Z.pow_pos_nonneg; pose proof UintSize_ge8; lia. Qed.

Lemma pow_UintSize_ge256 : 256 <= 2 ^ UintSize.
Proof.
  change 256 with (2 ^ 8). apply Z.pow_le_mono_r; [lia | apply UintSize_ge8].
Qed.

Lemma pow_UintSize_split : 2 ^ UintSize = 2 * 2 ^ (UintSize - 1).
Proof.
  pose proof UintSize_ge8.
  replace UintSize with (1 + (UintSize - 1)) at 1 by lia.
  rewrite Z.pow_add_r by lia. reflexivity.
Qed.

Lemma wrap_small x : is_uint x -> wrap x = x.
Proof. intros Hx. apply Z.mod_small. exact Hx. Qed.

Lemma wrap_is_uint x : is_uint (wrap x).
Proof. apply Z.mod_pos_bound, pow_UintSize_pos. Qed.

Lemma is_bit_is_uint c : is_bit c -> is_uint c.
Proof.
  pose proof pow_UintSize_split. pose proof UintSize_ge8.
  assert (0 < 2 ^ (UintSize - 1)) by (apply Z.pow_pos_nonneg; lia).
  intros [-> | ->]; unfold is_uint; lia.
Qed.

Lemma wnot_0 : wnot 0 = Z.ones UintSize.
Proof.
  unfold wnot, wrap. change (Z.lnot 0) with (-1).
  rewrite Z.ones_equiv. pose proof pow_UintSize_pos.
  rewrite <- (Z_mod_plus_full (-1) 1). rewrite Z.mod_small; lia.
Qed.

Lemma wrap_m1 : wrap (-1) = Z.ones UintSize.
Proof. exact wnot_0. Qed.

Lemma wnot_ones : wnot (Z.ones UintSize) = 0.
Proof.
  unfold wnot, wrap. rewrite Z.ones_equiv.
  unfold Z.lnot. replace (Z.pred (- Z.pred (2 ^ UintSize))) with (-1 * 2 ^ UintSize) by lia.
  apply Z_mod_mult.
Qed.

Lemma land_ones_uint a : is_uint a -> Z.land (Z.ones UintSize) a = a.
Proof.
  intros Ha. rewrite Z.land_comm, Z.land_ones by (pose proof UintSize_ge8; lia).
  apply Z.mod_small, Ha.
Qed.

Lemma selectW_1 a b : is_uint a -> selectW 1 a b = a.
Proof.
  intros Ha. unfold selectW. change (1 - 1) with 0.
  rewrite (wrap_small 0) by (apply is_bit_is_uint; left; reflexivity).
  rewrite wnot_0, land_ones_uint by assumption.
  rewrite Z.land_0_l. apply Z.lor_0_r.
Qed.

Lemma selectW_0 a b : is_uint b -> selectW 0 a b = b.
Proof.
  intros Hb. unfold selectW. change (0 - 1) with (-1).
  rewrite wrap_m1, wnot_ones, land_ones_uint by assumption.
  rewrite Z.land_0_l. apply Z.lor_0_l.
Qed.

Lemma land_1 x : Z.land x 1 = x mod 2.
Proof. exact (Z.land_ones x 1 ltac:(lia)). Qed.

(** The top bit and the remaining bits of a word. *)
Lemma msb_spec a : is_uint a ->
  Z.land (Z.shiftr a (UintSize - 1)) 1 = a / 2 ^ (UintSize - 1)
  /\ (a / 2 ^ (UintSize - 1) = 0 \/ a / 2 ^ (UintSize - 1) = 1).
Proof.
  intros [Ha0 Ha1]. pose proof UintSize_ge8. pose proof pow_UintSize_split.
  assert (0 < 2 ^ (UintSize - 1)) by (apply Z.pow_pos_nonneg; lia).
  rewrite Z.shiftr_div_pow2 by lia.
  assert (0 <= a / 2 ^ (UintSize - 1) < 2).
  { split; [apply Z.div_pos; lia | apply Z.div_lt_upper_bound; lia]. }
  rewrite land_1, Z.mod_small by lia. split; [reflexivity | lia].
Qed.

Lemma rem_spec a : is_uint a ->
  Z.ldiff a (Z.shiftl 1 (UintSize - 1)) = a mod 2 ^ (UintSize - 1).
Proof.
  intros [Ha0 Ha1]. pose proof UintSize_ge8.
  rewrite Z.shiftl_1_l.
  apply Z.bits_inj'. intros n Hn.
  rewrite Z.ldiff_spec, Z.pow2_bits_eqb by lia.
  destruct (Z.ltb_spec n (UintSize - 1)).
  - rewrite Z.mod_pow2_bits_low by lia.
    destruct (Z.eqb_spec (UintSize - 1) n); [lia |]. apply andb_true_r.
  - rewrite Z.mod_pow2_bits_high by lia.
    destruct (Z.eqb_spec (UintSize - 1) n); [apply andb_false_r |].
    rewrite <- (Z.mod_small a (2 ^ UintSize)) by lia.
    rewrite Z.mod_pow2_bits_high by lia. reflexivity.
Qed.

Lemma lessEqW_spec a b : is_uint a -> is_uint b ->
  lessEqW a b = if a <=? b then 1 else 0.
Proof.
  intros Ha Hb. unfold lessEqW.
  destruct (msb_spec a Ha) as [-> Hma]. destruct (msb_spec b Hb) as [-> Hmb].
  rewrite !rem_spec by assumption.
  pose proof UintSize_ge8. pose proof pow_UintSize_split as Hsplit.
  assert (Hp : 0 < 2 ^ (UintSize - 1)) by (apply Z.pow_pos_nonneg; lia).
  pose proof (Z.div_mod a _ (Z.neq_sym _ _ (Z.lt_neq _ _ Hp))) as Hda.
  pose proof (Z.div_mod b _ (Z.neq_sym _ _ (Z.lt_neq _ _ Hp))) as Hdb.
  pose proof (Z.mod_pos_bound a _ Hp) as Hra.
  pose proof (Z.mod_pos_bound b _ Hp) as Hrb.
  set (ma := a / 2 ^ (UintSize - 1)) in *. set (mb := b / 2 ^ (UintSize - 1)) in *.
  set (ra := a mod 2 ^ (UintSize - 1)) in *. set (rb := b mod 2 ^ (UintSize - 1)) in *.
  assert (Hless : Z.land (Z.shiftr (wrap (wrap (ra - rb) - 1)) (UintSize - 1)) 1
                  = if ra <=? rb then 1 else 0).
  { unfold wrap. rewrite Zminus_mod_idemp_l.
    destruct (Z.leb_spec ra rb).
    - rewrite <- (Z_mod_plus_full _ 1), Z.mod_small by lia.
      rewrite Z.shiftr_div_pow2 by lia.
      replace ((ra - rb - 1 + 1 * 2 ^ UintSize) / 2 ^ (UintSize - 1)) with 1; [reflexivity |].
      apply Z.div_unique with (r := ra - rb - 1 + 2 ^ (UintSize - 1)); lia.
    - rewrite Z.mod_small by lia. rewrite Z.shiftr_div_pow2 by lia.
      rewrite Z.div_small by lia. reflexivity. }
  rewrite Hless.
  assert (Hbit : is_uint (if ra <=? rb then 1 else 0)).
  { apply is_bit_is_uint. destruct (ra <=? rb); [right | left]; reflexivity. }
  assert (Hmbu : is_uint mb) by (apply is_bit_is_uint; exact Hmb).
  destruct Hma as [Hma | Hma], Hmb as [Hmb | Hmb]; rewrite Hma, Hmb in *; cbn [Z.lxor Z.land Pos.land Pos.lxor];
    first [rewrite selectW_0 by assumption | rewrite selectW_1 by assumption];
    destruct (Z.leb_spec ra rb); destruct (Z.leb_spec a b); lia.
Qed.

Lemma lessW_spec a b : is_uint a -> is_uint b ->
  lessW a b = if a <? b then 1 else 0.
Proof.
  intros Ha Hb. unfold lessW. rewrite lessEqW_spec by assumption.
  destruct (Z.leb_spec b a), (Z.ltb_spec a b); try lia; reflexivity.
Qed.

Lemma addW_spec a b c : is_uint a -> is_uint b -> is_bit c ->
  addW a b c = ((a + b + c) mod 2 ^ UintSize, (a + b + c) / 2 ^ UintSize).
Proof.
  intros Ha Hb Hc. unfold addW.
  pose proof pow_UintSize_pos as Hp. pose proof pow_UintSize_ge256 as Hp'.
  rewrite !lessW_spec by (try apply wrap_is_uint; assumption).
  unfold wrap. rewrite Zplus_mod_idemp_r, Z.add_assoc.
  f_equal.
  destruct Ha as [Ha0 Ha1], Hb as [Hb0 Hb1].
  assert (Hbc : b + c < 2 ^ UintSize \/ (b = 2 ^ UintSize - 1 /\ c = 1))
    by (destruct Hc; lia).
  destruct Hbc as [Hbc | [-> ->]].
  - rewrite (Z.mod_small (b + c)) by (destruct Hc; lia).
    destruct (Z.ltb_spec (b + c) b); [destruct Hc; lia |].
    rewrite Z.lor_0_r.
    destruct (Z.lt_ge_cases (a + b + c) (2 ^ UintSize)).
    + rewrite Z.mod_small, Z.div_small by (destruct Hc; lia).
      destruct (Z.ltb_spec (a + b + c) a); [destruct Hc; lia | reflexivity].
    + assert (Hq : (a + b + c) / 2 ^ UintSize = 1).
      { symmetry. apply Z.div_unique with (r := a + b + c - 2 ^ UintSize); lia. }
      rewrite Hq, Z.mod_eq, Hq by lia.
      destruct (Z.ltb_spec (a + b + c - 2 ^ UintSize * 1) a); [reflexivity | lia].
  - replace (2 ^ UintSize - 1 + 1) with (1 * 2 ^ UintSize) by lia.
    rewrite Z_mod_mult.
    replace (a + (2 ^ UintSize - 1) + 1) with (a + 1 * 2 ^ UintSize) by lia.
    rewrite Z_mod_plus_full, Z_div_plus_full, Z.mod_small, Z.div_small by lia.
    destruct (Z.ltb_spec a a); [lia |].
    destruct (Z.ltb_spec 0 (2 ^ UintSize - 1)); [reflexivity | lia].
Qed.

Lemma subW_spec a b c : is_uint a -> is_uint b -> is_bit c ->
  subW a b c = ((a - b - c) mod 2 ^ UintSize, if a - b - c <? 0 then 1 else 0).
Proof.
  intros Ha Hb Hc. unfold subW.
  pose proof pow_UintSize_pos as Hp. pose proof pow_UintSize_ge256 as Hp'.
  rewrite !lessW_spec by (try apply wrap_is_uint; assumption).
  unfold wrap. rewrite Zminus_mod_idemp_r.
  replace (a - (b + c)) with (a - b - c) by lia.
  f_equal.
  destruct Ha as [Ha0 Ha1], Hb as [Hb0 Hb1].
  assert (Hbc : b + c < 2 ^ UintSize \/ (b = 2 ^ UintSize - 1 /\ c = 1))
    by (destruct Hc; lia).
  destruct Hbc as [Hbc | [-> ->]].
  - rewrite (Z.mod_small (b + c)) by (destruct Hc; lia).
    destruct (Z.ltb_spec (b + c) b); [destruct Hc; lia |].
    rewrite Z.lor_0_r.
    destruct (Z.ltb_spec (a - b - c) 0).
    + rewrite <- (Z_mod_plus_full _ 1), Z.mod_small by (destruct Hc; lia).
      destruct (Z.ltb_spec a (a - b - c + 1 * 2 ^ UintSize)); [reflexivity | destruct Hc; lia].
    + rewrite Z.mod_small by (destruct Hc; lia).
      destruct (Z.ltb_spec a (a - b - c)); [destruct Hc; lia | reflexivity].
  - replace (2 ^ UintSize - 1 + 1) with (1 * 2 ^ UintSize) by lia.
    rewrite Z_mod_mult.
    replace (a - (2 ^ UintSize - 1) - 1) with (a + (-1) * 2 ^ UintSize) by lia.
    rewrite Z_mod_plus_full, Z.mod_small by lia.
    destruct (Z.ltb_spec a a); [lia |].
    destruct (Z.ltb_spec 0 (2 ^ UintSize - 1)); [| lia].
    destruct (Z.ltb_spec (a + -1 * 2 ^ UintSize) 0); [reflexivity | lia].
Qed.

End WordFacts.

(** ** Addition, subtraction, selection *)

Section SubtleFacts.
Context `{Platform}.

Lemma modulus_pos n : 0 < modulus n.
Proof. apply Z.pow_pos_nonneg; pose proof UintSize_ge8; lia. Qed.

Lemma modulus_S n : modulus (S n) = 2 ^ UintSize * modulus n.
Proof.
  unfold modulus. pose proof UintSize_ge8.
  rewrite <- Z.pow_add_r by lia. f_equal. lia.
Qed.

Lemma modulus_0 : modulus 0 = 1.
Proof. unfold modulus. rewrite Z.mul_0_r. reflexivity. Qed.

Lemma value_bound z : wf z -> 0 <= value z < modulus (length z).
Proof.
  induction 1 as [| w z [Hw0 Hw1] _ IH]; cbn [value length].
  - rewrite modulus_0. lia.
  - rewrite modulus_S. pose proof pow_UintSize_pos. nia.
Qed.

Lemma wf_make n : wf (make n).
Proof.
  apply Forall_forall. intros x Hx. apply list_elem_of_In, repeat_spec in Hx.
  subst x. apply is_bit_is_uint. left; reflexivity.
Qed.

Lemma length_make n : length (make n) = Z.to_nat n.
Proof. apply repeat_length. Qed.

Lemma len_make n : 0 <= n -> len (make n) = n.
Proof. intros. unfold len. rewrite length_make. lia. Qed.

Lemma value_make n : value (make n) = 0.
Proof.
  unfold make. induction (Z.to_nat n) as [| k IH]; cbn [repeat value]; [reflexivity |].
  rewrite IH. lia.
Qed.

Lemma len_eqb_false {A B} (x : list A) (y : list B) :
  length x = length y -> negb (len x =? len y) = false.
Proof. intros E. unfold len. rewrite E, Z.eqb_refl. reflexivity. Qed.

Lemma carry_bit a b c : is_uint a -> is_uint b -> is_bit c ->
  is_bit ((a + b + c) / 2 ^ UintSize).
Proof.
  intros [? ?] [? ?] Hc. pose proof pow_UintSize_pos.
  assert (0 <= (a + b + c) / 2 ^ UintSize < 2).
  { split; [apply Z.div_pos | apply Z.div_lt_upper_bound]; destruct Hc; lia. }
  unfold is_bit. lia.
Qed.

Lemma Add_loop_spec x : forall y c,
  wf x -> wf y -> length x = length y -> is_bit c ->
  exists z c', Add_loop x y c = (z, c') /\ wf z /\ length z = length x /\ is_bit c'
    /\ value z + modulus (length x) * c' = value x + value y + c.
Proof.
  induction x as [| a x IH]; intros [| b y] c Hx Hy Hlen Hc; try discriminate.
  - exists [], c. cbn. rewrite modulus_0. repeat split; [constructor | assumption | lia].
  - inversion Hx as [| ? ? Ha Hx']; inversion Hy as [| ? ? Hb Hy']; subst.
    cbn [Add_loop]. rewrite addW_spec by assumption.
    destruct (IH y ((a + b + c) / 2 ^ UintSize) Hx' Hy' ltac:(cbn in Hlen; lia)
                (carry_bit a b c Ha Hb Hc)) as (z & c' & -> & Hz & Hlz & Hc' & Hv).
    exists ((a + b + c) mod 2 ^ UintSize :: z), c'.
    pose proof pow_UintSize_pos as Hp.
    repeat split.
    + constructor; [apply Z.mod_pos_bound; lia | assumption].
    + cbn. lia.
    + assumption.
    + cbn [value length]. rewrite modulus_S.
      pose proof (Z_div_mod_eq_full (a + b + c) (2 ^ UintSize)) as Hdm.
      apply (f_equal (Z.mul (2 ^ UintSize))) in Hv. lia.
Qed.

Lemma Sub_loop_spec x : forall y c,
  wf x -> wf y -> length x = length y -> is_bit c ->
  exists z c', Sub_loop x y c = (z, c') /\ wf z /\ length z = length x /\ is_bit c'
    /\ value z - modulus (length x) * c' = value x - value y - c.
Proof.
  induction x as [| a x IH]; intros [| b y] c Hx Hy Hlen Hc; try discriminate.
  - exists [], c. cbn. rewrite modulus_0. repeat split; [constructor | assumption | lia].
  - inversion Hx as [| ? ? Ha Hx']; inversion Hy as [| ? ? Hb Hy']; subst.
    cbn [Sub_loop]. rewrite subW_spec by assumption.
    assert (Hbit : is_bit (if a - b - c <? 0 then 1 else 0))
      by (destruct (a - b - c <? 0); [right | left]; reflexivity).
    destruct (IH y _ Hx' Hy' ltac:(cbn in Hlen; lia) Hbit)
      as (z & c' & -> & Hz & Hlz & Hc' & Hv).
    exists ((a - b - c) mod 2 ^ UintSize :: z), c'.
    pose proof pow_UintSize_pos as Hp.
    repeat split.
    + constructor; [apply Z.mod_pos_bound; lia | assumption].
    + cbn. lia.
    + assumption.
    + cbn [value length]. rewrite modulus_S.
      assert (Hm : (a - b - c) mod 2 ^ UintSize
                   = a - b - c + 2 ^ UintSize * (if a - b - c <? 0 then 1 else 0)).
      { destruct Ha, Hb. destruct (Z.ltb_spec (a - b - c) 0).
        - rewrite <- (Z_mod_plus_full _ 1), Z.mod_small by (destruct Hc; lia). lia.
        - rewrite Z.mod_small by (destruct Hc; lia). lia. }
      rewrite Hm. apply (f_equal (Z.mul (2 ^ UintSize))) in Hv. lia.
Qed.

(** [Add] on equal-length operands: the sum modulo the modulus, and the carry. *)
Lemma Add_spec z x y :
  wf x -> wf y -> length x = length y -> length x = length z ->
  exists r c, Add z x y = Ok (r, c) /\ wf r /\ length r = length x /\ is_bit c
    /\ value r + modulus (length x) * c = value x + value y.
Proof.
  intros Hx Hy Hxy Hxz. unfold Add.
  rewrite !len_eqb_false by assumption. cbn [orb].
  destruct (Add_loop_spec x y 0 Hx Hy Hxy (or_introl eq_refl))
    as (r & c & -> & Hr & Hlr & Hc & Hv).
  exists r, c. rewrite Z.add_0_r in Hv. auto.
Qed.

(** [Sub] on equal-length operands: the difference modulo the modulus, and the
    borrow. *)
Lemma Sub_spec z x y :
  wf x -> wf y -> length x = length y -> length x = length z ->
  exists r c, Sub z x y = Ok (r, c) /\ wf r /\ length r = length x /\ is_bit c
    /\ value r - modulus (length x) * c = value x - value y.
Proof.
  intros Hx Hy Hxy Hxz. unfold Sub.
  rewrite !len_eqb_false by assumption. cbn [orb].
  destruct (Sub_loop_spec x y 0 Hx Hy Hxy (or_introl eq_refl))
    as (r & c & -> & Hr & Hlr & Hc & Hv).
  exists r, c. rewrite Z.sub_0_r in Hv. auto.
Qed.

Lemma Select_loop_1 x : forall y, wf x -> length x = length y -> Select_loop 1 x y = x.
Proof.
  induction x as [| a x IH]; intros [| b y] Hx Hlen; try discriminate; [reflexivity |].
  inversion Hx; subst. cbn [Select_loop]. rewrite selectW_1 by assumption.
  f_equal. apply IH; [assumption | cbn in Hlen; lia].
Qed.

Lemma Select_loop_0 x : forall y, wf y -> length x = length y -> Select_loop 0 x y = y.
Proof.
  induction x as [| a x IH]; intros [| b y] Hy Hlen; try discriminate; [reflexivity |].
  inversion Hy; subst. cbn [Select_loop]. rewrite selectW_0 by assumption.
  f_equal. apply IH; [assumption | cbn in Hlen; lia].
Qed.

(** [AddMod] on values, the modulus [n] not being the receiver, whenever the
    second summand is below [n]: no panic, and one subtraction of [n] at
    most. *)
Lemma AddMod_general z x y n :
  wf x -> wf y -> wf n ->
  length x = length y -> length x = length z -> length x = length n ->
  value y < value n ->
  exists r, AddMod z x y n = Ok r /\ wf r /\ length r = length x
    /\ value r = if value x + value y <? value n
                 then value x + value y
                 else value x + value y - value n.
Proof.
  intros Hx Hy Hn Hxy Hxz Hxn Hlt. unfold AddMod.
  destruct (Add_spec z x y Hx Hy Hxy Hxz) as (r & c1 & -> & Hr & Hlr & Hc1 & Hv1).
  cbn [mbind result_bind].
  destruct (Sub_spec (make (len x)) r n Hr Hn ltac:(lia)
              ltac:(rewrite length_make; unfold len; lia))
    as (t & c2 & -> & Ht & Hlt' & Hc2 & Hv2).
  cbn [mbind result_bind].
  pose proof (value_bound x Hx) as Bx. pose proof (value_bound y Hy) as By.
  pose proof (value_bound n Hn) as Bn. pose proof (value_bound r Hr) as Br.
  pose proof (value_bound t Ht) as Bt.
  rewrite Hlr in *. rewrite Hlt' in Bt. rewrite <- Hxy in By. rewrite <- Hxn in Bn.
  set (M := modulus (length x)) in *.
  unfold Select. rewrite !len_eqb_false by lia. cbn [orb].
  destruct Hc1 as [-> | ->], Hc2 as [-> | ->]; cbn [Z.ldiff Z.lxor Z.eqb Pos.eqb Pos.ldiff Pos.lxor].
  - (* no carry, no borrow *)
    rewrite Select_loop_0 by (assumption || lia).
    exists t. split; [reflexivity |]. split; [assumption |]. split; [lia |].
    destruct (Z.ltb_spec (value x + value y) (value n)); lia.
  - (* no carry, borrow *)
    rewrite Select_loop_1 by (assumption || lia).
    exists r. split; [reflexivity |]. split; [assumption |]. split; [lia |].
    destruct (Z.ltb_spec (value x + value y) (value n)); lia.
  - (* carry without borrow: excluded by [value y < value n] *)
    exfalso. lia.
  - (* carry and borrow *)
    rewrite Select_loop_0 by (assumption || lia).
    exists t. split; [reflexivity |]. split; [assumption |]. split; [lia |].
    destruct (Z.ltb_spec (value x + value y) (value n)); lia.
Qed.

End SubtleFacts.

(** ** Comparison *)

Section LessFacts.
Context `{Platform}.

Lemma value_app a b : value (a ++ b) = value a + modulus (length a) * value b.
Proof.
  induction a as [| w a IH]; cbn [app value length].
  - rewrite modulus_0. lia.
  - rewrite IH, modulus_S. lia.
Qed.

Lemma wf_app a b : wf (a ++ b) <-> wf a /\ wf b.
Proof. apply Forall_app. Qed.

Lemma wf_lookup z i w : wf z -> z !! i = Some w -> is_uint w.
Proof. intros Hz Hi. exact (proj1 (Forall_lookup _ _) Hz i w Hi). Qed.

Lemma land_1_wnot_1 : Z.land 1 (wnot 1) = 0.
Proof.
  unfold wnot, wrap. change (Z.lnot 1) with (-2).
  pose proof pow_UintSize_ge256.
  rewrite <- (Z_mod_plus_full _ 1), Z.mod_small by lia.
  rewrite Z.land_comm, land_1.
  pose proof pow_UintSize_split as ->.
  replace (-2 + 1 * (2 * 2 ^ (UintSize - 1))) with ((2 ^ (UintSize - 1) - 1) * 2) by lia.
  apply Z_mod_mult.
Qed.

Lemma land_1_wnot_0 : Z.land 1 (wnot 0) = 1.
Proof. rewrite wnot_0, Z.land_comm. apply land_ones_uint, is_bit_is_uint. right; reflexivity. Qed.

Lemma Less_loop_decided n z y l : is_bit l -> Less_loop n z y 0 l = l.
Proof.
  intros Hl. induction n as [| i IH]; cbn [Less_loop]; [reflexivity |].
  rewrite !Z.land_0_l, selectW_0 by (apply is_bit_is_uint, Hl). exact IH.
Qed.

Lemma Less_loop_undecided n z y :
  wf z -> wf y -> (n <= length z)%nat -> length z = length y ->
  Less_loop n z y 1 0 = if value (take n z) <? value (take n y) then 1 else 0.
Proof.
  intros Hz Hy. induction n as [| i IH]; intros Hn Hlen; cbn [Less_loop].
  - rewrite !take_0. reflexivity.
  - destruct (lookup_lt_is_Some_2 z i ltac:(lia)) as [zi Hzi].
    destruct (lookup_lt_is_Some_2 y i ltac:(lia)) as [yi Hyi].
    rewrite !nth_lookup, Hzi, Hyi. cbn [default from_option id].
    rewrite (take_S_r _ _ _ Hzi), (take_S_r _ _ _ Hyi), !value_app.
    rewrite !length_take, !Nat.min_l by lia. cbn [value]. rewrite !Z.mul_0_r, !Z.add_0_r.
    pose proof (wf_lookup _ _ _ Hz Hzi) as Uz. pose proof (wf_lookup _ _ _ Hy Hyi) as Uy.
    rewrite !lessW_spec by assumption.
    assert (Bz : 0 <= value (take i z) < modulus i).
    { pose proof (value_bound (take i z) (Forall_take _ _ _ Hz)) as B.
      rewrite length_take, Nat.min_l in B by lia. exact B. }
    assert (By : 0 <= value (take i y) < modulus i).
    { pose proof (value_bound (take i y) (Forall_take _ _ _ Hy)) as B.
      rewrite length_take, Nat.min_l in B by lia. exact B. }
    pose proof (modulus_pos i) as HM.
    assert (U0 : is_uint 0) by (apply is_bit_is_uint; left; reflexivity).
    assert (U1 : is_uint 1) by (apply is_bit_is_uint; right; reflexivity).
    destruct (Z.ltb_spec zi yi), (Z.ltb_spec yi zi); try lia;
      rewrite ?Z.lor_0_r, ?Z.lor_0_l, ?Z.land_0_r; change (Z.land 1 1) with 1.
    + rewrite selectW_1, land_1_wnot_1 by assumption.
      rewrite Less_loop_decided by (right; reflexivity).
      destruct (Z.ltb_spec (value (take i z) + modulus i * zi)
                           (value (take i y) + modulus i * yi)); [reflexivity | nia].
    + rewrite selectW_1, land_1_wnot_1 by assumption.
      rewrite Less_loop_decided by (left; reflexivity).
      destruct (Z.ltb_spec (value (take i z) + modulus i * zi)
                           (value (take i y) + modulus i * yi)); [nia | reflexivity].
    + rewrite selectW_0, land_1_wnot_0 by assumption.
      rewrite IH by lia. assert (zi = yi) as -> by lia.
      destruct (Z.ltb_spec (value (take i z)) (value (take i y))),
               (Z.ltb_spec (value (take i z) + modulus i * yi)
                           (value (take i y) + modulus i * yi)); lia.
Qed.

(** [Less] on equal-length operands compares the represented integers. *)
Lemma Less_spec z y :
  wf z -> wf y -> length z = length y ->
  Less z y = Ok (if value z <? value y then 1 else 0).
Proof.
  intros Hz Hy Hlen. unfold Less. rewrite len_eqb_false by assumption.
  cbn [negb]. rewrite Less_loop_undecided by (assumption || lia).
  rewrite take_ge by lia. rewrite (take_ge y) by lia. reflexivity.
Qed.

End LessFacts.

(** ** Byte conversions *)

Section BigFacts.

Lemma big_SetBytes_acc b : forall acc,
  fold_left (fun acc b => acc * 256 + b) b acc
  = acc * 256 ^ len b + big.SetBytes b.
Proof.
  unfold big.SetBytes, len.
  induction b as [| x b IH]; intros acc; cbn [fold_left length].
  - change (Z.of_nat 0) with 0. rewrite Z.pow_0_r. lia.
  - rewrite IH, (IH (0 * 256 + x)), Nat2Z.inj_succ, Z.pow_succ_r by lia. lia.
Qed.

Lemma big_SetBytes_cons x b : big.SetBytes (x :: b) = x * 256 ^ len b + big.SetBytes b.
Proof. unfold big.SetBytes at 1. cbn [fold_left]. rewrite big_SetBytes_acc. lia. Qed.

Lemma big_SetBytes_app a b :
  big.SetBytes (a ++ b) = big.SetBytes a * 256 ^ len b + big.SetBytes b.
Proof. unfold big.SetBytes at 1. rewrite fold_left_app. apply big_SetBytes_acc. Qed.

Lemma big_SetBytes_bound b : bytes_ok b -> 0 <= big.SetBytes b < 256 ^ len b.
Proof.
  induction 1 as [| x b [Hx0 Hx1] _ IH].
  - change (big.SetBytes []) with 0. change (len []) with 0. rewrite Z.pow_0_r. lia.
  - rewrite big_SetBytes_cons. unfold len in *. cbn [length].
    rewrite Nat2Z.inj_succ, Z.pow_succ_r by lia. nia.
Qed.

Lemma big_SetBytes_zeros k : big.SetBytes (repeat 0 k) = 0.
Proof.
  induction k as [| k IH]; [reflexivity |].
  cbn [repeat]. rewrite big_SetBytes_cons, IH. lia.
Qed.

Lemma length_be_bytes n x : length (big.be_bytes n x) = n.
Proof. unfold big.be_bytes. rewrite length_map, length_rev, length_seq. reflexivity. Qed.

Lemma bytes_ok_be_bytes n x : bytes_ok (big.be_bytes n x).
Proof.
  unfold big.be_bytes, bytes_ok. apply Forall_map, Forall_forall. intros k _.
  cbn. apply Z.mod_pos_bound. lia.
Qed.

Lemma big_SetBytes_inj a : forall b,
  bytes_ok a -> bytes_ok b -> length a = length b ->
  big.SetBytes a = big.SetBytes b -> a = b.
Proof.
  induction a as [| x a IH]; intros [| y b] Ha Hb Hlen Heq; try discriminate; [reflexivity |].
  inversion Ha as [| ? ? [Hx0 Hx1] Ha']; inversion Hb as [| ? ? [Hy0 Hy1] Hb']; subst.
  rewrite !big_SetBytes_cons in Heq.
  pose proof (big_SetBytes_bound a Ha') as Ba. pose proof (big_SetBytes_bound b Hb') as Bb.
  assert (Hl : len a = len b) by (unfold len; cbn [length] in Hlen; lia).
  rewrite Hl in *.
  assert (x = y) by nia. subst y.
  f_equal. apply IH; [assumption | assumption | cbn [length] in Hlen; lia | lia].
Qed.

End BigFacts.

Section SetBytesFacts.
Context `{Platform}.

Lemma UintSize_bytes : UintSize = 8 * (UintSize / 8).
Proof. destruct UintSize_cases as [-> | ->]; reflexivity. Qed.

Lemma UintSize_quot : UintSize ÷ 8 = UintSize / 8.
Proof. destruct UintSize_cases as [-> | ->]; reflexivity. Qed.

Lemma wordBytes_pos : 1 <= UintSize / 8.
Proof. destruct UintSize_cases as [-> | ->]; vm_compute; discriminate. Qed.

Lemma pow256 e : 0 <= e -> 256 ^ e = 2 ^ (8 * e).
Proof. intros. rewrite Z.pow_mul_r by lia. reflexivity. Qed.

Lemma modulus_256 k : modulus k = 256 ^ (UintSize / 8 * Z.of_nat k).
Proof.
  unfold modulus. pose proof wordBytes_pos.
  rewrite pow256 by lia. f_equal. rewrite UintSize_bytes at 1. lia.
Qed.

Lemma zeros_snoc k (l : list Z) : repeat 0 (S k) ++ l = repeat 0 k ++ 0 :: l.
Proof. cbn [repeat]. rewrite repeat_cons, <- app_assoc. reflexivity. Qed.

Lemma value_zeros k : value (repeat 0 k) = 0.
Proof. induction k as [| k IH]; cbn [repeat value]; [| rewrite IH]; lia. Qed.

Lemma wf_zeros k : wf (repeat 0 k).
Proof.
  induction k as [| k IH]; cbn [repeat]; constructor; [| exact IH].
  apply is_bit_is_uint. left; reflexivity.
Qed.

Lemma index_app_mid lo (zi : Z) hi i :
  i = len lo -> index (lo ++ zi :: hi) i = Ok zi.
Proof.
  intros ->. unfold index, len. rewrite length_app. cbn [length].
  destruct (Z.leb_spec 0 (Z.of_nat (length lo))); [| lia].
  destruct (Z.ltb_spec (Z.of_nat (length lo)) (Z.of_nat (length lo + S (length hi)))); [| lia].
  cbn [andb]. rewrite Nat2Z.id, list_lookup_middle by reflexivity. reflexivity.
Qed.

Lemma assign_app_mid lo (zi v : Z) hi i :
  i = len lo -> assign (lo ++ zi :: hi) i v = Ok (lo ++ v :: hi).
Proof.
  intros ->. unfold assign, len. rewrite length_app. cbn [length].
  destruct (Z.leb_spec 0 (Z.of_nat (length lo))); [| lia].
  destruct (Z.ltb_spec (Z.of_nat (length lo)) (Z.of_nat (length lo + S (length hi)))); [| lia].
  cbn [andb]. rewrite Nat2Z.id.
  rewrite insert_app_r_alt by lia. rewrite Nat.sub_diag. reflexivity.
Qed.

(** Or-ing a byte into the free position just below bit [s] of a word. *)
Lemma lor_byte zi x s :
  is_uint zi -> is_byte x -> 8 <= s <= UintSize -> zi mod 2 ^ s = 0 ->
  Z.lor zi (wrap (Z.shiftl x (s - 8))) = zi + x * 2 ^ (s - 8)
  /\ is_uint (zi + x * 2 ^ (s - 8))
  /\ (zi + x * 2 ^ (s - 8)) mod 2 ^ (s - 8) = 0.
Proof.
  intros [Hz0 Hz1] [Hx0 Hx1] Hs Hmod.
  assert (Hp8 : 0 < 2 ^ (s - 8)) by (apply Z.pow_pos_nonneg; lia).
  assert (Hps : 2 ^ s = 256 * 2 ^ (s - 8)).
  { replace s with (8 + (s - 8)) at 1 by lia. rewrite Z.pow_add_r by lia. reflexivity. }
  assert (HpW : 2 ^ UintSize = 2 ^ s * 2 ^ (UintSize - s)).
  { rewrite <- Z.pow_add_r by lia. f_equal. lia. }
  assert (HpWs : 0 < 2 ^ (UintSize - s)) by (apply Z.pow_pos_nonneg; lia).
  pose proof (Z_div_mod_eq_full zi (2 ^ s)) as Hq. rewrite Hmod, Z.add_0_r in Hq.
  set (q := zi / 2 ^ s) in *.
  assert (Hqb : 0 <= q < 2 ^ (UintSize - s)) by nia.
  assert (Hsmall : is_uint (zi + x * 2 ^ (s - 8))) by (unfold is_uint; nia).
  rewrite Z.shiftl_mul_pow2 by lia.
  rewrite wrap_small by (unfold is_uint; nia).
  split; [| split; [exact Hsmall |]].
  - rewrite <- Z.lxor_lor, <- Z.add_nocarry_lxor; try reflexivity;
      apply Z.bits_inj'; intros n Hn; rewrite Z.land_spec, Z.bits_0.
    all: destruct (Z.lt_ge_cases n s).
    all: try (rewrite Hq, (Z.mul_comm (2 ^ s)), Z.mul_pow2_bits_low by lia; reflexivity).
    all: rewrite Z.mul_pow2_bits by lia;
      rewrite <- (Z.mod_small x (2 ^ 8)) by (change (2 ^ 8) with 256; lia);
      rewrite Z.mod_pow2_bits_high by lia; apply andb_false_r.
  - rewrite Hq, Hps.
    replace (256 * 2 ^ (s - 8) * q + x * 2 ^ (s - 8)) with ((256 * q + x) * 2 ^ (s - 8)) by lia.
    apply Z_mod_mult.
Qed.

Lemma value_mid k zi hi :
  value (repeat 0 k ++ zi :: hi) = modulus k * (zi + 2 ^ UintSize * value hi).
Proof. rewrite value_app, value_zeros, repeat_length. cbn [value]. lia. Qed.

Lemma SetBytes_loop_spec buf : forall k zi hi t,
  is_uint zi -> wf hi -> bytes_ok buf ->
  1 <= t <= UintSize / 8 -> zi mod 2 ^ (8 * t) = 0 ->
  len buf <= UintSize / 8 * Z.of_nat k + t ->
  exists z', SetBytes_loop buf (repeat 0 k ++ zi :: hi) (Z.of_nat k) (8 * t) = Ok z'
    /\ wf z' /\ length z' = (k + S (length hi))%nat
    /\ value z' = value (repeat 0 k ++ zi :: hi)
                  + big.SetBytes buf * 256 ^ (UintSize / 8 * Z.of_nat k + t - len buf).
Proof.
  pose proof wordBytes_pos as Hwb. pose proof UintSize_bytes as HW8.
  induction buf as [| x buf IH]; intros k zi hi t Hzi Hhi Hbuf Ht Hmod Hcap.
  - exists (repeat 0 k ++ zi :: hi). cbn [SetBytes_loop].
    split; [reflexivity |]. split; [apply wf_app; split; [apply wf_zeros | constructor; assumption] |].
    split; [rewrite length_app, repeat_length; reflexivity |].
    change (big.SetBytes []) with 0. lia.
  - inversion Hbuf as [| ? ? Hx Hbuf']; subst.
    assert (Hlen : len (x :: buf) = len buf + 1) by (unfold len; cbn [length]; lia).
    assert (Hlb : 0 <= len buf) by (unfold len; lia).
    rewrite Hlen in *.
    cbn [SetBytes_loop].
    assert (Hs : wrap (8 * t - 8) = 8 * (t - 1)).
    { replace (8 * (t - 1)) with (8 * t - 8) by lia.
      apply wrap_small. pose proof pow_UintSize_ge256.
      unfold is_uint. split; [lia |].
      apply Z.lt_trans with UintSize; [lia |].
      apply Z.pow_gt_lin_r; lia. }
    rewrite Hs.
    assert (Hk : Z.of_nat k = len (repeat 0 k))
      by (unfold len; rewrite repeat_length; reflexivity).
    rewrite index_app_mid by exact Hk. cbn [mbind result_bind].
    rewrite assign_app_mid by exact Hk. cbn [mbind result_bind].
    destruct (lor_byte zi x (8 * t) Hzi Hx ltac:(lia) Hmod) as (Hlor & Hu & Hm).
    replace (8 * t - 8) with (8 * (t - 1)) in * by lia.
    rewrite Hlor.
    set (zi' := zi + x * 2 ^ (8 * (t - 1))) in *.
    assert (Hval : value (repeat 0 k ++ zi' :: hi)
                   = value (repeat 0 k ++ zi :: hi)
                     + x * 256 ^ (UintSize / 8 * Z.of_nat k + t - 1)).
    { rewrite !value_mid. unfold zi'. rewrite modulus_256.
      rewrite <- pow256 by lia.
      replace (UintSize / 8 * Z.of_nat k + t - 1)
        with (UintSize / 8 * Z.of_nat k + (t - 1)) by lia.
      rewrite (Z.pow_add_r 256) by lia. lia. }
    assert (Hstep : big.SetBytes (x :: buf)
                      * 256 ^ (UintSize / 8 * Z.of_nat k + t - (len buf + 1))
                    = x * 256 ^ (UintSize / 8 * Z.of_nat k + t - 1)
                      + big.SetBytes buf
                        * 256 ^ (UintSize / 8 * Z.of_nat k + t - 1 - len buf)).
    { rewrite big_SetBytes_cons.
      replace (UintSize / 8 * Z.of_nat k + t - 1)
        with (len buf + (UintSize / 8 * Z.of_nat k + t - (len buf + 1))) at 1 by lia.
      rewrite Z.pow_add_r by lia.
      replace (UintSize / 8 * Z.of_nat k + t - 1 - len buf)
        with (UintSize / 8 * Z.of_nat k + t - (len buf + 1)) by lia. lia. }
    destruct (Z.eqb_spec (8 * (t - 1)) 0) as [Ht1 | Ht1].
    + (* the word is full: move to the next lower word *)
      assert (t = 1) as -> by lia.
      destruct k as [| k].
      * (* that was the lowest word *)
        assert (buf = []) as ->.
        { destruct buf; [reflexivity |]. unfold len in Hcap. cbn [length] in Hcap. lia. }
        cbn [SetBytes_loop repeat app].
        exists (zi' :: hi).
        split; [reflexivity |]. split; [constructor; assumption |].
        split; [reflexivity |].
        change (repeat 0 0 ++ zi' :: hi) with (zi' :: hi) in Hval.
        cbn [repeat app]. rewrite Hstep in *. cbn [repeat app] in Hval.
        change (big.SetBytes []) with 0. lia.
      * rewrite zeros_snoc.
        assert (U0 : is_uint 0) by (apply is_bit_is_uint; left; reflexivity).
        assert (Hhi' : wf (zi' :: hi)) by (constructor; assumption).
        assert (Hcap' : len buf <= UintSize / 8 * Z.of_nat k + UintSize / 8) by lia.
        assert (Ht' : 1 <= UintSize / 8 <= UintSize / 8) by lia.
        destruct (IH k 0 (zi' :: hi) (UintSize / 8) U0 Hhi' Hbuf' Ht' (Zmod_0_l _) Hcap')
          as (z' & Hrun & Hz' & Hlz' & Hv').
        exists z'. split; [| split; [assumption | split; [cbn [length] in *; lia |]]].
        -- rewrite <- Hrun. f_equal; [lia | exact HW8].
        -- rewrite Hv', Hstep, <- zeros_snoc, Hval.
           replace (UintSize / 8 * Z.of_nat k + UintSize / 8 - len buf)
             with (UintSize / 8 * Z.of_nat (S k) + 1 - 1 - len buf) by lia.
           lia.
    + assert (Ht' : 1 <= t - 1 <= UintSize / 8) by lia.
      assert (Hcap' : len buf <= UintSize / 8 * Z.of_nat k + (t - 1)) by lia.
      destruct (IH k zi' hi (t - 1) Hu Hhi Hbuf' Ht' Hm Hcap') as (z' & -> & Hz' & Hlz' & Hv').
      exists z'. split; [reflexivity |]. split; [assumption |]. split; [assumption |].
      rewrite Hv', Hstep, Hval.
      replace (UintSize / 8 * Z.of_nat k + (t - 1) - len buf)
        with (UintSize / 8 * Z.of_nat k + t - 1 - len buf) by lia.
      lia.
Qed.

Lemma SetZero_zeros z : SetZero z = repeat 0 (length z).
Proof. unfold SetZero. induction z; cbn; congruence. Qed.

(** [SetBytes] stores [buf] in the most significant bytes of [z]: the value is
    that of [buf] followed by zero bytes up to the width. *)
Lemma SetBytes_spec z buf :
  bytes_ok buf -> len buf <= width z ->
  exists z', SetBytes z buf = Ok z' /\ wf z' /\ length z' = length z
    /\ value z' = big.SetBytes buf * 256 ^ (width z - len buf).
Proof.
  intros Hbuf Hcap. unfold SetBytes, width in *. rewrite SetZero_zeros.
  pose proof wordBytes_pos as Hwb.
  unfold len at 1. rewrite repeat_length.
  destruct (length z) as [| k] eqn:Hk.
  - assert (buf = []) as ->.
    { destruct buf; [reflexivity |]. unfold len in Hcap. rewrite Hk in Hcap.
      cbn [length] in Hcap. lia. }
    exists []. cbn. split; [reflexivity |]. split; [constructor |]. split; reflexivity.
  - rewrite <- (app_nil_r (repeat 0 (S k))), zeros_snoc.
    assert (U0 : is_uint 0) by (apply is_bit_is_uint; left; reflexivity).
    assert (Hcap' : len buf <= UintSize / 8 * Z.of_nat k + UintSize / 8)
      by (unfold len in *; rewrite Hk in Hcap; lia).
    assert (Ht' : 1 <= UintSize / 8 <= UintSize / 8) by lia.
    destruct (SetBytes_loop_spec buf k 0 [] (UintSize / 8) U0 (Forall_nil_2 _) Hbuf Ht'
                (Zmod_0_l _) Hcap') as (z' & Hrun & Hz' & Hlz' & Hv').
    exists z'. split; [| split; [assumption | split; [cbn [length] in Hlz'; lia |]]].
    + rewrite <- Hrun. f_equal; [lia | exact UintSize_bytes].
    + rewrite Hv', value_mid. cbn [value]. unfold len at 2. rewrite Hk.
      replace (UintSize / 8 * Z.of_nat k + UintSize / 8 - len buf)
        with (Z.of_nat (S k) * (UintSize / 8) - len buf) by lia.
      lia.
Qed.

End SetBytesFacts.

Section BytesFacts.
Context `{Platform}.

Lemma length_byte_shifts : length byte_shifts = Z.to_nat (UintSize / 8).
Proof. unfold byte_shifts. rewrite length_map, length_seq, UintSize_quot. reflexivity. Qed.

Lemma for_range_bytes_inner x shifts : forall pre done,
  (length shifts <= length pre)%nat ->
  for_range shifts (fun '(r, i) s =>
      r ← assign r i (uint8 (Z.shiftr x s)); Ok (r, i - 1)) (pre ++ done, len pre - 1)
  = Ok (take (length pre - length shifts) pre
          ++ rev (map (fun s => uint8 (Z.shiftr x s)) shifts) ++ done,
        len pre - len shifts - 1).
Proof.
  induction shifts as [| s shifts IH]; intros pre done Hlen.
  - cbn [for_range length map rev app]. rewrite Nat.sub_0_r, take_ge by lia.
    f_equal. f_equal. unfold len. cbn [length]. lia.
  - cbn [length] in Hlen.
    destruct (exists_last (l := pre)) as (pre' & p & ->).
    { intros ->. cbn in Hlen. lia. }
    rewrite length_app in *. cbn [length] in *.
    cbn [for_range]. rewrite <- app_assoc. cbn [app].
    rewrite assign_app_mid by (unfold len; rewrite length_app; cbn [length]; lia).
    cbn [mbind result_bind].
    replace (len (pre' ++ [p]) - 1 - 1) with (len pre' - 1)
      by (unfold len; rewrite length_app; cbn [length]; lia).
    rewrite IH by lia.
    f_equal. f_equal.
    + cbn [map rev]. rewrite <- app_assoc. cbn [app].
      rewrite take_app_le by lia. f_equal. f_equal. lia.
    + unfold len. rewrite length_app. cbn [length]. lia.
Qed.

Lemma for_range_bytes_outer z : forall pre done,
  (Z.to_nat (UintSize / 8) * length z <= length pre)%nat ->
  exists i,
  for_range z (fun '(r, i) x =>
      for_range byte_shifts (fun '(r, i) s =>
        r ← assign r i (uint8 (Z.shiftr x s)); Ok (r, i - 1)) (r, i))
    (pre ++ done, len pre - 1)
  = Ok (take (length pre - Z.to_nat (UintSize / 8) * length z) pre
          ++ rev (flat_map word_bytes z) ++ done, i).
Proof.
  induction z as [| x z IH]; intros pre done Hlen.
  - exists (len pre - 1). cbn [for_range length flat_map rev app].
    rewrite Nat.mul_0_r, Nat.sub_0_r, take_ge by lia. reflexivity.
  - cbn [length] in Hlen. cbn [for_range].
    rewrite for_range_bytes_inner by (rewrite length_byte_shifts; lia).
    cbn [mbind result_bind].
    set (pre1 := take (length pre - length byte_shifts) pre).
    assert (Hl1 : length pre1 = (length pre - Z.to_nat (UintSize / 8))%nat).
    { unfold pre1. rewrite length_take, length_byte_shifts. lia. }
    replace (len pre - len byte_shifts - 1) with (len pre1 - 1)
      by (unfold len; rewrite Hl1, length_byte_shifts; lia).
    destruct (IH pre1 (rev (map (fun s => uint8 (Z.shiftr x s)) byte_shifts) ++ done)
                ltac:(lia)) as (i & ->).
    exists i. f_equal. f_equal.
    cbn [flat_map]. rewrite rev_app_distr, <- app_assoc.
    f_equal. rewrite Hl1. unfold pre1. rewrite take_take, length_byte_shifts. f_equal.
    cbn [length]. lia.
Qed.

Lemma Bytes_eq z : Bytes z = Ok (rev (flat_map word_bytes z)).
Proof.
  unfold Bytes. pose proof wordBytes_pos as Hwb.
  set (r := make (len z * (UintSize ÷ 8))).
  assert (Hr : length r = (Z.to_nat (UintSize / 8) * length z)%nat).
  { unfold r. rewrite length_make, UintSize_quot. unfold len. lia. }
  destruct (for_range_bytes_outer z r [] ltac:(lia)) as (i & Hi).
  rewrite app_nil_r in Hi. rewrite Hi. cbn [mbind result_bind].
  rewrite Hr, Nat.sub_diag, take_0, app_nil_r. reflexivity.
Qed.

Lemma length_word_bytes x : length (word_bytes x) = Z.to_nat (UintSize / 8).
Proof. unfold word_bytes. rewrite length_map. apply length_byte_shifts. Qed.

Lemma length_flat_word_bytes z :
  length (flat_map word_bytes z) = (Z.to_nat (UintSize / 8) * length z)%nat.
Proof.
  induction z as [| x z IH]; cbn [flat_map length]; [lia |].
  rewrite length_app, length_word_bytes, IH. lia.
Qed.

Lemma bytes_ok_word_bytes x : bytes_ok (word_bytes x).
Proof.
  unfold word_bytes, bytes_ok. apply Forall_map, Forall_forall. intros s _.
  unfold uint8, is_byte. cbn. apply Z.mod_pos_bound. lia.
Qed.

Lemma bytes_ok_flat_word_bytes z : bytes_ok (flat_map word_bytes z).
Proof.
  induction z as [| x z IH]; cbn [flat_map]; [constructor |].
  apply Forall_app. split; [apply bytes_ok_word_bytes | exact IH].
Qed.

(** The [n] low bytes of [x], big-endian, read back. *)
Lemma big_SetBytes_be_bytes n x : big.SetBytes (big.be_bytes n x) = x mod 256 ^ Z.of_nat n.
Proof.
  unfold big.be_bytes. induction n as [| n IH].
  - cbn [seq rev map]. change (big.SetBytes []) with 0. rewrite Z.pow_0_r, Z.mod_1_r.
    reflexivity.
  - rewrite seq_S, rev_app_distr. cbn [rev app map plus].
    rewrite big_SetBytes_cons, IH.
    unfold len. rewrite length_map, length_rev, length_seq.
    rewrite Nat2Z.inj_succ, Z.pow_succ_r, (Z.mul_comm 256) by lia.
    assert (0 < 256 ^ Z.of_nat n) by (apply Z.pow_pos_nonneg; lia).
    rewrite Z.rem_mul_r by lia.
    rewrite Z.shiftr_div_pow2, <- pow256 by lia. lia.
Qed.

Lemma word_bytes_be x :
  rev (word_bytes x) = big.be_bytes (Z.to_nat (UintSize / 8)) x.
Proof.
  unfold word_bytes, byte_shifts, big.be_bytes, uint8.
  rewrite UintSize_quot, map_map, <- map_rev. reflexivity.
Qed.

Lemma big_SetBytes_Bytes_words z :
  wf z -> big.SetBytes (rev (flat_map word_bytes z)) = value z.
Proof.
  pose proof wordBytes_pos as Hwb.
  induction 1 as [| x z Hx _ IH]; [reflexivity |].
  cbn [flat_map value]. rewrite rev_app_distr, big_SetBytes_app, IH.
  rewrite word_bytes_be, big_SetBytes_be_bytes.
  unfold len. rewrite length_be_bytes.
  rewrite Z2Nat.id, pow256, <- UintSize_bytes by lia.
  rewrite Z.mod_small by exact Hx. lia.
Qed.

(** [Bytes] returns [width z] bytes whose big-endian value is the value of [z]. *)
Lemma Bytes_spec z :
  wf z ->
  exists b, Bytes z = Ok b /\ bytes_ok b /\ len b = width z /\ big.SetBytes b = value z.
Proof.
  intros Hz. exists (rev (flat_map word_bytes z)). pose proof wordBytes_pos.
  split; [apply Bytes_eq |]. split; [apply Forall_rev, bytes_ok_flat_word_bytes |].
  split; [| apply big_SetBytes_Bytes_words, Hz].
  unfold len, width. rewrite length_rev, length_flat_word_bytes. unfold len. lia.
Qed.

(** [Big] is the represented integer. *)
Lemma Big_value z : wf z -> Big z = Ok (value z).
Proof.
  intros Hz. unfold Big. rewrite Bytes_eq. cbn [mbind result_bind].
  rewrite big_SetBytes_Bytes_words by assumption. reflexivity.
Qed.

End BytesFacts.

(** ** Big integers and sizes *)

Section BigIntFacts.

Lemma shiftr3 x : Z.shiftr x 3 = x / 8.
Proof. rewrite Z.shiftr_div_pow2 by lia. reflexivity. Qed.

Lemma big_BitLen_nonneg x : 0 <= big.BitLen x.
Proof.
  unfold big.BitLen. destruct (x =? 0); [lia |].
  pose proof (Z.log2_nonneg (Z.abs x)). lia.
Qed.

Lemma big_BitLen_bounds x : 0 < x -> 2 ^ (big.BitLen x - 1) <= x < 2 ^ big.BitLen x.
Proof.
  intros Hx. unfold big.BitLen. destruct (Z.eqb_spec x 0); [lia |].
  rewrite Z.abs_eq by lia. pose proof (Z.log2_spec x Hx) as [? ?].
  replace (Z.log2 x + 1 - 1) with (Z.log2 x) by lia.
  replace (Z.log2 x + 1) with (Z.succ (Z.log2 x)) by lia. lia.
Qed.

(** The byte length of a positive order: [256^(nb-1) <= n < 256^nb]. *)
Lemma numBytes_bounds x : 0 < x ->
  let nb := (big.BitLen x + 7) / 8 in
  1 <= nb /\ 256 ^ (nb - 1) <= x < 256 ^ nb.
Proof.
  intros Hx nb. pose proof (big_BitLen_bounds x Hx) as [Hlo Hhi].
  assert (Hb : 1 <= big.BitLen x).
  { unfold big.BitLen. destruct (Z.eqb_spec x 0); [lia |].
    pose proof (Z.log2_nonneg (Z.abs x)). lia. }
  pose proof (Z_div_mod_eq_full (big.BitLen x + 7) 8) as Hdm.
  pose proof (Z.mod_pos_bound (big.BitLen x + 7) 8 ltac:(lia)) as Hm.
  fold nb in Hdm.
  assert (Hnb : 1 <= nb) by lia.
  split; [exact Hnb |]. rewrite !pow256 by lia. split.
  - apply Z.le_trans with (2 ^ (big.BitLen x - 1)); [| exact Hlo].
    apply Z.pow_le_mono_r; lia.
  - apply Z.lt_le_trans with (2 ^ big.BitLen x); [exact Hhi |].
    apply Z.pow_le_mono_r; lia.
Qed.

Lemma big_Bytes_spec x : 0 < x ->
  bytes_ok (big.Bytes x)
  /\ len (big.Bytes x) = (big.BitLen x + 7) / 8
  /\ big.SetBytes (big.Bytes x) = x.
Proof.
  intros Hx. unfold big.Bytes. pose proof (numBytes_bounds x Hx) as (Hnb & Hlo & Hhi).
  split; [apply bytes_ok_be_bytes |]. split.
  - unfold len. rewrite length_be_bytes. lia.
  - rewrite big_SetBytes_be_bytes, Z2Nat.id, Z.abs_eq by lia.
    apply Z.mod_small. lia.
Qed.

Lemma big_Bytes_0 : big.Bytes 0 = [].
Proof. reflexivity. Qed.

(** [SetBytes] after [Bytes] is the identity on non-negative integers. *)
Lemma big_SetBytes_Bytes x : 0 <= x -> big.SetBytes (big.Bytes x) = x.
Proof.
  intros Hx. destruct (Z.eq_dec x 0) as [-> | Hne]; [reflexivity |].
  apply big_Bytes_spec. lia.
Qed.

Lemma bytes_ok_big_Bytes x : bytes_ok (big.Bytes x).
Proof. apply bytes_ok_be_bytes. Qed.

End BigIntFacts.

Section SizeFacts.
Context `{Platform}.

(** A SubtleInt sized for [numBits] bits is wide enough for the bytes that
    hold them. *)
Lemma SubtleIntSize_spec numBits : 0 <= numBits ->
  let nb := (numBits + 7) / 8 in
  0 <= SubtleIntSize numBits
  /\ nb <= SubtleIntSize numBits * (UintSize / 8).
Proof.
  intros Hn nb. unfold SubtleIntSize. rewrite shiftr3, UintSize_quot. fold nb.
  pose proof wordBytes_pos as Hwb.
  assert (0 <= nb) by (apply Z.div_pos; lia).
  rewrite Z.quot_div_nonneg by lia.
  pose proof (Z_div_mod_eq_full (nb + UintSize / 8 - 1) (UintSize / 8)) as Hdm.
  assert (Hm : 0 <= (nb + UintSize / 8 - 1) mod (UintSize / 8) < UintSize / 8)
    by (apply Z.mod_pos_bound; lia).
  split; [apply Z.div_pos; lia | nia].
Qed.

Lemma SubtleIntSize_whole nb numBits :
  nb = (numBits + 7) / 8 -> SubtleIntSize (8 * nb) = SubtleIntSize numBits.
Proof.
  intros ->. unfold SubtleIntSize. rewrite !shiftr3. do 2 f_equal.
  replace (8 * ((numBits + 7) / 8) + 7) with (7 + (numBits + 7) / 8 * 8) by lia.
  rewrite Z_div_plus_full by lia. reflexivity.
Qed.

End SizeFacts.

(** ** Key generation *)

Section GenerateKeyFacts.
Context `{Platform}.

Lemma genMask_index numBits :
  exists m, index genMask (numBits mod 8) = Ok m /\ is_byte m.
Proof.
  assert (Hm : 0 <= numBits mod 8 < 8) by (apply Z.mod_pos_bound; lia).
  assert (Hc : numBits mod 8 = 0 \/ numBits mod 8 = 1 \/ numBits mod 8 = 2
               \/ numBits mod 8 = 3 \/ numBits mod 8 = 4 \/ numBits mod 8 = 5
               \/ numBits mod 8 = 6 \/ numBits mod 8 = 7) by lia.
  destruct Hc as [-> | [-> | [-> | [-> | [-> | [-> | [-> | ->]]]]]]];
    eexists; (split; [reflexivity | unfold is_byte; lia]).
Qed.

Lemma is_byte_land a b : is_byte a -> is_byte b -> is_byte (Z.land a b).
Proof.
  intros [Ha0 Ha1] [Hb0 Hb1]. unfold is_byte. split.
  - apply Z.land_nonneg. left. exact Ha0.
  - change 256 with (2 ^ 8).
    destruct (Z.eq_dec (Z.land a b) 0) as [-> | Hne]; [reflexivity |].
    apply Z.log2_lt_pow2.
    + pose proof (proj2 (Z.land_nonneg a b) (or_introl Ha0)). lia.
    + apply Z.le_lt_trans with (Z.min (Z.log2 a) (Z.log2 b)); [apply Z.log2_land; lia |].
      destruct (Z.eq_dec a 0) as [-> | Hane].
      * change (Z.log2 0) with 0. pose proof (Z.log2_nonneg b). lia.
      * assert (Z.log2 a < 8) by (apply Z.log2_lt_pow2; [lia | exact Ha1]). lia.
Qed.

Lemma is_byte_lxor a b : is_byte a -> is_byte b -> is_byte (Z.lxor a b).
Proof.
  intros [Ha0 Ha1] [Hb0 Hb1]. unfold is_byte. split.
  - apply Z.lxor_nonneg. lia.
  - change 256 with (2 ^ 8).
    destruct (Z.eq_dec (Z.lxor a b) 0) as [-> | Hne]; [reflexivity |].
    assert (0 <= Z.lxor a b) by (apply Z.lxor_nonneg; lia).
    apply Z.log2_lt_pow2; [lia |].
    apply Z.le_lt_trans with (Z.max (Z.log2 a) (Z.log2 b)); [apply Z.log2_lxor; lia |].
    assert (Z.log2 a < 8).
    { destruct (Z.eq_dec a 0) as [-> | ?]; [reflexivity | apply Z.log2_lt_pow2; lia]. }
    assert (Z.log2 b < 8).
    { destruct (Z.eq_dec b 0) as [-> | ?]; [reflexivity | apply Z.log2_lt_pow2; lia]. }
    lia.
Qed.

(** The body of the loop on a candidate of at least two bytes. *)
Lemma GenerateKey_body_spec numBits constN tmp p0 p1 ps :
  bytes_ok (p0 :: p1 :: ps) -> wf constN -> length tmp = length constN ->
  len (p0 :: p1 :: ps) <= width tmp ->
  exists m, index genMask (numBits mod 8) = Ok m /\
  let priv := Z.land p0 m :: Z.lxor p1 0x42 :: ps in
  bytes_ok priv /\
  GenerateKey_body numBits constN tmp (p0 :: p1 :: ps)
  = Ok (priv, big.SetBytes priv * 256 ^ (width tmp - len priv) <? value constN).
Proof.
  intros Hp HcN Hlen Hcap.
  destruct (genMask_index numBits) as (m & Hm & Hmb).
  exists m. split; [exact Hm |]. intros priv.
  inversion Hp as [| ? ? Hp0 Hp']; subst. inversion Hp' as [| ? ? Hp1 Hps]; subst.
  assert (Hpriv : bytes_ok priv).
  { constructor; [apply is_byte_land; assumption |].
    constructor; [apply is_byte_lxor; [assumption | unfold is_byte; lia] | assumption]. }
  split; [exact Hpriv |].
  unfold GenerateKey_body.
  change (index (p0 :: p1 :: ps) 0) with (Ok (A := Z) p0). cbn [mbind result_bind].
  rewrite Hm. cbn [mbind result_bind].
  change (assign (p0 :: p1 :: ps) 0 (Z.land p0 m)) with (Ok (Z.land p0 m :: p1 :: ps)).
  cbn [mbind result_bind].
  assert (Hi1 : index (Z.land p0 m :: p1 :: ps) 1 = Ok p1).
  { unfold index, len. cbn [length].
    destruct (Z.ltb_spec 1 (Z.of_nat (S (S (length ps))))); [reflexivity | lia]. }
  rewrite Hi1. cbn [mbind result_bind].
  assert (Ha1 : assign (Z.land p0 m :: p1 :: ps) 1 (Z.lxor p1 66) = Ok priv).
  { unfold assign, len. cbn [length].
    destruct (Z.ltb_spec 1 (Z.of_nat (S (S (length ps))))); [reflexivity | lia]. }
  rewrite Ha1. cbn [mbind result_bind].
  assert (Hlp : len priv = len (p0 :: p1 :: ps)) by reflexivity.
  assert (Hcap' : len priv <= width tmp) by lia.
  destruct (SetBytes_spec tmp priv Hpriv Hcap') as (t & -> & Ht & Hlt & Hv).
  cbn [mbind result_bind].
  rewrite Less_spec by (assumption || lia). cbn [mbind result_bind].
  rewrite Hv. destruct (_ <? _); reflexivity.
Qed.

Variables (numBits nb : Z) (constN tmp : SubtleInt).
Hypothesis Hnb : 0 <= nb.
Hypothesis HconstN : wf constN.
Hypothesis Htmp : length tmp = length constN.
Hypothesis Hwidth : nb <= width tmp.

Lemma ReadFull_Ok rand priv rand' :
  bytes_ok rand -> io.ReadFull rand nb = Ok (priv, rand') ->
  rand = priv ++ rand' /\ len priv = nb /\ bytes_ok priv /\ bytes_ok rand'.
Proof.
  intros Hr. unfold io.ReadFull. destruct (Z.leb_spec nb (len rand)) as [Hle | Hgt].
  - intros [= <- <-]. split; [symmetry; apply take_drop |].
    split; [unfold len in *; rewrite length_take; lia |].
    split; [apply Forall_take | apply Forall_drop]; exact Hr.
  - destruct rand; discriminate.
Qed.

Lemma GenerateKey_loop_spec fuel : forall rand k rest,
  bytes_ok rand ->
  GenerateKey_loop fuel numBits nb constN tmp rand = Ok (k, rest) ->
  bytes_ok k /\ len k = nb /\ bytes_ok rest
  /\ big.SetBytes k * 256 ^ (width tmp - nb) < value constN
  /\ exists r1, In r1 rand /\ k !! 1%nat = Some (Z.lxor r1 0x42).
Proof.
  induction fuel as [| fuel IH]; intros rand k rest Hr; cbn [GenerateKey_loop];
    [discriminate |].
  destruct (io.ReadFull rand nb) as [[priv rand'] | e | msg] eqn:Hread; try discriminate.
  destruct (ReadFull_Ok _ _ _ Hr Hread) as (-> & Hlp & Hpriv & Hr').
  destruct priv as [| p0 [| p1 ps]].
  - cbn. discriminate.
  - unfold GenerateKey_body.
    change (index [p0] 0) with (Ok (A := Z) p0). cbn [mbind result_bind].
    destruct (genMask_index numBits) as (m & -> & _). cbn. discriminate.
  - assert (Hcap : len (p0 :: p1 :: ps) <= width tmp) by lia.
    destruct (GenerateKey_body_spec numBits constN tmp p0 p1 ps Hpriv HconstN Htmp Hcap)
      as (m & _ & Hok & ->).
    cbn [mbind result_bind].
    set (priv := Z.land p0 m :: Z.lxor p1 66 :: ps) in *.
    assert (Hlpriv : len priv = nb) by (rewrite <- Hlp; reflexivity).
    rewrite Hlpriv.
    destruct (Z.ltb_spec (big.SetBytes priv * 256 ^ (width tmp - nb)) (value constN))
      as [Hlt | Hge].
    + intros [= <- <-]. repeat (split; [assumption |]).
      exists p1. split; [cbn; auto | reflexivity].
    + intros Hrec. destruct (IH _ _ _ Hr' Hrec) as (? & ? & ? & ? & r1 & Hin & Hk).
      repeat (split; [assumption |]).
      exists r1. split; [| exact Hk]. apply in_or_app. right. exact Hin.
Qed.

(** The fuel given by [GenerateKey] is never exhausted. *)
Lemma GenerateKey_loop_fuel fuel : forall rand,
  bytes_ok rand -> (length rand < fuel)%nat ->
  GenerateKey_loop fuel numBits nb constN tmp rand <> Panic "unreachable".
Proof.
  induction fuel as [| fuel IH]; intros rand Hr Hf; [lia |].
  cbn [GenerateKey_loop].
  destruct (io.ReadFull rand nb) as [[priv rand'] | e | msg] eqn:Hread.
  - destruct (ReadFull_Ok _ _ _ Hr Hread) as (-> & Hlp & Hpriv & Hr').
    destruct priv as [| p0 [| p1 ps]].
    + cbn. discriminate.
    + unfold GenerateKey_body.
      change (index [p0] 0) with (Ok (A := Z) p0). cbn [mbind result_bind].
      destruct (genMask_index numBits) as (m & -> & _). cbn. discriminate.
    + assert (Hcap : len (p0 :: p1 :: ps) <= width tmp) by lia.
      destruct (GenerateKey_body_spec numBits constN tmp p0 p1 ps Hpriv HconstN Htmp Hcap)
        as (m & _ & Hok & ->).
      cbn [mbind result_bind].
      destruct (_ <? _); [discriminate |].
      apply IH; [assumption |]. rewrite length_app in Hf. cbn [length] in Hf. lia.
  - discriminate.
  - unfold io.ReadFull in Hread. destruct (nb <=? len rand); [discriminate |].
    destruct rand; discriminate.
Qed.

End GenerateKeyFacts.

Section GenerateKeySpec.
Context `{Platform}.
Variable params : elliptic.CurveParams.
Hypothesis HN : 0 < elliptic.N params.

Let numBits := big.BitLen (elliptic.N params).
Let nb := (numBits + 7) / 8.

(** The order loaded into a SubtleInt sized for it. *)
Lemma SetBytes_order bits :
  SubtleIntSize bits = SubtleIntSize numBits ->
  exists cN, SetBytes (make (SubtleIntSize bits)) (big.Bytes (elliptic.N params)) = Ok cN
    /\ wf cN /\ len cN = SubtleIntSize numBits /\ nb <= width cN
    /\ value cN = elliptic.N params * 256 ^ (width cN - nb).
Proof.
  intros ->.
  pose proof (big_Bytes_spec _ HN) as (HbN & HlN & HvN).
  pose proof (big_BitLen_nonneg (elliptic.N params)) as Hbits.
  pose proof (SubtleIntSize_spec numBits Hbits) as [Hsz Hcap].
  fold numBits nb in HlN, Hcap.
  assert (Hw : width (make (SubtleIntSize numBits)) = SubtleIntSize numBits * (UintSize / 8)).
  { unfold width. rewrite len_make by assumption. reflexivity. }
  assert (Hcap' : len (big.Bytes (elliptic.N params))
                  <= width (make (SubtleIntSize numBits))) by lia.
  destruct (SetBytes_spec (make (SubtleIntSize numBits)) (big.Bytes (elliptic.N params))
              HbN Hcap') as (cN & HcN & Hwf & Hlen & Hv).
  assert (HlcN : len cN = SubtleIntSize numBits).
  { unfold len. rewrite Hlen, length_make. lia. }
  assert (HwcN : width cN = width (make (SubtleIntSize numBits))).
  { unfold width, len. rewrite Hlen. reflexivity. }
  exists cN. split; [exact HcN |]. split; [exact Hwf |]. split; [exact HlcN |].
  split; [lia |]. rewrite Hv, HvN, HlN, HwcN. reflexivity.
Qed.

(** Every key returned by [GenerateKey] has the byte length of the order, is
    below the order, and has at index 1 a byte of the reader xor-ed with 0x42. *)
Lemma GenerateKey_spec rand k rest :
  bytes_ok rand -> GenerateKey params rand = Ok (k, rest) ->
  bytes_ok k /\ len k = nb /\ bytes_ok rest
  /\ 0 <= big.SetBytes k < elliptic.N params
  /\ exists r1, In r1 rand /\ k !! 1%nat = Some (Z.lxor r1 0x42).
Proof.
  intros Hr. unfold GenerateKey. fold numBits. rewrite shiftr3. fold nb.
  destruct (SetBytes_order numBits eq_refl) as (cN & -> & Hwf & Hlen & Hcap & Hv).
  cbn [mbind result_bind]. intros Hloop.
  pose proof (numBytes_bounds _ HN) as (Hnb1 & _). fold numBits nb in Hnb1.
  assert (Hlt : length (make (len cN)) = length cN).
  { rewrite length_make. unfold len. lia. }
  assert (Hwt : width (make (len cN)) = width cN).
  { unfold width. f_equal. apply len_make. unfold len. lia. }
  assert (Hnb0 : 0 <= nb) by lia.
  assert (Hcap' : nb <= width (make (len cN))) by lia.
  destruct (GenerateKey_loop_spec numBits nb cN (make (len cN)) Hnb0 Hwf Hlt
              Hcap' _ _ _ _ Hr Hloop) as (Hk & Hlk & Hrest & Hlt' & Hx).
  repeat (split; [assumption |]).
  split; [| exact Hx].
  pose proof (big_SetBytes_bound k Hk).
  split; [lia |].
  rewrite Hwt, Hv in Hlt'.
  assert (0 < 256 ^ (width cN - nb)) by (apply Z.pow_pos_nonneg; lia).
  nia.
Qed.

(** [GenerateKey] always leaves its loop through a return, an error or a
    run-time panic of the body. *)
Lemma GenerateKey_total rand :
  bytes_ok rand -> GenerateKey params rand <> Panic "unreachable".
Proof.
  intros Hr. unfold GenerateKey. fold numBits. rewrite shiftr3. fold nb.
  destruct (SetBytes_order numBits eq_refl) as (cN & -> & Hwf & Hlen & Hcap & Hv).
  cbn [mbind result_bind].
  pose proof (numBytes_bounds _ HN) as (Hnb1 & _). fold numBits nb in Hnb1.
  assert (Hlt : length (make (len cN)) = length cN).
  { rewrite length_make. unfold len. lia. }
  assert (Hwt : width (make (len cN)) = width cN).
  { unfold width. f_equal. apply len_make. unfold len. lia. }
  apply GenerateKey_loop_fuel; [lia | assumption | assumption | lia | assumption | lia].
Qed.

End GenerateKeySpec.

(** ** Key blinding *)

Section BlindKeyFacts.
Context `{Platform}.

Lemma width_make_len z : width (make (len z)) = width z.
Proof. unfold width. f_equal. apply len_make. unfold len. lia. Qed.

Lemma length_make_len (z : SubtleInt) : length (make (len z)) = length z.
Proof. rewrite length_make. unfold len. lia. Qed.

Lemma slice_to_Ok (b : list Z) n : 0 <= n <= len b -> slice_to b n = Ok (take (Z.to_nat n) b).
Proof.
  intros [H0 H1]. unfold slice_to.
  destruct (Z.leb_spec 0 n); [| lia]. destruct (Z.leb_spec n (len b)); [| lia]. reflexivity.
Qed.

(** The leading [k] bytes of a byte string whose value is a multiple of
    [256^(len b - k)]. *)
Lemma big_SetBytes_take b k v :
  bytes_ok b -> 0 <= k <= len b -> big.SetBytes b = v * 256 ^ (len b - k) ->
  big.SetBytes (take (Z.to_nat k) b) = v.
Proof.
  intros Hb Hk Hv.
  rewrite <- (take_drop (Z.to_nat k) b) in Hv at 1.
  rewrite big_SetBytes_app in Hv.
  assert (Hld : len (drop (Z.to_nat k) b) = len b - k).
  { unfold len in *. rewrite length_drop. lia. }
  rewrite Hld in Hv.
  pose proof (big_SetBytes_bound _ (Forall_drop _ (Z.to_nat k) _ Hb)) as Bd.
  rewrite Hld in Bd.
  assert (0 < 256 ^ (len b - k)) by (apply Z.pow_pos_nonneg; lia).
  nia.
Qed.

Variable params : elliptic.CurveParams.
Hypothesis HN : 0 < elliptic.N params.

Let nb := (big.BitLen (elliptic.N params) + 7) / 8.

(** The two halves returned by [BlindKey] sum, modulo the order, to the
    private key read with its bytes placed at the most significant end of
    the byte length of the order. *)
Lemma BlindKey_spec priv rand p1 p2 rest :
  bytes_ok priv -> bytes_ok rand ->
  BlindKey priv params rand = Ok (p1, p2, rest) ->
  bytes_ok p1 /\ bytes_ok p2 /\ len p1 = nb /\ len p2 = nb /\ bytes_ok rest
  /\ len priv <= nb
  /\ (big.SetBytes p1 + big.SetBytes p2) mod elliptic.N params
     = (big.SetBytes priv * 256 ^ (nb - len priv)) mod elliptic.N params.
Proof.
  intros Hpriv Hrand. unfold BlindKey. rewrite shiftr3. fold nb.
  pose proof (numBytes_bounds _ HN) as (Hnb1 & _). fold nb in Hnb1.
  destruct (SetBytes_order params HN (8 * nb) (SubtleIntSize_whole nb _ eq_refl))
    as (n & -> & Hn & Hln & Hcap & Hvn).
  fold nb in Hcap, Hvn. cbn [mbind result_bind].
  destruct (Z.gtb_spec (len priv) nb) as [| Hlp]; [discriminate |].
  assert (Hcp : len priv <= width (make (len n))) by (rewrite width_make_len; lia).
  destruct (SetBytes_spec (make (len n)) priv Hpriv Hcp) as (x & -> & Hx & Hlx & Hvx).
  cbn [mbind result_bind].
  destruct (GenerateKey params rand) as [[blindBytes rand'] | e | msg] eqn:Hgen;
    try discriminate.
  destruct (GenerateKey_spec params HN _ _ _ Hrand Hgen) as (Hbb & Hlbb & Hrest & Hbv & _).
  fold nb in Hlbb.
  assert (Hcb : len blindBytes <= width (make (len n))) by (rewrite width_make_len; lia).
  destruct (SetBytes_spec (make (len n)) blindBytes Hbb Hcb) as (y & -> & Hy & Hly & Hvy).
  cbn [mbind result_bind].
  rewrite length_make_len in Hlx, Hly. rewrite width_make_len in Hvx, Hvy.
  rewrite Hlbb in Hvy.
  set (S := 256 ^ (width n - nb)) in *.
  assert (HS : 0 < S) by (apply Z.pow_pos_nonneg; lia).
  assert (Hvx' : value x = big.SetBytes priv * 256 ^ (nb - len priv) * S).
  { rewrite Hvx. unfold S. rewrite <- Z.mul_assoc, <- Z.pow_add_r by lia.
    do 2 f_equal. lia. }
  set (p := big.SetBytes priv * 256 ^ (nb - len priv)) in *.
  set (b := big.SetBytes blindBytes) in *.
  assert (Hyn : value y < value n) by (rewrite Hvy, Hvn; nia).
  assert (Hxy : length x = length y) by lia.
  destruct (AddMod_general x x y n Hx Hy Hn Hxy eq_refl Hlx Hyn)
    as (r1 & -> & Hr1 & Hlr1 & Hvr1).
  cbn [mbind result_bind].
  destruct (Sub_spec y n y Hn Hy (eq_sym Hly) (eq_sym Hly))
    as (r2 & c & -> & Hr2 & Hlr2 & Hc & Hvr2).
  cbn [mbind result_bind].
  destruct (Bytes_spec r1 Hr1) as (b1 & -> & Hb1 & Hlb1 & Hvb1).
  cbn [mbind result_bind].
  assert (Hw1 : width r1 = width n) by (unfold width, len; rewrite Hlr1, Hlx; reflexivity).
  assert (Hw2 : width r2 = width n) by (unfold width, len; rewrite Hlr2; reflexivity).
  rewrite slice_to_Ok by lia. cbn [mbind result_bind].
  destruct (Bytes_spec r2 Hr2) as (b2 & -> & Hb2 & Hlb2 & Hvb2).
  cbn [mbind result_bind].
  rewrite slice_to_Ok by lia. cbn [mbind result_bind].
  intros [= <- <- <-].
  (* the integers held by the two results *)
  pose proof (value_bound n Hn) as Bn. pose proof (value_bound r2 Hr2) as Br2.
  pose proof (value_bound y Hy) as By.
  rewrite Hlr2 in Br2. rewrite Hly in By.
  assert (Hvr2' : value r2 = (elliptic.N params - b) * S).
  { destruct Hc as [-> | ->]; rewrite Hvn, Hvy in Hvr2; nia. }
  assert (Hvr1' : exists v, value r1 = v * S
                    /\ (v = p + b \/ v = p + b - elliptic.N params)).
  { rewrite Hvx', Hvy, Hvn in Hvr1.
    destruct (_ <? _); [exists (p + b) | exists (p + b - elliptic.N params)];
      (split; [lia | auto]). }
  destruct Hvr1' as (v & Hv1 & Hv).
  assert (Ht1 : big.SetBytes (take (Z.to_nat nb) b1) = v).
  { apply big_SetBytes_take; [assumption | lia |]. rewrite Hvb1, Hv1, Hlb1, Hw1. reflexivity. }
  assert (Ht2 : big.SetBytes (take (Z.to_nat nb) b2) = elliptic.N params - b).
  { apply big_SetBytes_take; [assumption | lia |]. rewrite Hvb2, Hvr2', Hlb2, Hw2. reflexivity. }
  split; [apply Forall_take, Hb1 |]. split; [apply Forall_take, Hb2 |].
  split; [unfold len in *; rewrite length_take; lia |].
  split; [unfold len in *; rewrite length_take; lia |].
  split; [exact Hrest |]. split; [exact Hlp |].
  rewrite Ht1, Ht2.
  destruct Hv as [-> | ->].
  - replace (p + b + (elliptic.N params - b)) with (p + 1 * elliptic.N params) by lia.
    apply Z_mod_plus_full.
  - f_equal. lia.
Qed.

End BlindKeyFacts.

(** ** The curve group and the MQV primitive *)

Section CyclicCurve.

Lemma cyclic_laws id params :
  0 < elliptic.N params ->
  GroupLaws (cyclic_curve id params) (cyclic_valid params) (cyclic_mul params).
Proof.
  intros HN. split; cbn [cyclic_curve elliptic.Params elliptic.N].
  - exact HN.
  - intros a P _. split; [apply Z.mod_pos_bound; exact HN | reflexivity].
  - intros P Q _ _. split; [apply Z.mod_pos_bound; exact HN | reflexivity].
  - intros P k _ _. reflexivity.
  - intros a b P _. unfold curve_add, cyclic_mul. cbn.
    rewrite <- Zplus_mod. f_equal. f_equal. lia.
  - intros a b P _. unfold cyclic_mul. cbn [fst snd].
    rewrite Zmult_mod_idemp_r. f_equal. f_equal. lia.
  - intros a b P _ Hab. unfold cyclic_mul.
    rewrite (Zmult_mod a), Hab, <- Zmult_mod. reflexivity.
Qed.

End CyclicCurve.

Section MQVFacts.

Variables (curve : elliptic.Curve) (valid : point -> Prop) (mul : Z -> point -> point).
Hypothesis laws : GroupLaws curve valid mul.

Let n := elliptic.N (elliptic.Params curve).

Lemma cofactor_Ok h : cofactor curve = Ok h -> h = 1.
Proof. unfold cofactor. destruct (elliptic.ident curve); intros [= <-]; reflexivity. Qed.

Lemma avf_nonneg x params : 0 <= avf x params.
Proof.
  unfold avf, one.
  pose proof (big_BitLen_nonneg (elliptic.N params)) as Hf.
  assert (0 <= (big.BitLen (elliptic.N params) + 1) ÷ 2) by (apply Z.quot_pos; lia).
  rewrite Z.shiftl_1_l.
  assert (0 < 2 ^ ((big.BitLen (elliptic.N params) + 1) ÷ 2)) by (apply Z.pow_pos_nonneg; lia).
  assert (0 <= Z.land (2 ^ ((big.BitLen (elliptic.N params) + 1) ÷ 2) - 1) x).
  { apply Z.land_nonneg. left. lia. }
  lia.
Qed.

Lemma mqvSig_spec dS dE xE :
  mqvSig dS dE xE curve 1 = Ok (big.Bytes (mqv_scalar curve dS dE xE))
  /\ big.SetBytes (big.Bytes (mqv_scalar curve dS dE xE)) = mqv_scalar curve dS dE xE.
Proof.
  pose proof (order_pos _ _ _ laws) as HN. fold n in HN.
  unfold mqvSig, big.Mod, mqv_scalar. fold n.
  destruct (Z.eqb_spec n 0); [lia |]. cbn [mbind result_bind].
  rewrite Z.abs_eq, Z.mul_1_r by lia. split; [reflexivity |].
  apply big_SetBytes_Bytes. apply Z.mod_pos_bound. lia.
Qed.

(** The base point is the peer's ephemeral point plus [avf] times its static
    point. *)
Lemma mqvBase_spec S E :
  valid S -> valid E ->
  mqvBase (fst S) (snd S) (fst E) (snd E) curve
  = curve_add curve E (mul (avf (fst E) (elliptic.Params curve)) S)
  /\ valid (mqvBase (fst S) (snd S) (fst E) (snd E) curve).
Proof.
  intros HS HE. unfold mqvBase.
  pose proof (ScalarMult_mul _ _ _ laws S (big.Bytes (avf (fst E) (elliptic.Params curve)))
                HS (bytes_ok_big_Bytes _)) as Hm.
  rewrite big_SetBytes_Bytes in Hm by apply avf_nonneg.
  unfold curve_mult in Hm. rewrite Hm.
  destruct (mul _ S) as [ax ay] eqn:HA.
  assert (HvA : valid (ax, ay)) by (rewrite <- HA; apply (mul_valid _ _ _ laws), HS).
  change (elliptic.Add curve (fst E) (snd E) ax ay) with (curve_add curve E (ax, ay)).
  pose proof (add_valid _ _ _ laws E (ax, ay) HE HvA) as Hv.
  destruct (curve_add curve E (ax, ay)) as [bx by_]. split; [reflexivity | exact Hv].
Qed.

Lemma MQV_spec dS dE xE S E :
  valid S -> valid E -> cofactor curve = Ok 1 ->
  MQV dS dE xE (fst S) (snd S) (fst E) (snd E) curve
  = if fst (mul (mqv_scalar curve dS dE xE) (mqvBase (fst S) (snd S) (fst E) (snd E) curve)) =? 0
    then Err (New "failed to generate shared secret")
    else Ok (mul (mqv_scalar curve dS dE xE) (mqvBase (fst S) (snd S) (fst E) (snd E) curve)).
Proof.
  intros HS HE Hc. unfold MQV. rewrite Hc.
  destruct (mqvSig_spec dS dE xE) as [-> Hs]. cbn [mbind result_bind].
  destruct (mqvBase_spec S E HS HE) as [_ HvB].
  destruct (mqvBase (fst S) (snd S) (fst E) (snd E) curve) as [bx by_].
  pose proof (ScalarMult_mul _ _ _ laws (bx, by_) _ HvB
                (bytes_ok_big_Bytes (mqv_scalar curve dS dE xE))) as Hm.
  rewrite Hs in Hm. unfold curve_mult in Hm. cbn [fst snd] in Hm. rewrite Hm.
  destruct (mul (mqv_scalar curve dS dE xE) (bx, by_)) as [x y]. cbn [fst]. unfold big.Sign.
  destruct (Z.eqb_spec x 0) as [-> | Hx]; [reflexivity |].
  destruct (Z.eqb_spec (Z.sgn x) 0) as [Hs0 | _]; [| reflexivity].
  exfalso. apply Hx, Z.sgn_null_iff, Hs0.
Qed.

End MQVFacts.

(** ** Receiver passed as an operand *)

Section Elementwise.
Context {C : Type} (step : Z -> Z -> C -> Z * C).

Lemma length_zip_loop x : forall y c,
  length x = length y -> length (fst (zip_loop step x y c)) = length x.
Proof.
  induction x as [| xi x IH]; intros [| yi y] c Hlen; try discriminate; [reflexivity |].
  cbn [zip_loop]. destruct (step xi yi c) as [zi c1].
  specialize (IH y c1 ltac:(cbn in Hlen; lia)).
  destruct (zip_loop step x y c1) as [z' c2]. cbn in *. lia.
Qed.

(** Whatever the receiver holds and whichever operand it is, the loop run
    index by index produces the words of the loop on values. *)
Lemma elementwise_zip_loop (a : alias) rest_x : forall done px py z0 rest_y c,
  length z0 = length rest_x -> length rest_x = length rest_y ->
  length px = length done -> length py = length done ->
  forall x y,
  (match a with AliasX => z0 = rest_x | _ => x = px ++ rest_x end) ->
  (match a with AliasY => z0 = rest_y | _ => y = py ++ rest_y end) ->
  elementwise step a (length rest_x) (len done) (done ++ z0) x y c
  = Ok (done ++ fst (zip_loop step rest_x rest_y c), snd (zip_loop step rest_x rest_y c)).
Proof.
  induction rest_x as [| xi rest_x IH];
    intros done px py z0 rest_y c Hz Hxy Hpx Hpy x y Hx Hy.
  - destruct rest_y; [| discriminate]. destruct z0; [| discriminate].
    cbn [elementwise length zip_loop fst snd]. reflexivity.
  - destruct rest_y as [| yi rest_y]; [discriminate |].
    destruct z0 as [| zi0 z0]; [discriminate |].
    cbn [length elementwise].
    assert (Hlx : len done = len px) by (unfold len; lia).
    assert (Hly : len done = len py) by (unfold len; lia).
    assert (Hix : index (match a with AliasX => done ++ zi0 :: z0 | _ => x end) (len done)
                  = Ok xi).
    { destruct a; try (rewrite Hx; apply index_app_mid; exact Hlx).
      rewrite Hx. apply index_app_mid. reflexivity. }
    assert (Hiy : index (match a with AliasY => done ++ zi0 :: z0 | _ => y end) (len done)
                  = Ok yi).
    { destruct a; try (rewrite Hy; apply index_app_mid; exact Hly).
      rewrite Hy. apply index_app_mid. reflexivity. }
    rewrite Hix, Hiy. cbn [mbind result_bind zip_loop].
    destruct (step xi yi c) as [zi c1].
    rewrite assign_app_mid by reflexivity. cbn [mbind result_bind].
    replace (done ++ zi :: z0) with ((done ++ [zi]) ++ z0)
      by (rewrite <- app_assoc; reflexivity).
    replace (len done + 1) with (len (done ++ [zi]))
      by (unfold len; rewrite length_app; cbn [length]; lia).
    rewrite (IH (done ++ [zi]) (px ++ [xi]) (py ++ [yi]) z0 rest_y c1).
    + destruct (zip_loop step rest_x rest_y c1) as [z' c2]. cbn [fst snd].
      rewrite <- app_assoc. reflexivity.
    + cbn in Hz. lia.
    + cbn in Hxy. lia.
    + rewrite !length_app. cbn [length]. lia.
    + rewrite !length_app. cbn [length]. lia.
    + destruct a; try (rewrite Hx, <- app_assoc; reflexivity).
      injection Hx as _ Hx'. exact Hx'.
    + destruct a; try (rewrite Hy, <- app_assoc; reflexivity).
      injection Hy as _ Hy'. exact Hy'.
Qed.

End Elementwise.

Section InPlace.
Context `{Platform}.

Lemma Add_loop_zip x : forall y c, Add_loop x y c = zip_loop addW x y c.
Proof. intros y c. reflexivity. Qed.

Lemma Sub_loop_zip x : forall y c, Sub_loop x y c = zip_loop subW x y c.
Proof. intros y c. reflexivity. Qed.

Lemma Select_loop_zip p x : forall y,
  Select_loop p x y = fst (zip_loop (fun a b (_ : unit) => (selectW p a b, tt)) x y tt).
Proof.
  induction x as [| xi x IH]; intros [| yi y]; try reflexivity.
  cbn [Select_loop zip_loop]. rewrite IH.
  destruct (zip_loop _ x y tt). reflexivity.
Qed.

(** [z.Add(x, y)] run index by index on equal-length slices returns what
    [Add] returns, also when [z] is [x] or [y]. *)
Lemma Add_elementwise a z x y :
  length x = length y -> length x = length z ->
  (match a with AliasX => z = x | AliasY => z = y | NoAlias => True end) ->
  elementwise addW a (length x) 0 z x y 0 = Ok (Add_loop x y 0).
Proof.
  intros Hxy Hxz Ha. rewrite Add_loop_zip.
  pose proof (elementwise_zip_loop addW a x [] [] [] z y 0 (eq_sym Hxz) Hxy eq_refl eq_refl
                x y) as E.
  cbn [app] in E. change (len []) with 0 in E. rewrite E.
  - destruct (zip_loop addW x y 0). reflexivity.
  - destruct a; [reflexivity | exact Ha | reflexivity].
  - destruct a; [reflexivity | reflexivity | exact Ha].
Qed.

(** The same for [z.Sub(x, y)]. *)
Lemma Sub_elementwise a z x y :
  length x = length y -> length x = length z ->
  (match a with AliasX => z = x | AliasY => z = y | NoAlias => True end) ->
  elementwise subW a (length x) 0 z x y 0 = Ok (Sub_loop x y 0).
Proof.
  intros Hxy Hxz Ha. rewrite Sub_loop_zip.
  pose proof (elementwise_zip_loop subW a x [] [] [] z y 0 (eq_sym Hxz) Hxy eq_refl eq_refl
                x y) as E.
  cbn [app] in E. change (len []) with 0 in E. rewrite E.
  - destruct (zip_loop subW x y 0). reflexivity.
  - destruct a; [reflexivity | exact Ha | reflexivity].
  - destruct a; [reflexivity | reflexivity | exact Ha].
Qed.

(** The same for [z.Select(p, x, y)]. *)
Lemma Select_elementwise a p z x y :
  length x = length y -> length x = length z ->
  (match a with AliasX => z = x | AliasY => z = y | NoAlias => True end) ->
  elementwise (fun xi yi (_ : unit) => (selectW p xi yi, tt)) a (length x) 0 z x y tt
  = Ok (Select_loop p x y, tt).
Proof.
  intros Hxy Hxz Ha. rewrite Select_loop_zip.
  pose proof (elementwise_zip_loop (fun xi yi (_ : unit) => (selectW p xi yi, tt))
                a x [] [] [] z y tt (eq_sym Hxz) Hxy eq_refl eq_refl x y) as E.
  cbn [app] in E. change (len []) with 0 in E. rewrite E.
  - destruct (zip_loop _ x y tt) as [r []]. reflexivity.
  - destruct a; [reflexivity | exact Ha | reflexivity].
  - destruct a; [reflexivity | reflexivity | exact Ha].
Qed.

End InPlace.

(** ** MQV and BlindMQV *)

Section MQVClaims.
Context `{Platform}.
Variables (curve : elliptic.Curve) (valid : point -> Prop) (mul : Z -> point -> point).
Hypothesis laws : GroupLaws curve valid mul.

Let params := elliptic.Params curve.
Let n := elliptic.N params.

Lemma MQV_Ok_cofactor dS dE xE Sx Sy Ex Ey Zp :
  MQV dS dE xE Sx Sy Ex Ey curve = Ok Zp -> cofactor curve = Ok 1.
Proof.
  unfold MQV. destruct (cofactor curve) as [h | e | msg] eqn:Hc; try discriminate.
  rewrite (cofactor_Ok curve h Hc). reflexivity.
Qed.

Lemma MQV_Ok dS dE xE S E Zp :
  valid S -> valid E ->
  MQV dS dE xE (fst S) (snd S) (fst E) (snd E) curve = Ok Zp ->
  cofactor curve = Ok 1
  /\ Zp = mul (mqv_scalar curve dS dE xE) (mqvBase (fst S) (snd S) (fst E) (snd E) curve).
Proof.
  intros HS HE HM. pose proof (MQV_Ok_cofactor _ _ _ _ _ _ _ _ HM) as Hc.
  split; [exact Hc |].
  rewrite (MQV_spec curve valid mul laws dS dE xE S E HS HE Hc) in HM.
  destruct (_ =? 0); [discriminate |]. congruence.
Qed.

(** Splitting both private scalars additively modulo [n] splits the
    signature scalar additively modulo [n]. *)
Lemma mqv_scalar_split dS dE dS1 dS2 dE1 dE2 xE :
  (big.SetBytes dS1 + big.SetBytes dS2) mod n = big.SetBytes dS mod n ->
  (big.SetBytes dE1 + big.SetBytes dE2) mod n = big.SetBytes dE mod n ->
  (mqv_scalar curve dS1 dE1 xE + mqv_scalar curve dS2 dE2 xE) mod n
  = mqv_scalar curve dS dE xE mod n.
Proof.
  intros HS HE. unfold mqv_scalar. fold params n.
  set (a := avf xE params).
  rewrite <- Zplus_mod, Zmod_mod.
  replace (a * big.SetBytes dS1 + big.SetBytes dE1 + (a * big.SetBytes dS2 + big.SetBytes dE2))
    with (a * (big.SetBytes dS1 + big.SetBytes dS2) + (big.SetBytes dE1 + big.SetBytes dE2))
    by lia.
  rewrite Zplus_mod, Zmult_mod, HS, HE, <- Zmult_mod, <- Zplus_mod. reflexivity.
Qed.

(** C1. Whenever [MQV] succeeds on full-length private scalars and the two
    [BlindKey] calls of [BlindMQV] succeed on the reader, [BlindMQV] returns
    exactly the point that [MQV] returns. *)
Theorem BlindMQV_returns_MQV dS dE xE Sx Sy Ex Ey rand Zp
    sNew sRev rand1 eNew eRev rand2 :
  bytes_ok dS -> bytes_ok dE -> bytes_ok rand ->
  len dS = numBytes params -> len dE = numBytes params ->
  valid (Sx, Sy) -> valid (Ex, Ey) ->
  MQV dS dE xE Sx Sy Ex Ey curve = Ok Zp ->
  BlindKey dS params rand = Ok (sNew, sRev, rand1) ->
  BlindKey dE params rand1 = Ok (eNew, eRev, rand2) ->
  BlindMQV dS dE xE Sx Sy Ex Ey curve rand = Ok (Zp, rand2).
Proof.
  intros HdS HdE Hrand HlS HlE HS HE HM HB1 HB2.
  pose proof (order_pos _ _ _ laws) as HN. fold params n in HN.
  destruct (MQV_Ok dS dE xE (Sx, Sy) (Ex, Ey) Zp HS HE HM) as [Hc ->].
  cbn [fst snd].
  destruct (BlindKey_spec params HN _ _ _ _ _ HdS Hrand HB1)
    as (_ & _ & _ & _ & Hrand1 & _ & HsumS).
  destruct (BlindKey_spec params HN _ _ _ _ _ HdE Hrand1 HB2)
    as (_ & _ & _ & _ & _ & _ & HsumE).
  unfold numBytes in HlS, HlE. fold n in HsumS, HsumE.
  rewrite HlS, Z.sub_diag, Z.pow_0_r, Z.mul_1_r in HsumS.
  rewrite HlE, Z.sub_diag, Z.pow_0_r, Z.mul_1_r in HsumE.
  unfold BlindMQV. fold params. rewrite Hc, HB1, HB2.
  destruct (mqvBase_spec curve valid mul laws (Sx, Sy) (Ex, Ey) HS HE) as [_ HvB].
  cbn [fst snd] in HvB.
  destruct (mqvBase Sx Sy Ex Ey curve) as [bx by_].
  destruct (mqvSig_spec curve valid mul laws sNew eNew xE) as [-> Hs1].
  cbn [mbind result_bind].
  pose proof (ScalarMult_mul _ _ _ laws (bx, by_) _ HvB
                (bytes_ok_big_Bytes (mqv_scalar curve sNew eNew xE))) as Hm1.
  rewrite Hs1 in Hm1. unfold curve_mult in Hm1. cbn [fst snd] in Hm1.
  destruct (elliptic.ScalarMult curve bx by_ (big.Bytes (mqv_scalar curve sNew eNew xE)))
    as [x1 y1].
  destruct (mqvSig_spec curve valid mul laws sRev eRev xE) as [-> Hs2].
  cbn [mbind result_bind].
  pose proof (ScalarMult_mul _ _ _ laws (bx, by_) _ HvB
                (bytes_ok_big_Bytes (mqv_scalar curve sRev eRev xE))) as Hm2.
  rewrite Hs2 in Hm2. unfold curve_mult in Hm2. cbn [fst snd] in Hm2.
  destruct (elliptic.ScalarMult curve bx by_ (big.Bytes (mqv_scalar curve sRev eRev xE)))
    as [x2 y2].
  change (elliptic.Add curve x1 y1 x2 y2) with (curve_add curve (x1, y1) (x2, y2)).
  rewrite Hm1, Hm2, (Add_mul _ _ _ laws) by exact HvB.
  rewrite (mul_order _ _ _ laws _ (mqv_scalar curve dS dE xE) _ HvB).
  - destruct (mul (mqv_scalar curve dS dE xE) (bx, by_)) as [x y]. reflexivity.
  - apply mqv_scalar_split; assumption.
Qed.

(** C2. Two peers with valid static and ephemeral key pairs compute the same
    point, each from its own private scalars and the other's public points. *)
Theorem MQV_symmetric G aS aE bS bE ZA ZB :
  valid G -> bytes_ok aS -> bytes_ok aE -> bytes_ok bS -> bytes_ok bE ->
  let SA := curve_mult curve G aS in
  let EA := curve_mult curve G aE in
  let SB := curve_mult curve G bS in
  let EB := curve_mult curve G bE in
  MQV aS aE (fst EA) (fst SB) (snd SB) (fst EB) (snd EB) curve = Ok ZA ->
  MQV bS bE (fst EB) (fst SA) (snd SA) (fst EA) (snd EA) curve = Ok ZB ->
  ZA = ZB.
Proof.
  intros HG HaS HaE HbS HbE SA EA SB EB HA HB.
  assert (HSA : SA = mul (big.SetBytes aS) G) by (apply (ScalarMult_mul _ _ _ laws); assumption).
  assert (HEA : EA = mul (big.SetBytes aE) G) by (apply (ScalarMult_mul _ _ _ laws); assumption).
  assert (HSB : SB = mul (big.SetBytes bS) G) by (apply (ScalarMult_mul _ _ _ laws); assumption).
  assert (HEB : EB = mul (big.SetBytes bE) G) by (apply (ScalarMult_mul _ _ _ laws); assumption).
  assert (VSA : valid SA) by (rewrite HSA; apply (mul_valid _ _ _ laws), HG).
  assert (VEA : valid EA) by (rewrite HEA; apply (mul_valid _ _ _ laws), HG).
  assert (VSB : valid SB) by (rewrite HSB; apply (mul_valid _ _ _ laws), HG).
  assert (VEB : valid EB) by (rewrite HEB; apply (mul_valid _ _ _ laws), HG).
  destruct (MQV_Ok aS aE (fst EA) SB EB ZA VSB VEB HA) as [_ ->].
  destruct (MQV_Ok bS bE (fst EB) SA EA ZB VSA VEA HB) as [_ ->].
  destruct (mqvBase_spec curve valid mul laws SB EB VSB VEB) as [-> _].
  destruct (mqvBase_spec curve valid mul laws SA EA VSA VEA) as [-> _].
  set (avfA := avf (fst EA) (elliptic.Params curve)).
  set (avfB := avf (fst EB) (elliptic.Params curve)).
  set (sA := mqv_scalar curve aS aE (fst EA)).
  set (sB := mqv_scalar curve bS bE (fst EB)).
  rewrite HSA, HSB, HEA, HEB.
  rewrite !(mul_mul _ _ _ laws), !(Add_mul _ _ _ laws), !(mul_mul _ _ _ laws) by exact HG.
  apply (mul_order _ _ _ laws); [exact HG |].
  subst sA sB. unfold mqv_scalar. fold avfA avfB params n.
  rewrite Zmult_mod_idemp_l. rewrite (Zmult_mod_idemp_l (avfB * _ + _)).
  f_equal. lia.
Qed.

End MQVClaims.
Section InfinityCheck.
Context `{Platform}.

Lemma mqvSig_total dS dE xE curve h :
  elliptic.N (elliptic.Params curve) <> 0 ->
  exists s, mqvSig dS dE xE curve h = Ok s.
Proof.
  intros HN. unfold mqvSig, big.Mod.
  destruct (Z.eqb_spec (elliptic.N (elliptic.Params curve)) 0); [contradiction |].
  eexists. reflexivity.
Qed.

Lemma mqvSig_no_error dS dE xE curve h e : mqvSig dS dE xE curve h <> Err e.
Proof. unfold mqvSig, big.Mod. destruct (_ =? 0); discriminate. Qed.

(** C9. [MQV] fails with the shared-secret error exactly when the point it
    computed has x-coordinate 0 and returns that point otherwise; [BlindMQV]
    never fails with that error and returns the sum of its two partial points
    whatever its coordinates are. *)
Theorem MQV_checks_infinity_BlindMQV_does_not
    dS dE xE Sx Sy Ex Ey curve rand :
  elliptic.N (elliptic.Params curve) <> 0 ->
  (forall h, cofactor curve = Ok h ->
     exists s, mqvSig dS dE xE curve h = Ok s /\
       let Zp := curve_mult curve (mqvBase Sx Sy Ex Ey curve) s in
       (MQV dS dE xE Sx Sy Ex Ey curve = Err (New "failed to generate shared secret")
        <-> fst Zp = 0)
       /\ (fst Zp <> 0 -> MQV dS dE xE Sx Sy Ex Ey curve = Ok Zp))
  /\ (cofactor curve = Err
        (New ("failed to determine cofactor of curve "
              ++ quoted (elliptic.Name (elliptic.Params curve)))) ->
      MQV dS dE xE Sx Sy Ex Ey curve
      <> Err (New "failed to generate shared secret"))
  /\ BlindMQV dS dE xE Sx Sy Ex Ey curve rand
     <> Err (New "failed to generate shared secret")
  /\ (forall h sNew sRev rand1 eNew eRev rand2,
        cofactor curve = Ok h ->
        BlindKey dS (elliptic.Params curve) rand = Ok (sNew, sRev, rand1) ->
        BlindKey dE (elliptic.Params curve) rand1 = Ok (eNew, eRev, rand2) ->
        exists s1 s2,
          mqvSig sNew eNew xE curve h = Ok s1 /\ mqvSig sRev eRev xE curve h = Ok s2 /\
          BlindMQV dS dE xE Sx Sy Ex Ey curve rand
          = Ok (curve_add curve
                  (curve_mult curve (mqvBase Sx Sy Ex Ey curve) s1)
                  (curve_mult curve (mqvBase Sx Sy Ex Ey curve) s2), rand2)).
Proof.
  intros HN. split; [| split; [| split]].
  - intros h Hc. destruct (mqvSig_total dS dE xE curve h HN) as [s Hs].
    exists s. split; [exact Hs |]. unfold MQV. rewrite Hc, Hs. cbn [mbind result_bind].
    unfold curve_mult.
    destruct (mqvBase Sx Sy Ex Ey curve) as [bx by_]. cbn [fst snd].
    destruct (elliptic.ScalarMult curve bx by_ s) as [x y]. cbn [fst].
    unfold big.Sign.
    destruct (Z.eqb_spec (Z.sgn x) 0) as [Hs0 | Hs0].
    + apply (proj1 (Z.sgn_null_iff x)) in Hs0.
      split; [split; [intros _; exact Hs0 | reflexivity] | intros Hx; contradiction].
    + assert (Hx : x <> 0) by (intros ->; apply Hs0; reflexivity).
      split; [split; [discriminate | intros Hx0; contradiction] | reflexivity].
  - intros Hc. unfold MQV. rewrite Hc. discriminate.
  - unfold BlindMQV.
    destruct (cofactor curve) as [h | |]; try discriminate.
    destruct (BlindKey dS _ rand) as [[[sNew sRev] rand1] | |]; try discriminate.
    destruct (BlindKey dE _ rand1) as [[[eNew eRev] rand2] | |]; try discriminate.
    destruct (mqvBase Sx Sy Ex Ey curve) as [bx by_].
    destruct (mqvSig sNew eNew xE curve h) as [s1 | e | msg] eqn:H1;
      [| exfalso; exact (mqvSig_no_error _ _ _ _ _ _ H1) | discriminate].
    cbn [mbind result_bind]. destruct (elliptic.ScalarMult curve bx by_ s1).
    destruct (mqvSig sRev eRev xE curve h) as [s2 | e | msg] eqn:H2;
      [| exfalso; exact (mqvSig_no_error _ _ _ _ _ _ H2) | discriminate].
    cbn [mbind result_bind]. destruct (elliptic.ScalarMult curve bx by_ s2).
    destruct (elliptic.Add curve _ _ _ _). discriminate.
  - intros h sNew sRev rand1 eNew eRev rand2 Hc HB1 HB2.
    destruct (mqvSig_total sNew eNew xE curve h HN) as [s1 Hs1].
    destruct (mqvSig_total sRev eRev xE curve h HN) as [s2 Hs2].
    exists s1, s2. split; [exact Hs1 |]. split; [exact Hs2 |].
    unfold BlindMQV. rewrite Hc, HB1, HB2.
    unfold curve_add, curve_mult.
    destruct (mqvBase Sx Sy Ex Ey curve) as [bx by_]. cbn [fst snd].
    rewrite Hs1. cbn [mbind result_bind].
    destruct (elliptic.ScalarMult curve bx by_ s1) as [x1 y1].
    rewrite Hs2. cbn [mbind result_bind].
    destruct (elliptic.ScalarMult curve bx by_ s2) as [x2 y2]. cbn [fst snd].
    destruct (elliptic.Add curve x1 y1 x2 y2). reflexivity.
Qed.

End InfinityCheck.

(** ** SubtleInt operations, key generation and blinding *)

Lemma len_repeat (a : Z) k : len (repeat a k) = Z.of_nat k.
Proof. unfold len. rewrite repeat_length. reflexivity. Qed.

Section SubtleClaims.
Context `{Platform}.

(** C7 as amended. [SetBytes] places a buffer no longer than the width at the
    most significant end: the value is that of [buf] followed by zero bytes up
    to the width (in particular the value of [buf] itself when [buf] fills
    the width), and [Bytes] then returns [buf] followed by those zero
    bytes. *)
Theorem SetBytes_left_aligned z buf :
  bytes_ok buf -> len buf <= width z ->
  exists z', SetBytes z buf = Ok z' /\ wf z' /\ length z' = length z
    /\ value z' = big.SetBytes buf * 256 ^ (width z - len buf)
    /\ Bytes z' = Ok (buf ++ repeat 0 (Z.to_nat (width z - len buf)))
    /\ (len buf = width z -> value z' = big.SetBytes buf /\ Bytes z' = Ok buf).
Proof.
  intros Hbuf Hcap.
  destruct (SetBytes_spec z buf Hbuf Hcap) as (z' & Hz' & Hwf & Hlen & Hv).
  destruct (Bytes_spec z' Hwf) as (b & Hb & Hbok & Hlb & Hvb).
  assert (Hw : width z' = width z) by (unfold width, len; rewrite Hlen; reflexivity).
  assert (Hpad : bytes_ok (buf ++ repeat 0 (Z.to_nat (width z - len buf)))).
  { apply Forall_app. split; [exact Hbuf |].
    apply Forall_forall. intros v Hin. apply list_elem_of_In, repeat_spec in Hin.
    subst v. unfold is_byte. lia. }
  assert (Heq : b = buf ++ repeat 0 (Z.to_nat (width z - len buf))).
  { apply big_SetBytes_inj; [assumption | assumption | |].
    - unfold len in *. rewrite length_app, repeat_length. lia.
    - rewrite Hvb, Hv, big_SetBytes_app, big_SetBytes_zeros.
      rewrite len_repeat, Z2Nat.id by lia. lia. }
  exists z'. split; [exact Hz' |]. split; [exact Hwf |]. split; [exact Hlen |].
  split; [exact Hv |]. split; [rewrite Hb, Heq; reflexivity |].
  intros Hfull. rewrite Hv, Hb, Heq, Hfull, Z.sub_diag, Z.pow_0_r.
  cbn [Z.to_nat repeat]. rewrite app_nil_r. split; [lia | reflexivity].
Qed.

(** C8. On equal-length operands [Less] returns 1 if the first integer is
    strictly below the second and 0 otherwise; in particular [a.Less(a)] is 0. *)
Theorem Less_correct a b :
  wf a -> wf b -> length a = length b ->
  Less a b = Ok (if value a <? value b then 1 else 0) /\ Less a a = Ok 0.
Proof.
  intros Ha Hb Hlen. split; [apply Less_spec; assumption |].
  rewrite Less_spec, Z.ltb_irrefl by (assumption || reflexivity). reflexivity.
Qed.

End SubtleClaims.

Section KeyClaims.
Context `{Platform}.

Lemma big_SetBytes_lookup_pos k i v :
  bytes_ok k -> k !! i = Some v -> v <> 0 -> 1 <= big.SetBytes k.
Proof.
  intros Hk Hi Hv.
  rewrite <- (take_drop_middle k i v Hi), big_SetBytes_app, big_SetBytes_cons.
  pose proof (big_SetBytes_bound _ (Forall_take _ i _ Hk)) as [B1 _].
  pose proof (big_SetBytes_bound _ (Forall_drop _ (S i) _ Hk)) as [B2 _].
  assert (Bv : 1 <= v).
  { pose proof (proj1 (Forall_lookup _ _) Hk i v Hi) as [? ?]. lia. }
  assert (P1 : 0 < 256 ^ len (v :: drop (S i) k)) by (apply Z.pow_pos_nonneg; unfold len; lia).
  assert (P2 : 0 < 256 ^ len (drop (S i) k)) by (apply Z.pow_pos_nonneg; unfold len; lia).
  nia.
Qed.

(** C4 as amended. Every key returned by [GenerateKey] has the byte length of
    the order and satisfies [0 <= k < n]; it is at least 1 whenever the reader
    never delivers the byte 0x42, as the all-zero reader of the tests. *)
Theorem GenerateKey_valid params rand k rest :
  0 < elliptic.N params -> bytes_ok rand ->
  GenerateKey params rand = Ok (k, rest) ->
  len k = numBytes params
  /\ 0 <= big.SetBytes k < elliptic.N params
  /\ ((forall r, In r rand -> r <> 0x42) -> 1 <= big.SetBytes k).
Proof.
  intros HN Hrand HG.
  destruct (GenerateKey_spec params HN rand k rest Hrand HG)
    as (Hk & Hlen & _ & Hrange & r1 & Hin & Hk1).
  split; [exact Hlen |]. split; [exact Hrange |].
  intros Hno. apply (big_SetBytes_lookup_pos k 1 _ Hk Hk1).
  intros Hx. apply Z.lxor_eq in Hx. exact (Hno r1 Hin Hx).
Qed.

(** On a private key of the full byte length the two halves returned by
    [BlindKey] sum to the key modulo the order. *)
Lemma BlindKey_full_length params priv rand p1 p2 rest :
  0 < elliptic.N params -> bytes_ok priv -> bytes_ok rand ->
  len priv = numBytes params ->
  BlindKey priv params rand = Ok (p1, p2, rest) ->
  (big.SetBytes p1 + big.SetBytes p2) mod elliptic.N params
  = big.SetBytes priv mod elliptic.N params.
Proof.
  intros HN Hpriv Hrand Hlen HB.
  destruct (BlindKey_spec params HN _ _ _ _ _ Hpriv Hrand HB) as (_ & _ & _ & _ & _ & _ & Hs).
  unfold numBytes in Hlen. rewrite Hlen, Z.sub_diag, Z.pow_0_r, Z.mul_1_r in Hs. exact Hs.
Qed.

End KeyClaims.

(** ** Effects on the store *)

Module MemFacts.
Import Mem.

Lemma preserves_WipeInt b x : (b <= x)%nat -> preserves b (WipeInt x).
Proof.
  intros Hl h. unfold WipeInt. repeat case_match; try (split; reflexivity).
  split; [apply take_insert_ge; exact Hl | apply length_insert].
Qed.

Lemma preserves_WipeBytes b x : (b <= x)%nat -> preserves b (WipeBytes x).
Proof.
  intros Hl h. unfold WipeBytes. repeat case_match; try (split; reflexivity).
  split; [apply take_insert_ge; exact Hl | apply length_insert].
Qed.

Lemma preserves_SetZero `{Platform} b x : (b <= x)%nat -> preserves b (SetZero x).
Proof.
  intros Hl h. unfold SetZero. repeat case_match; try (split; reflexivity).
  split; [apply take_insert_ge; exact Hl | apply length_insert].
Qed.

Lemma preserves_fold b ds : Forall (preserves b) ds ->
  forall h, take b (fold_left (fun h f => f h) ds h) = take b h.
Proof.
  induction 1 as [| f ds Hf _ IH]; intros h; cbn [fold_left]; [reflexivity |].
  rewrite IH. apply Hf.
Qed.

Lemma length_fold b ds : Forall (preserves b) ds ->
  forall h, length (fold_left (fun h f => f h) ds h) = length h.
Proof.
  induction 1 as [| f ds Hf _ IH]; intros h; cbn [fold_left]; [reflexivity |].
  rewrite IH. apply Hf.
Qed.

Section Rules.
Context {A B : Type}.

Lemma safe_weaken b (m : M A) (Q Q' : A -> Prop) :
  safe b m Q -> (forall a, Q a -> Q' a) -> safe b m Q'.
Proof.
  intros Hm HQ s Hb Hd. destruct (Hm s Hb Hd) as (? & ? & ? & Ha).
  repeat (split; [assumption |]). intros a Hr. apply HQ, Ha, Hr.
Qed.

Lemma safe_ret b (a : A) (Q : A -> Prop) : Q a -> safe b (mret a) Q.
Proof.
  intros HQ s Hb Hd. cbn. repeat (split; [reflexivity || assumption || lia |]).
  intros a' [= <-]. exact HQ.
Qed.

Lemma safe_lift b (r : result A) (Q : A -> Prop) :
  (forall a, r = Ok a -> Q a) -> safe b (lift r) Q.
Proof.
  intros HQ s Hb Hd. cbn. repeat (split; [reflexivity || assumption || lia |]).
  exact HQ.
Qed.

Lemma safe_bind b (m : M A) (k : A -> M B) (Q1 : A -> Prop) (Q2 : B -> Prop) :
  safe b m Q1 -> (forall a, Q1 a -> safe b (k a) Q2) -> safe b (m ≫= k) Q2.
Proof.
  intros Hm Hk s Hb Hd. destruct (Hm s Hb Hd) as (Ht & Hl & Hd' & Ha).
  unfold mbind, M_bind. destruct (m s) as [[a | e | msg] s'] eqn:Hms; cbn [fst snd] in *.
  - destruct (Hk a (Ha a eq_refl) s' ltac:(lia) Hd') as (Ht2 & Hl2 & Hd2 & Ha2).
    split; [congruence |]. split; [lia |]. split; assumption.
  - repeat (split; [assumption |]). discriminate.
  - repeat (split; [assumption |]). discriminate.
Qed.

Lemma safe_call b (body : M A) (Q : A -> Prop) :
  safe b body Q -> safe b (call body) Q.
Proof.
  intros Hbody s Hb Hd. unfold call.
  destruct (Hbody {| objects := objects s; deferred := [] |} Hb (Forall_nil_2 _))
    as (Ht & Hl & Hd' & Ha).
  destruct (body _) as [r s'] eqn:Hbs. cbn [fst snd objects deferred] in *.
  split; [rewrite (preserves_fold b _ Hd'); exact Ht |].
  split; [rewrite (length_fold b _ Hd'); exact Hl |].
  split; [exact Hd | exact Ha].
Qed.

Lemma safe_wrap_error b (m : M A) msg (Q : A -> Prop) :
  safe b m Q -> safe b (wrap_error m msg) Q.
Proof.
  intros Hm s Hb Hd. destruct (Hm s Hb Hd) as (Ht & Hl & Hd' & Ha).
  unfold wrap_error. destruct (m s) as [[a | e | msg'] s']; cbn [fst snd] in *;
    repeat (split; [assumption |]); first [exact Ha | discriminate].
Qed.

End Rules.

Lemma safe_alloc b o : safe b (alloc o) (fun l => (b <= l)%nat).
Proof.
  intros s Hb Hd. cbn. rewrite take_app_le by exact Hb.
  split; [reflexivity |]. split; [rewrite length_app; lia |].
  split; [exact Hd |]. intros a [= <-]. exact Hb.
Qed.

Lemma safe_load b l : safe b (load l) (fun _ => True).
Proof.
  intros s Hb Hd. unfold load. case_match; cbn [fst snd objects deferred];
    repeat (split; [reflexivity || assumption || lia |]); trivial.
Qed.

Lemma safe_store b l o : (b <= l)%nat -> safe b (store l o) (fun _ => True).
Proof.
  intros Hl s Hb Hd. unfold store. case_match; cbn [fst snd objects deferred].
  - split; [apply take_insert_ge; exact Hl |]. split; [rewrite length_insert; lia |].
    split; [exact Hd | trivial].
  - repeat (split; [reflexivity || assumption || lia |]). trivial.
Qed.

Lemma safe_defer b f : preserves b f -> safe b (defer f) (fun _ => True).
Proof.
  intros Hf s Hb Hd. cbn. split; [reflexivity |]. split; [lia |].
  split; [constructor; assumption | trivial].
Qed.


Create HintDb safe.
#[local] Hint Resolve safe_alloc safe_load safe_store safe_defer safe_wrap_error : safe.
#[local] Hint Resolve preserves_WipeInt preserves_WipeBytes preserves_SetZero : safe.
#[local] Hint Extern 1 (safe _ (mret _) _) => apply safe_ret : safe.
#[local] Hint Extern 1 (safe _ (lift _) _) => apply safe_lift; intros : safe.
#[local] Hint Extern 2 (_ <= _)%nat => lia : safe.

(** One step of a frame proof: a bind, a call boundary, or a case split of
    the program text. *)
Ltac safe_step :=
  first
    [ apply safe_call
    | apply safe_wrap_error
    | apply safe_lift; discriminate
    | match goal with
      | |- safe _ (lift _ ≫= _) _ =>
          eapply safe_bind with (Q1 := fun _ => True);
          [apply safe_lift; trivial | cbv beta; intros ? ?]
      end
    | eapply safe_bind; [solve [eauto with safe] | cbv beta; intros ? ?]
    | match goal with
      | |- safe _ (match ?x with _ => _ end) _ => destruct x
      | |- safe _ (_ ← (match ?x with _ => _ end); _) _ => destruct x
      | H : _ /\ _ |- _ => destruct H
      end
    | solve [eauto with safe]
    | eapply safe_weaken; [solve [eauto with safe] | cbv beta; intros; tauto] ].

Ltac safe_auto := cbv zeta; repeat safe_step.

Section Primitives.
Context `{Platform}.
Variable b : nat.

Lemma safe_load_bytes l : safe b (load_bytes l) (fun _ => True).
Proof. unfold load_bytes. safe_auto. Qed.

Lemma safe_load_int l : safe b (load_int l) (fun _ => True).
Proof. unfold load_int. safe_auto. Qed.

Lemma safe_load_words l : safe b (load_words l) (fun _ => True).
Proof. unfold load_words. safe_auto. Qed.

Hint Resolve safe_load_bytes safe_load_int safe_load_words : safe.

Lemma safe_big_SetBytes buf : safe b (big_SetBytes buf) (fun l => (b <= l)%nat).
Proof. unfold big_SetBytes. safe_auto. Qed.

Lemma safe_big_Bytes x : safe b (big_Bytes x) (fun l => (b <= l)%nat).
Proof. unfold big_Bytes. safe_auto. Qed.

Lemma safe_big_op op z x y :
  (b <= z)%nat -> safe b (big_op op z x y) (fun l => (b <= l)%nat).
Proof. intros Hz. unfold big_op. safe_auto. Qed.

Lemma safe_big_Mod z x n :
  (b <= z)%nat -> safe b (big_Mod z x n) (fun l => (b <= l)%nat).
Proof. intros Hz. unfold big_Mod. safe_auto. Qed.

Lemma safe_Add z x y : (b <= z)%nat -> safe b (Mem.Add z x y) (fun _ => True).
Proof. intros Hz. unfold Mem.Add. safe_auto. Qed.

Lemma safe_Sub z x y : (b <= z)%nat -> safe b (Mem.Sub z x y) (fun _ => True).
Proof. intros Hz. unfold Mem.Sub. safe_auto. Qed.

Lemma safe_Select z p x y : (b <= z)%nat -> safe b (Mem.Select z p x y) (fun _ => True).
Proof. intros Hz. unfold Mem.Select. safe_auto. Qed.

Hint Resolve safe_big_SetBytes safe_big_Bytes safe_big_op safe_big_Mod
  safe_Add safe_Sub safe_Select : safe.

Lemma safe_AddMod z x y n : (b <= z)%nat -> safe b (Mem.AddMod z x y n) (fun _ => True).
Proof. intros Hz. unfold Mem.AddMod. safe_auto. Qed.

Lemma safe_Less z y : safe b (Mem.Less z y) (fun _ => True).
Proof. unfold Mem.Less. safe_auto. Qed.

Lemma safe_SetBytes z buf : (b <= z)%nat -> safe b (Mem.SetBytes z buf) (fun _ => True).
Proof. intros Hz. unfold Mem.SetBytes. safe_auto. Qed.

Lemma safe_Bytes z : safe b (Mem.Bytes z) (fun l => (b <= l)%nat).
Proof. unfold Mem.Bytes. safe_auto. Qed.

Lemma safe_reslice l n : (b <= l)%nat -> safe b (reslice l n) (fun l => (b <= l)%nat).
Proof. intros Hl. unfold reslice. safe_auto. Qed.

Lemma safe_len_words z : safe b (len_words z) (fun _ => True).
Proof. unfold len_words. safe_auto. Qed.

Lemma safe_len_bytes z : safe b (len_bytes z) (fun _ => True).
Proof. unfold len_bytes. safe_auto. Qed.

Lemma safe_curve_ScalarMult curve x y k :
  safe b (curve_ScalarMult curve x y k) (fun r => (b <= fst r)%nat /\ (b <= snd r)%nat).
Proof. unfold curve_ScalarMult. safe_auto. Qed.

Lemma safe_curve_Add curve x1 y1 x2 y2 :
  safe b (curve_Add curve x1 y1 x2 y2) (fun r => (b <= fst r)%nat /\ (b <= snd r)%nat).
Proof. unfold curve_Add. safe_auto. Qed.

Hint Resolve safe_AddMod safe_Less safe_SetBytes safe_Bytes safe_reslice
  safe_len_words safe_len_bytes safe_curve_ScalarMult safe_curve_Add : safe.

Lemma safe_GenerateKey_loop fuel : forall numBits numBytes constN tmp priv rand,
  (b <= tmp)%nat -> (b <= priv)%nat ->
  safe b (GenerateKey_loop fuel numBits numBytes constN tmp priv rand)
    (fun r => (b <= fst r)%nat).
Proof.
  induction fuel as [| fuel IH]; intros numBits numBytes constN tmp priv rand Ht Hp;
    cbn [GenerateKey_loop].
  - apply safe_lift. discriminate.
  - destruct (io.ReadFull rand numBytes) as [[read rand'] | e | msg];
      [| apply safe_lift; discriminate | apply safe_lift; discriminate].
    safe_auto.
Qed.

Hint Resolve safe_GenerateKey_loop : safe.

Lemma safe_GenerateKey params rand :
  safe b (Mem.GenerateKey params rand) (fun r => (b <= fst r)%nat).
Proof. unfold Mem.GenerateKey. safe_auto. Qed.

Hint Resolve safe_GenerateKey : safe.

Lemma safe_BlindKey priv params rand :
  safe b (Mem.BlindKey priv params rand)
    (fun r => (b <= fst (fst r))%nat /\ (b <= snd (fst r))%nat).
Proof. unfold Mem.BlindKey. safe_auto. Qed.

Variable one : loc.

Lemma safe_cofactor curve : safe b (Mem.cofactor one curve) (fun h => h = one).
Proof. unfold Mem.cofactor. safe_auto. Qed.

Lemma safe_avf x params : safe b (Mem.avf one x params) (fun l => (b <= l)%nat).
Proof. unfold Mem.avf. safe_auto. Qed.

Hint Resolve safe_BlindKey safe_cofactor safe_avf : safe.

Lemma safe_mqvSig dS dE xE curve h :
  safe b (Mem.mqvSig one dS dE xE curve h) (fun l => (b <= l)%nat).
Proof. unfold Mem.mqvSig. safe_auto. Qed.

Lemma safe_mqvBase Sx Sy Ex Ey curve :
  safe b (Mem.mqvBase one Sx Sy Ex Ey curve)
    (fun r => (b <= fst r)%nat /\ (b <= snd r)%nat).
Proof. unfold Mem.mqvBase. safe_auto. Qed.

Hint Resolve safe_mqvSig safe_mqvBase : safe.

Lemma safe_MQV dS dE xE Sx Sy Ex Ey curve :
  safe b (Mem.MQV one dS dE xE Sx Sy Ex Ey curve)
    (fun r => (b <= fst r)%nat /\ (b <= snd r)%nat).
Proof. unfold Mem.MQV. safe_auto. Qed.

Lemma safe_BlindMQV dS dE xE Sx Sy Ex Ey curve rand :
  safe b (Mem.BlindMQV one dS dE xE Sx Sy Ex Ey curve rand)
    (fun r => (b <= fst (fst r))%nat /\ (b <= snd (fst r))%nat).
Proof. unfold Mem.BlindMQV. safe_auto. Qed.

End Primitives.

(** A call that is safe above the whole initial store leaves every object of
    that store as it was. *)
Lemma safe_run {A} (m : M A) (Q : A -> Prop) (h : heap) :
  safe (length h) m Q ->
  forall l o, h !! l = Some o -> snd (run m h) !! l = Some o.
Proof.
  intros Hm l o Hl. unfold run.
  destruct (Hm {| objects := h; deferred := [] |} (le_n _) (Forall_nil_2 _))
    as (Ht & _ & _ & _).
  destruct (m _) as [r s]. cbn [fst snd objects] in *.
  rewrite firstn_all in Ht.
  rewrite <- Hl, <- Ht. symmetry. apply lookup_take_lt.
  apply lookup_lt_Some in Hl. exact Hl.
Qed.

(** C10. [MQV], [BlindMQV] and [BlindKey] leave every object of the caller's
    store as it was, whatever they return: the private-key byte slices and the
    peer coordinates they are given are read only, and every write, the
    deferred wipes included, goes to an object allocated during the call. *)
Theorem calls_leave_arguments_unchanged `{Platform} (h : heap) (one : loc)
    (ownStaticPriv ownEphemeralPriv priv : loc)
    (ownEphemeralX otherStaticX otherStaticY otherEphemeralX otherEphemeralY : loc)
    (curve : elliptic.Curve) (params : elliptic.CurveParams) (rand : io.Reader) :
  forall l o, h !! l = Some o ->
    snd (run (Mem.MQV one ownStaticPriv ownEphemeralPriv ownEphemeralX
                otherStaticX otherStaticY otherEphemeralX otherEphemeralY curve) h)
      !! l = Some o
    /\ snd (run (Mem.BlindMQV one ownStaticPriv ownEphemeralPriv ownEphemeralX
                   otherStaticX otherStaticY otherEphemeralX otherEphemeralY curve rand) h)
         !! l = Some o
    /\ snd (run (Mem.BlindKey priv params rand) h) !! l = Some o.
Proof.
  intros l o Hl. split; [| split].
  - exact (safe_run _ _ h (safe_MQV _ _ _ _ _ _ _ _ _ _) l o Hl).
  - exact (safe_run _ _ h (safe_BlindMQV _ _ _ _ _ _ _ _ _ _ _) l o Hl).
  - exact (safe_run _ _ h (safe_BlindKey _ _ _ _) l o Hl).
Qed.

End MemFacts.

(** ** [AddMod] on the store

    [AddMod] writes the receiver in [z.Add(x, y)] before [tmp.Sub(z, n)]
    reads [n], so what a call computes depends on whether the receiver and
    the modulus are the same slice.  On the store they are references; the
    statements below are about calls in which the receiver is a reference
    other than [n].  It may be the reference [x] or [y], as in
    [privNew.AddMod(privNew, blind, n)]. *)

Section StoreRuns.
Context {A B : Type}.

Lemma runs_bind (m : Mem.M A) (k : A -> Mem.M B) s a s1 r s2 :
  Mem.runs m s (Ok a) s1 -> Mem.runs (k a) s1 r s2 -> Mem.runs (m ≫= k) s r s2.
Proof. unfold Mem.runs, mbind, Mem.M_bind. intros -> ->. reflexivity. Qed.

Lemma runs_ret (a : A) s : Mem.runs (mret a) s (Ok a) s.
Proof. reflexivity. Qed.

Lemma runs_lift (r : result A) s : Mem.runs (Mem.lift r) s r s.
Proof. reflexivity. Qed.

Lemma run_runs (m : Mem.M A) h r h' :
  Mem.runs m {| Mem.objects := h; Mem.deferred := [] |} r
    {| Mem.objects := h'; Mem.deferred := [] |} ->
  Mem.run m h = (r, h').
Proof. unfold Mem.runs, Mem.run. intros ->. reflexivity. Qed.

End StoreRuns.

Lemma runs_alloc o h ds :
  Mem.runs (Mem.alloc o) {| Mem.objects := h; Mem.deferred := ds |}
    (Ok (length h)) {| Mem.objects := h ++ [o]; Mem.deferred := ds |}.
Proof. reflexivity. Qed.

Lemma runs_load_words l w h ds :
  h !! l = Some (Mem.OWords w) ->
  Mem.runs (Mem.load_words l) {| Mem.objects := h; Mem.deferred := ds |}
    (Ok w) {| Mem.objects := h; Mem.deferred := ds |}.
Proof.
  intros Hl. unfold Mem.runs, Mem.load_words, Mem.load, mbind, Mem.M_bind.
  cbn [Mem.objects]. rewrite Hl. reflexivity.
Qed.

Lemma runs_store l o o' h ds :
  h !! l = Some o' ->
  Mem.runs (Mem.store l o) {| Mem.objects := h; Mem.deferred := ds |}
    (Ok tt) {| Mem.objects := <[l := o]> h; Mem.deferred := ds |}.
Proof. unfold Mem.runs, Mem.store. cbn [Mem.objects]. intros ->. reflexivity. Qed.

Section AddModOnStore.
Context `{Platform}.

(** [z.Add(x, y)] on the store: the operands are read, then the receiver is
    written. *)
Lemma runs_Add z x y zv xv yv r c h ds :
  h !! z = Some (Mem.OWords zv) -> h !! x = Some (Mem.OWords xv) ->
  h !! y = Some (Mem.OWords yv) ->
  Add zv xv yv = Ok (r, c) ->
  Mem.runs (Mem.Add z x y) {| Mem.objects := h; Mem.deferred := ds |}
    (Ok c) {| Mem.objects := <[z := Mem.OWords r]> h; Mem.deferred := ds |}.
Proof.
  intros Hz Hx Hy Hr. unfold Mem.Add.
  eapply runs_bind; [eapply runs_load_words; eassumption |].
  eapply runs_bind; [eapply runs_load_words; eassumption |].
  eapply runs_bind; [eapply runs_load_words; eassumption |].
  rewrite Hr. eapply runs_bind; [apply runs_lift |].
  eapply runs_bind; [eapply runs_store; eassumption | apply runs_ret].
Qed.

Lemma runs_Sub z x y zv xv yv r c h ds :
  h !! z = Some (Mem.OWords zv) -> h !! x = Some (Mem.OWords xv) ->
  h !! y = Some (Mem.OWords yv) ->
  Sub zv xv yv = Ok (r, c) ->
  Mem.runs (Mem.Sub z x y) {| Mem.objects := h; Mem.deferred := ds |}
    (Ok c) {| Mem.objects := <[z := Mem.OWords r]> h; Mem.deferred := ds |}.
Proof.
  intros Hz Hx Hy Hr. unfold Mem.Sub.
  eapply runs_bind; [eapply runs_load_words; eassumption |].
  eapply runs_bind; [eapply runs_load_words; eassumption |].
  eapply runs_bind; [eapply runs_load_words; eassumption |].
  rewrite Hr. eapply runs_bind; [apply runs_lift |].
  eapply runs_bind; [eapply runs_store; eassumption | apply runs_ret].
Qed.

Lemma runs_Select z p x y zv xv yv r h ds :
  h !! z = Some (Mem.OWords zv) -> h !! x = Some (Mem.OWords xv) ->
  h !! y = Some (Mem.OWords yv) ->
  Select zv p xv yv = Ok r ->
  Mem.runs (Mem.Select z p x y) {| Mem.objects := h; Mem.deferred := ds |}
    (Ok tt) {| Mem.objects := <[z := Mem.OWords r]> h; Mem.deferred := ds |}.
Proof.
  intros Hz Hx Hy Hr. unfold Mem.Select.
  eapply runs_bind; [eapply runs_load_words; eassumption |].
  eapply runs_bind; [eapply runs_load_words; eassumption |].
  eapply runs_bind; [eapply runs_load_words; eassumption |].
  rewrite Hr. eapply runs_bind; [apply runs_lift |].
  eapply runs_store; eassumption.
Qed.

(** [Select] on a bit. *)
Lemma Select_bit z p x y :
  is_bit p -> wf x -> wf y -> length x = length y -> length x = length z ->
  Select z p x y = Ok (if p =? 1 then x else y).
Proof.
  intros Hp Hx Hy Hxy Hxz. unfold Select.
  rewrite !len_eqb_false by assumption. cbn [orb].
  destruct Hp as [-> | ->]; cbn [Z.eqb Pos.eqb].
  - rewrite Select_loop_0 by assumption. reflexivity.
  - rewrite Select_loop_1 by assumption. reflexivity.
Qed.

Lemma lxor_bit c1 c2 : is_bit c1 -> is_bit c2 -> is_bit (Z.lxor c1 c2).
Proof. intros [-> | ->] [-> | ->]; [left | right | right | left]; reflexivity. Qed.

(** The statements of [AddMod] one after the other, for a receiver that is
    not the reference [n] and a second summand below the modulus: the stores
    after [z.Add(x, y)], after [tmp.Sub(z, n)] and after [z.Select(c1^c2, z,
    tmp)], with the carry [c1] and the borrow [c2]. *)
Lemma AddMod_steps (h : Mem.heap) (z x y n : Mem.loc) (zv xv yv nv : SubtleInt) :
  h !! z = Some (Mem.OWords zv) -> h !! x = Some (Mem.OWords xv) ->
  h !! y = Some (Mem.OWords yv) -> h !! n = Some (Mem.OWords nv) ->
  z <> n ->
  wf xv -> wf yv -> wf nv ->
  length xv = length yv -> length xv = length nv -> length xv = length zv ->
  value yv < value nv ->
  exists c1 c2 sum diff,
    let h1 := <[z := Mem.OWords sum]> h ++ [Mem.OWords (make (len xv))] in
    let h2 := <[z := Mem.OWords sum]> h ++ [Mem.OWords diff] in
    let h3 := <[z := Mem.OWords (if Z.lxor c1 c2 =? 1 then sum else diff)]> h
              ++ [Mem.OWords diff] in
    Mem.run (Mem.Add z x y) (h ++ [Mem.OWords (make (len xv))]) = (Ok c1, h1)
    /\ Mem.run (Mem.Sub (length h) z n) h1 = (Ok c2, h2)
    /\ Mem.run (Mem.Select z (Z.lxor c1 c2) z (length h)) h2 = (Ok tt, h3)
    /\ Mem.run (Mem.AddMod z x y n) h = (Ok tt, h3)
    /\ is_bit c1 /\ is_bit c2 /\ ~ (c1 = 1 /\ c2 = 0)
    /\ wf sum /\ wf diff /\ length sum = length xv /\ length diff = length xv
    /\ value sum + modulus (length xv) * c1 = value xv + value yv
    /\ value diff - modulus (length xv) * c2 = value sum - value nv.
Proof.
  intros Hz Hx Hy Hn Hzn Wx Wy Wn Lxy Lxn Lxz Hlt.
  destruct (Add_spec zv xv yv Wx Wy Lxy Lxz)
    as (sum & c1 & HA & Wsum & Lsum & Bc1 & Vsum).
  assert (Ltmp : length sum = length (make (len xv)))
    by (rewrite length_make; unfold len; lia).
  assert (Lsn : length sum = length nv) by lia.
  destruct (Sub_spec (make (len xv)) sum nv Wsum Wn Lsn Ltmp)
    as (diff & c2 & HS & Wdiff & Ldiff & Bc2 & Vdiff).
  rewrite Lsum in Vdiff.
  assert (Hno : ~ (c1 = 1 /\ c2 = 0)).
  { pose proof (value_bound xv Wx) as Bx. pose proof (value_bound diff Wdiff) as Bd.
    rewrite Ldiff, Lsum in Bd. intros [-> ->]. lia. }
  assert (Hld : (Z.ldiff c1 c2 =? 1) = false).
  { destruct Bc1 as [-> | ->], Bc2 as [-> | ->]; try reflexivity.
    exfalso. apply Hno. split; reflexivity. }
  assert (Hsel : Select sum (Z.lxor c1 c2) sum diff
                 = Ok (if Z.lxor c1 c2 =? 1 then sum else diff)).
  { apply Select_bit; [apply lxor_bit; assumption | assumption | assumption | lia | lia]. }
  pose proof (lookup_lt_Some _ _ _ Hz) as Hzl.
  (* the stores between the statements *)
  set (tmp0 := Mem.OWords (make (len xv))).
  set (sel := if Z.lxor c1 c2 =? 1 then sum else diff) in *.
  assert (E1 : <[z := Mem.OWords sum]> (h ++ [tmp0]) = <[z := Mem.OWords sum]> h ++ [tmp0])
    by (apply insert_app_l; exact Hzl).
  assert (E2 : <[length h := Mem.OWords diff]> (<[z := Mem.OWords sum]> h ++ [tmp0])
               = <[z := Mem.OWords sum]> h ++ [Mem.OWords diff]).
  { rewrite <- (length_insert h z (Mem.OWords sum)) at 1.
    rewrite insert_app_r_alt by lia. rewrite Nat.sub_diag. reflexivity. }
  assert (E3 : <[z := Mem.OWords sel]> (<[z := Mem.OWords sum]> h ++ [Mem.OWords diff])
               = <[z := Mem.OWords sel]> h ++ [Mem.OWords diff]).
  { rewrite insert_app_l by (rewrite length_insert; exact Hzl).
    rewrite list_insert_insert_eq. reflexivity. }
  (* what the statements read *)
  assert (R1z : (<[z := Mem.OWords sum]> h ++ [tmp0]) !! z = Some (Mem.OWords sum)).
  { apply lookup_app_l_Some. apply list_lookup_insert_eq. exact Hzl. }
  assert (R1n : (<[z := Mem.OWords sum]> h ++ [tmp0]) !! n = Some (Mem.OWords nv)).
  { apply lookup_app_l_Some. rewrite list_lookup_insert_ne by exact Hzn. exact Hn. }
  assert (R1t : (<[z := Mem.OWords sum]> h ++ [tmp0]) !! length h = Some tmp0).
  { rewrite lookup_app_r by (rewrite length_insert; lia).
    rewrite length_insert, Nat.sub_diag. reflexivity. }
  assert (R2z : (<[z := Mem.OWords sum]> h ++ [Mem.OWords diff]) !! z
                = Some (Mem.OWords sum)).
  { apply lookup_app_l_Some. apply list_lookup_insert_eq. exact Hzl. }
  assert (R2t : (<[z := Mem.OWords sum]> h ++ [Mem.OWords diff]) !! length h
                = Some (Mem.OWords diff)).
  { rewrite lookup_app_r by (rewrite length_insert; lia).
    rewrite length_insert, Nat.sub_diag. reflexivity. }
  assert (S1 : forall ds,
             Mem.runs (Mem.Add z x y) {| Mem.objects := h ++ [tmp0]; Mem.deferred := ds |}
               (Ok c1) {| Mem.objects := <[z := Mem.OWords sum]> h ++ [tmp0];
                          Mem.deferred := ds |}).
  { intros ds. rewrite <- E1.
    eapply runs_Add; [apply lookup_app_l_Some; eassumption .. | exact HA]. }
  assert (S2 : forall ds,
             Mem.runs (Mem.Sub (length h) z n)
               {| Mem.objects := <[z := Mem.OWords sum]> h ++ [tmp0]; Mem.deferred := ds |}
               (Ok c2) {| Mem.objects := <[z := Mem.OWords sum]> h ++ [Mem.OWords diff];
                          Mem.deferred := ds |}).
  { intros ds. rewrite <- E2. eapply runs_Sub; [exact R1t | exact R1z | exact R1n | exact HS]. }
  assert (S3 : forall ds,
             Mem.runs (Mem.Select z (Z.lxor c1 c2) z (length h))
               {| Mem.objects := <[z := Mem.OWords sum]> h ++ [Mem.OWords diff];
                  Mem.deferred := ds |}
               (Ok tt) {| Mem.objects := <[z := Mem.OWords sel]> h ++ [Mem.OWords diff];
                          Mem.deferred := ds |}).
  { intros ds. rewrite <- E3.
    eapply runs_Select; [exact R2z | exact R2z | exact R2t | exact Hsel]. }
  exists c1, c2, sum, diff. cbv zeta. fold tmp0.
  split; [apply run_runs, S1 |]. split; [apply run_runs, S2 |].
  split; [apply run_runs, S3 |].
  split.
  { apply run_runs. unfold Mem.AddMod.
    eapply runs_bind; [eapply runs_load_words; exact Hx |].
    eapply runs_bind; [apply runs_alloc |]. fold tmp0.
    eapply runs_bind; [apply S1 |].
    eapply runs_bind; [apply S2 |].
    rewrite Hld. apply S3. }
  repeat (split; [assumption |]). split; [lia |]. split; assumption.
Qed.

(** C5 as amended. On a store holding equal-width operands with [1 < n],
    [a < n] and [b < n], a call [z.AddMod(x, y, n)] whose receiver is not the
    reference [n] returns, leaves in the receiver the words whose integer
    value is [(a + b) mod n], leaves every other object of the store as it
    was and appends its [tmp]. *)
Theorem AddMod_correct (h : Mem.heap) (z x y n : Mem.loc) (zv a b nv : SubtleInt) :
  h !! z = Some (Mem.OWords zv) -> h !! x = Some (Mem.OWords a) ->
  h !! y = Some (Mem.OWords b) -> h !! n = Some (Mem.OWords nv) ->
  z <> n ->
  wf a -> wf b -> wf nv ->
  length a = length b -> length a = length nv -> length a = length zv ->
  1 < value nv -> value a < value nv -> value b < value nv ->
  exists r t,
    Mem.run (Mem.AddMod z x y n) h
    = (Ok tt, <[z := Mem.OWords r]> h ++ [Mem.OWords t])
    /\ snd (Mem.run (Mem.AddMod z x y n) h) !! z = Some (Mem.OWords r)
    /\ wf r /\ length r = length a
    /\ value r = (value a + value b) mod value nv
    /\ Big r = Ok ((value a + value b) mod value nv).
Proof.
  intros Hz Hx Hy Hn Hzn Wa Wb Wn Lab Lan Laz Hn1 Han Hbn.
  destruct (AddMod_steps h z x y n zv a b nv Hz Hx Hy Hn Hzn Wa Wb Wn Lab Lan Laz Hbn)
    as (c1 & c2 & sum & diff & _ & _ & _ & Hrun & Bc1 & Bc2 & Hno
        & Wsum & Wdiff & Lsum & Ldiff & Vsum & Vdiff).
  pose proof (value_bound a Wa) as Ba. pose proof (value_bound b Wb) as Bb.
  pose proof (value_bound nv Wn) as Bn. pose proof (value_bound sum Wsum) as Bs.
  pose proof (value_bound diff Wdiff) as Bd.
  rewrite Lsum in Bs. rewrite Ldiff in Bd. rewrite <- Lan in Bn.
  set (M := modulus (length a)) in *.
  exists (if Z.lxor c1 c2 =? 1 then sum else diff), diff.
  split; [exact Hrun |].
  split.
  { rewrite Hrun. cbn [snd]. apply lookup_app_l_Some, list_lookup_insert_eq.
    exact (lookup_lt_Some _ _ _ Hz). }
  assert (Hr : wf (if Z.lxor c1 c2 =? 1 then sum else diff)
               /\ length (if Z.lxor c1 c2 =? 1 then sum else diff) = length a
               /\ value (if Z.lxor c1 c2 =? 1 then sum else diff)
                  = (value a + value b) mod value nv).
  { destruct Bc1 as [-> | ->], Bc2 as [-> | ->];
      [ change (Z.lxor 0 0 =? 1) with false | change (Z.lxor 0 1 =? 1) with true
      | change (Z.lxor 1 0 =? 1) with true | change (Z.lxor 1 1 =? 1) with false ];
      cbv iota.
    - (* no carry, no borrow: the difference *)
      split; [exact Wdiff |]. split; [exact Ldiff |].
      apply Z.mod_unique with (q := 1); lia.
    - (* no carry, a borrow: the sum *)
      split; [exact Wsum |]. split; [exact Lsum |].
      rewrite Z.mod_small by lia. lia.
    - exfalso. apply Hno. split; reflexivity.
    - (* a carry and a borrow: the difference *)
      split; [exact Wdiff |]. split; [exact Ldiff |].
      apply Z.mod_unique with (q := 1); lia. }
  destruct Hr as (Wr & Lr & Vr).
  split; [exact Wr |]. split; [exact Lr |]. split; [exact Vr |].
  rewrite Big_value by exact Wr. rewrite Vr. reflexivity.
Qed.

(** C6 as amended. On a store holding equal-width operands with [x < n] and
    [y < n], in a call [z.AddMod(x, y, n)] whose receiver is not the
    reference [n], the three calls of the body run as follows.  [z.Add(x, y)]
    returns a carry [c1] and [tmp.Sub(z, n)] a borrow [c2]; a carry without a
    borrow is impossible, and that is the case the panic guards
    ([c1 &^ c2 == 1]), so the call returns and the panic never fires.  When
    the addition carries, the subtraction borrows as well, and [Select]
    stores the subtracted value, [x + y - n], in the receiver. *)
Theorem AddMod_assertion_never_fires (h : Mem.heap) (z x y n : Mem.loc)
    (zv xv yv nv : SubtleInt) :
  h !! z = Some (Mem.OWords zv) -> h !! x = Some (Mem.OWords xv) ->
  h !! y = Some (Mem.OWords yv) -> h !! n = Some (Mem.OWords nv) ->
  z <> n ->
  wf xv -> wf yv -> wf nv ->
  length xv = length yv -> length xv = length nv -> length xv = length zv ->
  value xv < value nv -> value yv < value nv ->
  let tmp := length h in
  exists c1 c2 h1 h2 h3 diff,
    Mem.run (Mem.Add z x y) (h ++ [Mem.OWords (make (len xv))]) = (Ok c1, h1)
    /\ Mem.run (Mem.Sub tmp z n) h1 = (Ok c2, h2)
    /\ Mem.run (Mem.Select z (Z.lxor c1 c2) z tmp) h2 = (Ok tt, h3)
    /\ Mem.run (Mem.AddMod z x y n) h = (Ok tt, h3)
    /\ fst (Mem.run (Mem.AddMod z x y n) h) <> Panic "can not happen"
    /\ is_bit c1 /\ is_bit c2
    /\ ~ (c1 = 1 /\ c2 = 0)
    /\ (Z.ldiff c1 c2 =? 1) = false
    /\ h2 !! tmp = Some (Mem.OWords diff)
    /\ (c1 = 1 ->
        c2 = 1 /\ h3 !! z = Some (Mem.OWords diff)
        /\ value diff = value xv + value yv - value nv).
Proof.
  intros Hz Hx Hy Hn Hzn Wx Wy Wn Lxy Lxn Lxz Hxn Hyn tmp. subst tmp.
  destruct (AddMod_steps h z x y n zv xv yv nv Hz Hx Hy Hn Hzn Wx Wy Wn Lxy Lxn Lxz Hyn)
    as (c1 & c2 & sum & diff & HA & HS & HSel & Hrun & Bc1 & Bc2 & Hno
        & Wsum & Wdiff & Lsum & Ldiff & Vsum & Vdiff).
  pose proof (lookup_lt_Some _ _ _ Hz) as Hzl.
  eexists c1, c2, _, _, _, diff.
  split; [exact HA |]. split; [exact HS |]. split; [exact HSel |].
  split; [exact Hrun |]. split; [rewrite Hrun; discriminate |].
  split; [exact Bc1 |]. split; [exact Bc2 |]. split; [exact Hno |].
  split.
  { destruct Bc1 as [-> | ->], Bc2 as [-> | ->]; try reflexivity.
    exfalso. apply Hno. split; reflexivity. }
  split.
  { rewrite lookup_app_r by (rewrite length_insert; lia).
    rewrite length_insert, Nat.sub_diag. reflexivity. }
  intros ->.
  assert (Hc2 : c2 = 1) by (destruct Bc2 as [-> | ->]; [exfalso; apply Hno; split |]; reflexivity).
  subst c2. split; [reflexivity |]. change (Z.lxor 1 1 =? 1) with false. cbv iota.
  split.
  - apply lookup_app_l_Some. apply list_lookup_insert_eq. exact Hzl.
  - lia.
Qed.

End AddModOnStore.


(** ** Concrete inputs *)

Ltac eval_Z := vm_compute; repeat split; (reflexivity || discriminate).

Ltac solve_wf :=
  repeat (apply Forall_cons_2; [eval_Z |]); apply Forall_nil_2.

(** C5, counterexample. With the receiver the same slice as [n], on two
    words, [n.AddMod(x, y, n)] for [x = 5], [y = 4] and [n = 7] leaves 0 in
    the receiver, not [(5 + 4) mod 7 = 2]: [z.Add(x, y)] has overwritten [n]
    with 9 before [tmp.Sub(z, n)] subtracts it. *)
Lemma AddMod_receiver_is_modulus :
  ~ (forall (h : Mem.heap) (z x y n : Mem.loc) (zv a b nv r : SubtleInt) (h' : Mem.heap),
       h !! z = Some (Mem.OWords zv) -> h !! x = Some (Mem.OWords a) ->
       h !! y = Some (Mem.OWords b) -> h !! n = Some (Mem.OWords nv) ->
       wf a -> wf b -> wf nv ->
       length a = length b -> length a = length nv -> length a = length zv ->
       1 < value nv -> value a < value nv -> value b < value nv ->
       Mem.run (Mem.AddMod z x y n) h = (Ok tt, h') ->
       h' !! z = Some (Mem.OWords r) ->
       value r = (value a + value b) mod value nv).
Proof.
  intros Hclaim.
  assert (Hc : value [0; 0] = (value [5; 0] + value [4; 0]) mod value [7; 0]).
  { apply (Hclaim [Mem.OWords [5; 0]; Mem.OWords [4; 0]; Mem.OWords [7; 0]]
             2%nat 0%nat 1%nat 2%nat [7; 0] [5; 0] [4; 0] [7; 0] [0; 0]
             [Mem.OWords [5; 0]; Mem.OWords [4; 0]; Mem.OWords [0; 0]; Mem.OWords [0; 0]]);
      try solve_wf; try reflexivity; eval_Z. }
  vm_compute in Hc. discriminate.
Qed.

(** C6, counterexample. With one 64-bit word, [x = y = 2^64 - 2] and
    [n = 2^64 - 1] satisfy the precondition, the addition carries and the
    subtraction borrows. *)
Lemma AddMod_carry_and_borrow :
  ~ (forall (z x y n r t : SubtleInt) (c1 c2 : Z),
       wf x -> wf y -> wf n ->
       length x = length y -> length x = length n -> length x = length z ->
       value x < value n -> value y < value n ->
       Add z x y = Ok (r, c1) -> Sub (make (len x)) r n = Ok (t, c2) ->
       ~ (c1 = 1 /\ c2 = 1)).
Proof.
  intros Hclaim.
  apply (Hclaim [0] [0xfffffffffffffffe] [0xfffffffffffffffe] [0xffffffffffffffff]
           [0xfffffffffffffffc] [0xfffffffffffffffd] 1 1);
    try solve_wf; try reflexivity; eval_Z.
Qed.

(** The same operands on the store, with a receiver of its own: [z.Add(x, y)]
    returns the carry 1, [tmp.Sub(z, n)] the borrow 1, and [AddMod] leaves
    [x + y - n = 2^64 - 3] in the receiver. *)
Example carry_and_borrow_on_store :
  let h := [Mem.OWords [0]; Mem.OWords [0xfffffffffffffffe];
            Mem.OWords [0xffffffffffffffff]] in
  Mem.run (Mem.Add 0%nat 1%nat 1%nat) (h ++ [Mem.OWords (make 1)])
  = (Ok 1, [Mem.OWords [0xfffffffffffffffc]; Mem.OWords [0xfffffffffffffffe];
            Mem.OWords [0xffffffffffffffff]; Mem.OWords [0]])
  /\ Mem.run (Mem.Sub 3%nat 0%nat 2%nat)
       [Mem.OWords [0xfffffffffffffffc]; Mem.OWords [0xfffffffffffffffe];
        Mem.OWords [0xffffffffffffffff]; Mem.OWords [0]]
     = (Ok 1, [Mem.OWords [0xfffffffffffffffc]; Mem.OWords [0xfffffffffffffffe];
               Mem.OWords [0xffffffffffffffff]; Mem.OWords [0xfffffffffffffffd]])
  /\ Mem.run (Mem.AddMod 0%nat 1%nat 1%nat 2%nat) h
     = (Ok tt, [Mem.OWords [0xfffffffffffffffd]; Mem.OWords [0xfffffffffffffffe];
                Mem.OWords [0xffffffffffffffff]; Mem.OWords [0xfffffffffffffffd]]).
Proof. vm_compute. repeat split; reflexivity. Qed.

(** With the receiver the same slice as [n], the same operands make the
    panic of [AddMod] fire: [z.Add(x, y)] carries and overwrites [n], and
    [tmp.Sub(z, n)] then subtracts the receiver from itself without a
    borrow. *)
Example modulus_as_receiver_panics :
  Mem.run (Mem.AddMod 1%nat 0%nat 0%nat 1%nat)
    [Mem.OWords [0xfffffffffffffffe]; Mem.OWords [0xffffffffffffffff]]
  = (Panic "can not happen",
     [Mem.OWords [0xfffffffffffffffe]; Mem.OWords [0xfffffffffffffffc]; Mem.OWords [0]]).
Proof. vm_compute. reflexivity. Qed.

(** C7, counterexample. The one-byte buffer [[1]] loaded into a one-word
    SubtleInt gives the value [2^56], not 1. *)
Lemma SetBytes_short_buffer :
  ~ (forall (z : SubtleInt) (buf : list Z) (z' : SubtleInt),
       bytes_ok buf -> len buf <= width z -> SetBytes z buf = Ok z' ->
       value z' = big.SetBytes buf).
Proof.
  intros Hclaim.
  assert (Hc : value [0x0100000000000000] = big.SetBytes [1]).
  { apply (Hclaim [0] [1] [0x0100000000000000]); [solve_wf | eval_Z | eval_Z]. }
  vm_compute in Hc. discriminate.
Qed.

Lemma bytes_ok_repeat_0 k : bytes_ok (repeat 0 k).
Proof. induction k; constructor; [unfold is_byte; lia | assumption]. Qed.

(** C4, counterexample. On P-256, a reader that delivers 0x42 at index 1 and
    zeros elsewhere makes [GenerateKey] return the all-zero key. *)
Lemma GenerateKey_zero_key :
  ~ (forall (params : elliptic.CurveParams) (rand : io.Reader) (k : list Z)
            (rest : io.Reader),
       0 < elliptic.N params -> bytes_ok rand ->
       GenerateKey params rand = Ok (k, rest) ->
       1 <= big.SetBytes k < elliptic.N params).
Proof.
  intros Hclaim.
  assert (Hc : 1 <= big.SetBytes (repeat 0 32) < elliptic.N P256Params).
  { apply (Hclaim P256Params zero_key_reader (repeat 0 32) []).
    - eval_Z.
    - constructor; [unfold is_byte; lia |]. constructor; [unfold is_byte; lia |].
      apply bytes_ok_repeat_0.
    - vm_compute. reflexivity. }
  rewrite big_SetBytes_zeros in Hc. lia.
Qed.

(** C3, at the failing input. On P-256, the one-byte key [[1]] and the
    all-zero reader are accepted by [BlindKey], and the two halves sum to
    [2^248] modulo the order instead of 1. *)
Lemma BlindKey_short_key :
  exists p1 p2,
    BlindKey [1] P256Params (repeat 0 32) = Ok (p1, p2, [])
    /\ (big.SetBytes p1 + big.SetBytes p2) mod elliptic.N P256Params = 2 ^ 248
    /\ big.SetBytes [1] mod elliptic.N P256Params = 1
    /\ len [1] <= numBytes P256Params.
Proof.
  eexists _, _. split; [vm_compute; reflexivity |].
  split; [vm_compute; reflexivity |]. split; [vm_compute; reflexivity |].
  vm_compute. discriminate.
Qed.

(** On the store, [MQV] returns two new references holding the point the
    value-level [MQV] returns, and the deferred wipes have zeroed the
    signature scalar. *)
Example MQV_on_store :
  let '(r, h) := Mem.run (Mem.MQV 0%nat 1%nat 2%nat 3%nat 4%nat 5%nat 6%nat 7%nat
                            P256_cyclic) alice_store in
  r = Ok (20%nat, 21%nat)
  /\ h !! 20%nat = Some (Mem.OInt (fst sharedPoint))
  /\ h !! 21%nat = Some (Mem.OInt (snd sharedPoint))
  /\ h !! 12%nat = Some (Mem.OBytes (repeat 0 32))
  /\ take 8 h = alice_store.
Proof. vm_compute. repeat split; reflexivity. Qed.

(** On the store, [BlindMQV] returns the same point and leaves every blinded
    scalar zeroed. *)
Example BlindMQV_on_store :
  let '(r, h) := Mem.run (Mem.BlindMQV 0%nat 1%nat 2%nat 3%nat 4%nat 5%nat 6%nat 7%nat
                            P256_cyclic zero_reader) alice_store in
  r = Ok (53%nat, 54%nat, [])
  /\ h !! 53%nat = Some (Mem.OInt (fst sharedPoint))
  /\ h !! 54%nat = Some (Mem.OInt (snd sharedPoint))
  /\ h !! 18%nat = Some (Mem.OBytes (repeat 0 32))
  /\ h !! 19%nat = Some (Mem.OBytes (repeat 0 32))
  /\ take 8 h = alice_store.
Proof. vm_compute. repeat split; reflexivity. Qed.

(** ** The claims at concrete inputs *)

Lemma bytes_ok_repeat b k : is_byte b -> bytes_ok (repeat b k).
Proof. intros Hb. induction k; constructor; assumption. Qed.

Lemma P256_cyclic_laws :
  GroupLaws P256_cyclic (cyclic_valid P256Params) (cyclic_mul P256Params).
Proof. apply cyclic_laws. reflexivity. Qed.

Ltac solve_byte := unfold is_byte; lia.

(** C1 at the example inputs. *)
Lemma BlindMQV_returns_MQV_witness :
  BlindMQV aliceStaticPriv aliceEphemeralPriv (fst aliceEphemeral)
    (fst bobStatic) (snd bobStatic) (fst bobEphemeral) (snd bobEphemeral)
    P256_cyclic zero_reader
  = Ok (sharedPoint, []).
Proof.
  assert (HK1 : exists sNew sRev,
             BlindKey aliceStaticPriv P256Params zero_reader = Ok (sNew, sRev, repeat 0 32))
    by (eexists _, _; vm_compute; reflexivity).
  assert (HK2 : exists eNew eRev,
             BlindKey aliceEphemeralPriv P256Params (repeat 0 32) = Ok (eNew, eRev, []))
    by (eexists _, _; vm_compute; reflexivity).
  destruct HK1 as (sNew & sRev & HK1). destruct HK2 as (eNew & eRev & HK2).
  apply (BlindMQV_returns_MQV (H := amd64) P256_cyclic (cyclic_valid P256Params)
           (cyclic_mul P256Params) P256_cyclic_laws
           aliceStaticPriv aliceEphemeralPriv (fst aliceEphemeral)
           (fst bobStatic) (snd bobStatic) (fst bobEphemeral) (snd bobEphemeral)
           zero_reader sharedPoint sNew sRev (repeat 0 32) eNew eRev []).
  - apply bytes_ok_repeat. solve_byte.
  - apply bytes_ok_repeat. solve_byte.
  - apply bytes_ok_repeat. solve_byte.
  - reflexivity.
  - reflexivity.
  - eval_Z.
  - eval_Z.
  - vm_compute. reflexivity.
  - exact HK1.
  - exact HK2.
Defined.

(** C2 at the example inputs. *)
Lemma MQV_symmetric_witness :
  MQV aliceStaticPriv aliceEphemeralPriv (fst aliceEphemeral)
    (fst bobStatic) (snd bobStatic) (fst bobEphemeral) (snd bobEphemeral) P256_cyclic
  = Ok sharedPoint
  /\ MQV bobStaticPriv bobEphemeralPriv (fst bobEphemeral)
       (fst aliceStatic) (snd aliceStatic) (fst aliceEphemeral) (snd aliceEphemeral)
       P256_cyclic
     = Ok sharedPoint
  /\ sharedPoint = sharedPoint.
Proof.
  assert (HA : MQV aliceStaticPriv aliceEphemeralPriv (fst aliceEphemeral)
                 (fst bobStatic) (snd bobStatic) (fst bobEphemeral) (snd bobEphemeral)
                 P256_cyclic = Ok sharedPoint) by (vm_compute; reflexivity).
  assert (HB : MQV bobStaticPriv bobEphemeralPriv (fst bobEphemeral)
                 (fst aliceStatic) (snd aliceStatic) (fst aliceEphemeral)
                 (snd aliceEphemeral) P256_cyclic = Ok sharedPoint)
    by (vm_compute; reflexivity).
  split; [exact HA |]. split; [exact HB |].
  apply (MQV_symmetric P256_cyclic (cyclic_valid P256Params) (cyclic_mul P256Params)
           P256_cyclic_laws G_cyclic
           aliceStaticPriv aliceEphemeralPriv bobStaticPriv bobEphemeralPriv
           sharedPoint sharedPoint).
  - eval_Z.
  - apply bytes_ok_repeat. solve_byte.
  - apply bytes_ok_repeat. solve_byte.
  - apply bytes_ok_repeat. solve_byte.
  - apply bytes_ok_repeat. solve_byte.
  - exact HA.
  - exact HB.
Defined.

(** C4 (amended) on P-256 with the all-zero reader of the tests. *)
Lemma GenerateKey_valid_witness :
  len ([0; 0x42] ++ repeat 0 30) = numBytes P256Params
  /\ 0 <= big.SetBytes ([0; 0x42] ++ repeat 0 30) < elliptic.N P256Params
  /\ ((forall r, In r (repeat 0 32) -> r <> 0x42)
      -> 1 <= big.SetBytes ([0; 0x42] ++ repeat 0 30)).
Proof.
  apply (GenerateKey_valid (H := amd64) P256Params (repeat 0 32) ([0; 0x42] ++ repeat 0 30) []).
  - reflexivity.
  - apply bytes_ok_repeat. solve_byte.
  - vm_compute. reflexivity.
Defined.


(** C5 (amended) at [n = 7], [a = 5], [b = 4] on two words, with the
    receiver the slice [x], as in [privNew.AddMod(privNew, blind, n)]. *)
Lemma AddMod_correct_witness :
  exists r t,
    Mem.run (Mem.AddMod 0%nat 0%nat 1%nat 2%nat)
      [Mem.OWords [5; 0]; Mem.OWords [4; 0]; Mem.OWords [7; 0]]
    = (Ok tt,
       <[0%nat := Mem.OWords r]>
         [Mem.OWords [5; 0]; Mem.OWords [4; 0]; Mem.OWords [7; 0]] ++ [Mem.OWords t])
    /\ snd (Mem.run (Mem.AddMod 0%nat 0%nat 1%nat 2%nat)
              [Mem.OWords [5; 0]; Mem.OWords [4; 0]; Mem.OWords [7; 0]]) !! 0%nat
       = Some (Mem.OWords r)
    /\ wf r /\ length r = length [5; 0]
    /\ value r = (value [5; 0] + value [4; 0]) mod value [7; 0]
    /\ Big r = Ok ((value [5; 0] + value [4; 0]) mod value [7; 0]).
Proof.
  apply (AddMod_correct (H := amd64)
           [Mem.OWords [5; 0]; Mem.OWords [4; 0]; Mem.OWords [7; 0]]
           0%nat 0%nat 1%nat 2%nat [5; 0] [5; 0] [4; 0] [7; 0]);
    try solve_wf; try reflexivity; try discriminate; eval_Z.
Defined.

(** C6 (amended) at the operands that carry and borrow. *)
Lemma AddMod_assertion_never_fires_witness :
  exists c1 c2 h1 h2 h3 diff,
    Mem.run (Mem.Add 0%nat 1%nat 1%nat)
      ([Mem.OWords [0]; Mem.OWords [0xfffffffffffffffe]; Mem.OWords [0xffffffffffffffff]]
       ++ [Mem.OWords (make (len [0xfffffffffffffffe]))]) = (Ok c1, h1)
    /\ Mem.run (Mem.Sub 3%nat 0%nat 2%nat) h1 = (Ok c2, h2)
    /\ Mem.run (Mem.Select 0%nat (Z.lxor c1 c2) 0%nat 3%nat) h2 = (Ok tt, h3)
    /\ Mem.run (Mem.AddMod 0%nat 1%nat 1%nat 2%nat)
         [Mem.OWords [0]; Mem.OWords [0xfffffffffffffffe]; Mem.OWords [0xffffffffffffffff]]
       = (Ok tt, h3)
    /\ fst (Mem.run (Mem.AddMod 0%nat 1%nat 1%nat 2%nat)
              [Mem.OWords [0]; Mem.OWords [0xfffffffffffffffe];
               Mem.OWords [0xffffffffffffffff]])
       <> Panic "can not happen"
    /\ is_bit c1 /\ is_bit c2
    /\ ~ (c1 = 1 /\ c2 = 0)
    /\ (Z.ldiff c1 c2 =? 1) = false
    /\ h2 !! 3%nat = Some (Mem.OWords diff)
    /\ (c1 = 1 ->
        c2 = 1 /\ h3 !! 0%nat = Some (Mem.OWords diff)
        /\ value diff
           = value [0xfffffffffffffffe] + value [0xfffffffffffffffe]
             - value [0xffffffffffffffff]).
Proof.
  apply (AddMod_assertion_never_fires (H := amd64)
           [Mem.OWords [0]; Mem.OWords [0xfffffffffffffffe]; Mem.OWords [0xffffffffffffffff]]
           0%nat 1%nat 1%nat 2%nat
           [0] [0xfffffffffffffffe] [0xfffffffffffffffe] [0xffffffffffffffff]);
    try solve_wf; try reflexivity; try discriminate; eval_Z.
Defined.

(** C7 (amended) on the three bytes of the truncation test. *)
Lemma SetBytes_left_aligned_witness :
  exists z', SetBytes (make 1) [1; 2; 3] = Ok z' /\ wf z'
    /\ length z' = length (make 1)
    /\ value z' = big.SetBytes [1; 2; 3] * 256 ^ (width (make 1) - len [1; 2; 3])
    /\ Bytes z' = Ok ([1; 2; 3] ++ repeat 0 (Z.to_nat (width (make 1) - len [1; 2; 3])))
    /\ (len [1; 2; 3] = width (make 1)
        -> value z' = big.SetBytes [1; 2; 3] /\ Bytes z' = Ok [1; 2; 3]).
Proof.
  apply (SetBytes_left_aligned (H := amd64) (make 1) [1; 2; 3]).
  - repeat (constructor; [solve_byte |]). constructor.
  - eval_Z.
Defined.

(** C8 on two words. *)
Lemma Less_correct_witness :
  Less [1; 2] [2; 2] = Ok (if value [1; 2] <? value [2; 2] then 1 else 0)
  /\ Less [1; 2] [1; 2] = Ok 0.
Proof.
  apply (Less_correct (H := amd64) [1; 2] [2; 2]); try solve_wf; reflexivity.
Defined.

(** C9 on P-256 in its cyclic presentation. *)
Lemma MQV_checks_infinity_BlindMQV_does_not_witness :
  (forall h, cofactor P256_cyclic = Ok h ->
     exists s, mqvSig aliceStaticPriv aliceEphemeralPriv (fst aliceEphemeral) P256_cyclic h
               = Ok s /\
       let Zp := curve_mult P256_cyclic
                   (mqvBase (fst bobStatic) (snd bobStatic) (fst bobEphemeral)
                      (snd bobEphemeral) P256_cyclic) s in
       (MQV aliceStaticPriv aliceEphemeralPriv (fst aliceEphemeral)
          (fst bobStatic) (snd bobStatic) (fst bobEphemeral) (snd bobEphemeral) P256_cyclic
        = Err (New "failed to generate shared secret")
        <-> fst Zp = 0)
       /\ (fst Zp <> 0 ->
           MQV aliceStaticPriv aliceEphemeralPriv (fst aliceEphemeral)
             (fst bobStatic) (snd bobStatic) (fst bobEphemeral) (snd bobEphemeral)
             P256_cyclic
           = Ok Zp))
  /\ (cofactor P256_cyclic = Err
        (New ("failed to determine cofactor of curve "
              ++ quoted (elliptic.Name (elliptic.Params P256_cyclic)))) ->
      MQV aliceStaticPriv aliceEphemeralPriv (fst aliceEphemeral)
        (fst bobStatic) (snd bobStatic) (fst bobEphemeral) (snd bobEphemeral) P256_cyclic
      <> Err (New "failed to generate shared secret"))
  /\ BlindMQV aliceStaticPriv aliceEphemeralPriv (fst aliceEphemeral)
       (fst bobStatic) (snd bobStatic) (fst bobEphemeral) (snd bobEphemeral)
       P256_cyclic zero_reader
     <> Err (New "failed to generate shared secret")
  /\ (forall h sNew sRev rand1 eNew eRev rand2,
        cofactor P256_cyclic = Ok h ->
        BlindKey aliceStaticPriv (elliptic.Params P256_cyclic) zero_reader
        = Ok (sNew, sRev, rand1) ->
        BlindKey aliceEphemeralPriv (elliptic.Params P256_cyclic) rand1
        = Ok (eNew, eRev, rand2) ->
        exists s1 s2,
          mqvSig sNew eNew (fst aliceEphemeral) P256_cyclic h = Ok s1 /\
          mqvSig sRev eRev (fst aliceEphemeral) P256_cyclic h = Ok s2 /\
          BlindMQV aliceStaticPriv aliceEphemeralPriv (fst aliceEphemeral)
            (fst bobStatic) (snd bobStatic) (fst bobEphemeral) (snd bobEphemeral)
            P256_cyclic zero_reader
          = Ok (curve_add P256_cyclic
                  (curve_mult P256_cyclic
                     (mqvBase (fst bobStatic) (snd bobStatic) (fst bobEphemeral)
                        (snd bobEphemeral) P256_cyclic) s1)
                  (curve_mult P256_cyclic
                     (mqvBase (fst bobStatic) (snd bobStatic) (fst bobEphemeral)
                        (snd bobEphemeral) P256_cyclic) s2), rand2)).
Proof.
  apply (MQV_checks_infinity_BlindMQV_does_not (H := amd64)).
  vm_compute. discriminate.
Defined.

(** C10 on Alice's store: her static private key, at reference 1, is
    unchanged by the three calls. *)
Lemma calls_leave_arguments_unchanged_witness :
  snd (Mem.run (Mem.MQV 0%nat 1%nat 2%nat 3%nat 4%nat 5%nat 6%nat 7%nat P256_cyclic)
         alice_store) !! 1%nat = Some (Mem.OBytes aliceStaticPriv)
  /\ snd (Mem.run (Mem.BlindMQV 0%nat 1%nat 2%nat 3%nat 4%nat 5%nat 6%nat 7%nat
                     P256_cyclic zero_reader) alice_store) !! 1%nat
     = Some (Mem.OBytes aliceStaticPriv)
  /\ snd (Mem.run (Mem.BlindKey 1%nat P256Params zero_reader) alice_store) !! 1%nat
     = Some (Mem.OBytes aliceStaticPriv).
Proof.
  apply (MemFacts.calls_leave_arguments_unchanged (H := amd64) alice_store 0%nat
           1%nat 2%nat 1%nat 3%nat 4%nat 5%nat 6%nat 7%nat P256_cyclic P256Params
           zero_reader 1%nat (Mem.OBytes aliceStaticPriv)).
  reflexivity.
Defined.
